(** * Masked-token decoding loop of MAGE-SPOT: model and properties

    Shallow embedding of [gen_img_cond.py] ([mask_by_random_topk],
    [gen_image], the names of the image files) and of
    [models_mage_decoder.py]: the attention weights and their normalisation
    at the end of [forward_decoder], the input sequence of the decoder
    blocks, [BertEmbeddings], and the training path ([forward_encoder] with
    its random masking, [LabelSmoothingCrossEntropy], [forward_loss],
    [forward]).

    Numbers.  Tensors of floats are modelled over the reals of the Standard
    Library, extended with the two infinities and NaN where the code can
    produce them ([log] of a probability, the [+inf] confidence sentinel).
    Rounding is not modelled.  Integer tensors are lists of [Z].  A tensor of
    shape (B, L) is a list of B rows of length L.

    Randomness.  The two random sources of [gen_image] (the categorical
    sampler and [np.random.gumbel]) are inputs of the model: after
    [torch.manual_seed(seed)] and [np.random.seed(seed)] every draw is a
    function of the place where it is made.  A Gumbel draw is a finite
    number; its distribution plays no part below.

    Errors.  A shape mismatch, an index out of range and an unbound name
    end the Python program; the functions that can meet one return
    [option]. *)

From Stdlib Require Import Reals Lra Lia ZArith.
From Stdlib Require Import Zfloor.
From Stdlib Require String Ascii DecimalString DecimalN DecimalPos.
From stdpp Require Import base decidable option list sorting.

Local Open Scope R_scope.

(** ** Extended reals: the values a float tensor holds *)

Inductive xreal : Type :=
  | XNaN
  | XNegInf
  | XFin (r : R)
  | XPosInf.

Global Instance Rle_decision (x y : R) : Decision (x <= y) := Rle_dec x y.
Global Instance Rlt_decision (x y : R) : Decision (x < y) := Rlt_dec x y.
Global Instance Req_decision : EqDecision R := Req_dec_T.

(** IEEE comparison [x <= y]: false as soon as one side is NaN. *)
Definition xle (x y : xreal) : Prop :=
  match x, y with
  | XNaN, _ | _, XNaN => False
  | XNegInf, _ => True
  | _, XPosInf => True
  | XFin a, XFin b => a <= b
  | XFin _, XNegInf => False
  | XPosInf, _ => False
  end.

Global Instance xle_decision (x y : xreal) : Decision (xle x y).
Proof. destruct x, y; simpl; apply _. Defined.

Definition xleb (x y : xreal) : bool := bool_decide (xle x y).

(** The order [torch.sort] uses: the IEEE order, with NaN after everything. *)
Definition sort_le (x y : xreal) : Prop :=
  match x, y with
  | _, XNaN => True
  | XNaN, _ => False
  | _, _ => xle x y
  end.

Global Instance sort_le_decision (x y : xreal) : Decision (sort_le x y).
Proof. destruct x, y; simpl; apply _. Defined.

(** [torch.log] on one entry. *)
Definition xlog (x : xreal) : xreal :=
  match x with
  | XNaN => XNaN
  | XNegInf => XNaN
  | XFin r => if decide (r < 0) then XNaN
              else if decide (r = 0) then XNegInf
              else XFin (ln r)
  | XPosInf => XPosInf
  end.

(** Adding a finite number to an entry. *)
Definition xadd (x : xreal) (r : R) : xreal :=
  match x with
  | XFin a => XFin (a + r)
  | _ => x
  end.

(** [torch.sort(_, axis=-1)] on one row; only the sorted values are used. *)
Definition sort_row (row : list xreal) : list xreal := merge_sort sort_le row.

(** ** Shapes and shape-checked pointwise operations *)

Definition dims {A} (t : list (list A)) : list nat := length <$> t.

Definition tmap {A B} (f : A → B) (t : list (list A)) : list (list B) :=
  (λ row : list A, f <$> row) <$> t.

Definition timap {A B} (f : nat → nat → A → B) (t : list (list A))
  : list (list B) :=
  imap (λ b row, imap (f b) row) t.

(** Pairing two tensors of the same shape; a shape mismatch is the
    RuntimeError torch raises (broadcasting of whole tensors is not used by
    the code at these places). *)
Definition tzip {A B} (s : list (list A)) (t : list (list B))
  : option (list (list (A * B))) :=
  if decide (dims s = dims t) then Some (zip_with zip s t) else None.

(** [torch.where(cond, a, b)] on three tensors. *)
Definition where_ {A} (cond : list (list bool)) (a b : list (list A))
  : option (list (list A)) :=
  ab ← tzip a b;
  cab ← tzip cond ab;
  Some (tmap (λ p : bool * (A * A), if p.1 then p.2.1 else p.2.2) cab).

(** [torch.where(cond, a, c)] and [torch.where(cond, c, b)] with a scalar. *)
Definition where_r {A} (cond : list (list bool)) (a : list (list A)) (c : A)
  : option (list (list A)) :=
  ca ← tzip cond a;
  Some (tmap (λ p : bool * A, if p.1 then p.2 else c) ca).

Definition where_l {A} (cond : list (list bool)) (c : A) (b : list (list A))
  : option (list (list A)) :=
  cb ← tzip cond b;
  Some (tmap (λ p : bool * A, if p.1 then c else p.2) cb).

(** ** Python slicing [l[start:stop]] *)

Definition slice_bound (len i : Z) : Z :=
  if (i <? 0)%Z then Z.max 0 (i + len) else Z.min i len.

Definition py_slice {A} (l : list A) (start stop : Z) : list A :=
  let len := Z.of_nat (length l) in
  let a := slice_bound len start in
  let b := slice_bound len stop in
  take (Z.to_nat (b - a)) (drop (Z.to_nat a) l).

(** [row <= cut] with broadcasting on the last axis. *)
Definition le_broadcast (row cut : list xreal) : option (list bool) :=
  if decide (length cut = 1%nat) then
    Some ((λ x, xleb x (default XNaN (head cut))) <$> row)
  else if decide (length row = length cut) then
    Some (zip_with xleb row cut)
  else if decide (length row = 1%nat) then
    Some ((λ c, xleb (default XNaN (head row)) c) <$> cut)
  else None.

(** ** [mask_by_random_topk]

    [mask_len] is the value of [mask_len.long()]; [gumbel b i] is the entry
    (b, i) of [np.random.gumbel(size=probs.shape)]. *)

Definition perturbed (probs : list (list xreal)) (temperature : R)
    (gumbel : nat → nat → R) : list (list xreal) :=
  timap (λ b i p, xadd (xlog p) (temperature * gumbel b i)) probs.

Definition cut_off_row (mask_len : Z) (sorted : list xreal) : list xreal :=
  py_slice sorted (mask_len - 1) mask_len.

Definition mask_by_random_topk (mask_len : Z) (probs : list (list xreal))
    (temperature : R) (gumbel : nat → nat → R) : option (list (list bool)) :=
  let confidence := perturbed probs temperature gumbel in
  let sorted_confidence := sort_row <$> confidence in
  let cut_off := cut_off_row mask_len <$> sorted_confidence in
  mapM (λ p : list xreal * list xreal, le_broadcast p.1 p.2)
       (zip confidence cut_off).

(** ** Softmax, sampling and gathering *)

Definition Rsum (l : list R) : R := foldr Rplus 0 l.

(** [torch.nn.functional.softmax(_, dim=-1)] on one position. *)
Definition softmax (l : list R) : list R :=
  let s := Rsum (exp <$> l) in (λ x, exp x / s) <$> l.

(** The random sources of one generation call.  [categorical step b i l] is
    the id that [Categorical(logits=...).sample()] draws at iteration [step]
    for position (b, i), whose logits are [l]; the draw lies among the
    categories.  [gumbel step b i] is the Gumbel noise drawn at iteration
    [step] for position (b, i). *)
Record Sampler : Type := {
  categorical : nat → nat → nat → list R → Z;
  categorical_range : ∀ step b i l,
    l ≠ [] → (0 ≤ categorical step b i l < Z.of_nat (length l))%Z;
  gumbel : nat → nat → nat → R
}.

(** [Categorical(logits=logits).sample()]: one id per position; a position
    with no category at all is an error. *)
Definition sample (rnd : Sampler) (step : nat) (logits : list (list (list R)))
  : option (list (list Z)) :=
  if decide (Forall (Forall (λ l : list R, l ≠ [])) logits)
  then Some (timap (categorical rnd step) logits)
  else None.

(** [torch.gather(probs, dim=-1, index=unsqueeze(index, -1))], squeezed: an
    index outside the last axis is an error. *)
Definition in_range (p : list R * Z) : Prop :=
  (0 ≤ p.2 < Z.of_nat (length p.1))%Z.

Definition gather (probs : list (list (list R))) (index : list (list Z))
  : option (list (list R)) :=
  pi ← tzip probs index;
  if decide (Forall (Forall in_range) pi)
  then Some (tmap (λ p : list R * Z, nth (Z.to_nat p.2) p.1 0) pi)
  else None.

(** ** The networks and labels of the model object

    [gen_image] reaches the networks only through these attributes of
    [model]; they are parameters here (the module [models_mage] that builds
    the object is not among the sources; [models_mage_decoder.py] sets
    [mask_token_label] to the vocabulary size minus 1, 2024 for a codebook
    of 1024 entries).  [slot_attention] returns a tuple of
    which the slots alone are used, [forward_decoder] a pair of which the
    logits alone are used; [vqgan_decode ids] stands for
    [model.vqgan.decode(model.vqgan.quantize.get_codebook_entry(ids, _))]. *)
Record Model (Image Latent Slots Picture : Type) : Type := {
  mask_token_label : Z;
  fake_class_label : Z;
  num_slots : nat;
  forward_encoder : Image → Latent;
  slot_attention : Latent → Slots;
  token_emb : list (list Z) → Latent;
  blocks : list (Latent → Latent);
  norm : Latent → Latent;
  forward_decoder :
    Latent → Slots → list (list Z) → list (list bool) → list (list (list R));
  vqgan_decode : list (list Z) → Picture
}.
Arguments mask_token_label {_ _ _ _} _.
Arguments fake_class_label {_ _ _ _} _.
Arguments num_slots {_ _ _ _} _.
Arguments forward_encoder {_ _ _ _} _ _.
Arguments slot_attention {_ _ _ _} _ _.
Arguments token_emb {_ _ _ _} _ _.
Arguments blocks {_ _ _ _} _.
Arguments norm {_ _ _ _} _ _.
Arguments forward_decoder {_ _ _ _} _ _ _ _ _.
Arguments vqgan_decode {_ _ _ _} _ _.

(** ** [gen_image] *)

Definition codebook_size : nat := 1024.
Global Arguments codebook_size : simpl never.
Definition unknown_number_in_the_beginning : Z := 256.
Definition CONFIDENCE_OF_KNOWN_TOKENS : xreal := XPosInf.

(** [ratio = 1. * (step + 1) / num_iter] *)
Definition ratio (num_iter step : nat) : R :=
  1 * INR (step + 1) / INR num_iter.

(** [mask_ratio = np.cos(math.pi / 2. * ratio)] *)
Definition mask_ratio (num_iter step : nat) : R :=
  cos (PI / 2 * ratio num_iter step).

Definition count_true (row : list bool) : Z :=
  Z.of_nat (length (filter (λ b : bool, b = true) row)).

(** One entry of
    [maximum(1, minimum(sum(unknown_map) - 1, floor(L * mask_ratio)))],
    for a row with [unknown] masked positions. *)
Definition masked_count (L : Z) (num_iter step : nat) (unknown : Z) : Z :=
  Z.max 1 (Z.min (unknown - 1) (Zfloor (IZR L * mask_ratio num_iter step))).

(** What one pass through the loop body computes. *)
Record Iteration (Latent Slots : Type) : Type := {
  it_cur_ids : list (list Z);
  it_x : Latent;
  it_slots : Slots;
  it_logits : list (list (list R));
  it_drawn_ids : list (list Z);
  it_sampled_ids : list (list Z);
  it_selected_probs : list (list xreal);
  it_mask_len : Z;
  it_temperature : R;
  it_masking : list (list bool);
  it_token_indices : list (list Z)
}.
Arguments it_cur_ids {_ _} _.
Arguments it_x {_ _} _.
Arguments it_slots {_ _} _.
Arguments it_logits {_ _} _.
Arguments it_drawn_ids {_ _} _.
Arguments it_sampled_ids {_ _} _.
Arguments it_selected_probs {_ _} _.
Arguments it_mask_len {_ _} _.
Arguments it_temperature {_ _} _.
Arguments it_masking {_ _} _.
Arguments it_token_indices {_ _} _.

Section Generation.
Context {Image Latent Slots Picture : Type}.
Variable model : Model Image Latent Slots Picture.
Variable rnd : Sampler.

Definition is_mask (id : Z) : bool :=
  bool_decide (id = mask_token_label model).

(** The encoder pass written out in the loop: embedding, blocks, norm. *)
Definition encode (token_indices : list (list Z)) : Latent :=
  let input_embeddings := token_emb model token_indices in
  norm model (foldl (λ x blk, blk x) input_embeddings (blocks model)).

(** The body of [for step in range(num_iter)], from the state
    [token_indices] to the values of that pass.  The two blocks guarded by
    [with_mask_vis] and [per_iter] only write image files and assign none
    of the variables below; they are left out. *)
Definition gen_step (slots : Slots) (num_iter : nat)
    (choice_temperature : R) (step : nat) (token_indices : list (list Z))
  : option (Iteration Latent Slots) :=
  let cur_ids := token_indices in
  let token_indices :=
    (λ row, fake_class_label model :: row) <$> token_indices in
  let token_all_mask := tmap is_mask token_indices in
  let token_drop_mask := tmap (λ _ : Z, 0%Z) token_indices in
  let x := encode token_indices in
  let logits := forward_decoder model x slots token_drop_mask token_all_mask in
  let logits :=
    (λ row, take codebook_size <$> drop (num_slots model + 1) row)
      <$> logits in
  drawn_ids ← sample rnd step logits;
  let unknown_map := tmap is_mask cur_ids in
  sampled_ids ← where_ unknown_map drawn_ids cur_ids;
  let probs := tmap softmax logits in
  selected_probs ← gather probs sampled_ids;
  selected_probs ←
    where_r unknown_map (tmap XFin selected_probs) CONFIDENCE_OF_KNOWN_TOKENS;
  let mask_len :=
    (λ row, masked_count unknown_number_in_the_beginning num_iter step
              (count_true row)) <$> unknown_map in
  mask_len0 ← mask_len !! 0%nat;
  let temperature := choice_temperature * (1 - ratio num_iter step) in
  masking ← mask_by_random_topk mask_len0 selected_probs temperature
              (gumbel rnd step);
  token_indices ← where_l masking (mask_token_label model) sampled_ids;
  Some {| it_cur_ids := cur_ids; it_x := x; it_slots := slots;
          it_logits := logits;
          it_drawn_ids := drawn_ids; it_sampled_ids := sampled_ids;
          it_selected_probs := selected_probs;
          it_mask_len := mask_len0; it_temperature := temperature;
          it_masking := masking; it_token_indices := token_indices |}.

(** The loop over [steps]; the state carried over is [token_indices]. *)
Fixpoint gen_loop (slots : Slots) (num_iter : nat) (choice_temperature : R)
    (steps : list nat) (token_indices : list (list Z))
  : option (list (Iteration Latent Slots)) :=
  match steps with
  | [] => Some []
  | step :: steps =>
      it ← gen_step slots num_iter choice_temperature step token_indices;
      its ← gen_loop slots num_iter choice_temperature steps
              (it_token_indices it);
      Some (it :: its)
  end.

Definition initial_token_indices (bsz : nat) : list (list Z) :=
  replicate bsz
    (replicate (Z.to_nat unknown_number_in_the_beginning)
       (mask_token_label model)).

(** Everything up to the end of the loop: the passes in order. *)
Definition gen_image_iterations (image : Image) (bsz num_iter : nat)
    (choice_temperature : R) : option (list (Iteration Latent Slots)) :=
  let latent := forward_encoder model image in
  let slots := slot_attention model latent in
  gen_loop slots num_iter choice_temperature (seq 0 num_iter)
    (initial_token_indices bsz).

(** The ids handed to the codec after the loop: [sampled_ids] as the last
    pass left it.  With no pass at all the name is unbound. *)
Definition decoded_ids (its : list (Iteration Latent Slots))
  : option (list (list Z)) :=
  it_sampled_ids <$> last its.

Definition gen_image (image : Image) (bsz num_iter : nat)
    (choice_temperature : R) : option Picture :=
  its ← gen_image_iterations image bsz num_iter choice_temperature;
  sampled_ids ← decoded_ids its;
  Some (vqgan_decode model sampled_ids).

End Generation.

(** Entry (b, i) of a tensor. *)
Definition tget {A} (t : list (list A)) (b i : nat) : option A :=
  row ← t !! b; row !! i.

(** ** The remasking policy as the specification words it

    The perturbation is added to the confidence score itself; the
    masked-count-th smallest perturbed score is the cutoff. *)
Definition spec_perturbed (scores : list (list xreal)) (temperature : R)
    (gumbel : nat → nat → R) : list (list xreal) :=
  timap (λ b i p, xadd p (temperature * gumbel b i)) scores.

Definition spec_remasking (masked_count : Z) (scores : list (list xreal))
    (temperature : R) (gumbel : nat → nat → R) : option (list (list bool)) :=
  mapM (λ row : list xreal,
          cutoff ← sort_row row !! Z.to_nat (masked_count - 1);
          Some ((λ x, xleb x cutoff) <$> row))
       (spec_perturbed scores temperature gumbel).

(** ** The attention normalisation of [forward_decoder]
    ([models_mage_decoder.py])

    [Attention.forward] in evaluation mode ([attn_drop] is the identity):
    the weights of one query are the softmax of its scores, the row maximum
    subtracted first. *)
Definition row_max (l : list R) : R :=
  match l with
  | [] => 0
  | x :: l => foldr Rmax x l
  end.

Definition attention_weights (scores : list R) : list R :=
  softmax ((λ a, a - row_max scores) <$> scores).

(** Scores and weights have shape (B, heads, N, N). *)
Definition attention (scores : list (list (list (list R))))
  : list (list (list (list R))) :=
  (λ item : list (list (list R)),
     (λ head : list (list R), attention_weights <$> head) <$> item) <$> scores.

Definition madd (m1 m2 : list (list R)) : list (list R) :=
  zip_with (zip_with Rplus) m1 m2.

(** [atts.sum(dim=1)] for one batch item: the sum over the heads, of which
    there is at least one ([Attention] divides by [num_heads]). *)
Definition sum_heads (heads : list (list (list R))) : list (list R) :=
  match heads with
  | [] => []
  | h :: hs => foldl madd h hs
  end.

(** The default of the constructor argument [epsilon=1e-8]. *)
Definition epsilon_default : R := 1 / 10 ^ 8.

(** From [atts.sum(dim=1)] to [normalized_atts_slots]. *)
Definition normalized_atts_slots (epsilon : R)
    (atts : list (list (list (list R)))) : list (list (list R)) :=
  let atts := sum_heads <$> atts in
  let atts_slots :=
    (λ m : list (list R), take 7 <$> drop 8 m) <$> atts in
  let atts_slots :=
    (λ m : list (list R), tmap (λ a, a + epsilon) m) <$> atts_slots in
  (λ m : list (list R),
     (λ row : list R, let sums := Rsum row in (λ a, a / sums) <$> row) <$> m)
    <$> atts_slots.

(** ** A small model object and random source to run the loop on

    The decoder answers with zero logits over a vocabulary of 2025 ids for
    the 7 slot positions and every position of the token sequence; latents
    are the token sequences themselves and the slots are summarised by the
    number of rows of the latent they were computed from. *)
Definition toy_model : Model unit (list (list Z)) nat (list (list Z)) :=
  {| mask_token_label := 2024;
     fake_class_label := 1100;
     num_slots := 7;
     forward_encoder := λ _, [];
     slot_attention := λ latent, length latent;
     token_emb := λ token_indices, token_indices;
     blocks := [];
     norm := λ x, x;
     forward_decoder := λ _ _ _ token_all_mask,
       (λ row : list bool,
          replicate (7 + length row) (replicate 2025 0)) <$> token_all_mask;
     vqgan_decode := λ ids, ids |}.

Definition toy_sampler : Sampler.
Proof.
  refine {| categorical := λ _ _ _ _, 0%Z; gumbel := λ _ _ _, 0 |}.
  intros _ _ _ [|x l] Hl; [done | simpl length; lia].
Defined.

(** A model whose decoder reads its slots: the conditioning image is a
    number n, its latent has n rows, the slots are summarised by the number
    of rows of the latent they were computed from, and every logit the
    decoder returns is that number. *)
Definition slot_model : Model nat (list (list Z)) nat (list (list Z)) :=
  {| mask_token_label := 2024;
     fake_class_label := 1100;
     num_slots := 7;
     forward_encoder := λ n, replicate n [];
     slot_attention := λ latent, length latent;
     token_emb := λ token_indices, token_indices;
     blocks := [];
     norm := λ x, x;
     forward_decoder := λ _ slots _ token_all_mask,
       (λ row : list bool,
          replicate (7 + length row) (replicate 2025 (INR slots)))
         <$> token_all_mask;
     vqgan_decode := λ ids, ids |}.

(** A random source whose noise differs from position to position. *)
Definition toy_sampler_ramp : Sampler.
Proof.
  refine {| categorical := λ _ _ _ _, 0%Z; gumbel := λ _ _ i, INR i |}.
  intros _ _ _ [|x l] Hl; [done | simpl length; lia].
Defined.

(** ** Conditions on the state and on the decoder

    The ids a token grid may hold: the mask id or a codebook entry. *)
Definition valid_id (mask_id id : Z) : Prop :=
  id = mask_id ∨ (0 ≤ id < Z.of_nat codebook_size)%Z.

Definition valid_ids (mask_id : Z) (tok : list (list Z)) : Prop :=
  Forall (Forall (valid_id mask_id)) tok.

(** The shape of what [forward_decoder] returns: for a mask of shape (B, n),
    logits of shape (B, num_slots + n, V) with V at least the codebook size
    (in [models_mage_decoder.py] V is the vocabulary size, 2025). *)
Definition decoder_shaped {Image Latent Slots Picture}
    (model : Model Image Latent Slots Picture) : Prop :=
  ∀ x slots drop_mask all_mask,
    Forall2 (λ (mrow : list bool) (lrow : list (list R)),
               length lrow = (num_slots model + length mrow)%nat ∧
               Forall (λ l : list R, (codebook_size ≤ length l)%nat) lrow)
      all_mask (forward_decoder model x slots drop_mask all_mask).

(** ** Kinds of scores

    A probability (the confidence of a position still masked), a confidence
    as [gen_image] builds it (a probability or the sentinel of a resolved
    position), and a score below [+inf]. *)
Definition is_prob (x : xreal) : Prop :=
  match x with
  | XFin p => 0 <= p
  | _ => False
  end.

Definition is_confidence (x : xreal) : Prop :=
  is_prob x ∨ x = CONFIDENCE_OF_KNOWN_TOKENS.

Definition below_inf (x : xreal) : Prop :=
  match x with
  | XFin _ | XNegInf => True
  | _ => False
  end.

Global Instance is_prob_decision (x : xreal) : Decision (is_prob x).
Proof. destruct x; simpl; apply _. Defined.

Global Instance below_inf_decision (x : xreal) : Decision (below_inf x).
Proof. destruct x; simpl; apply _. Defined.

(** ** [models_mage_decoder.py]: the training path

    The methods of [MaskedGenerativeEncoderViT] that [forward] calls, and
    the loss it is trained with.  They live in a module of their own, under
    the names the source gives them. *)
Module MageDecoder.

(** What a call comes to: the value it returns, an exception, or (for the
    [while True] loop) still running when the fuel given to it is spent. *)
Inductive Outcome (A : Type) : Type :=
  | Returned (a : A)
  | Raised
  | Running.
Arguments Returned {_} _.
Arguments Raised {_}.
Arguments Running {_}.

(** *** The random masking of [forward_encoder] *)

(** [torch.rand(bsz, seq_len)]; [rand b i] is the entry (b, i). *)
Definition rand_tensor (bsz seq_len : nat) (rand : nat → nat → R)
  : list (list xreal) :=
  (λ b, (λ i, XFin (rand b i)) <$> seq 0 seq_len) <$> seq 0 bsz.

(** One round of the loop, from the noise to [token_all_mask]. *)
Definition noise_mask (num_masked_tokens : Z) (noise : list (list xreal))
  : option (list (list bool)) :=
  let sorted_noise := sort_row <$> noise in
  let cutoff_mask :=
    (λ s : list xreal, py_slice s (num_masked_tokens - 1) num_masked_tokens)
      <$> sorted_noise in
  mapM (λ p : list xreal * list xreal, le_broadcast p.1 p.2)
       (zip noise cutoff_mask).

(** [token_all_mask.sum()] *)
Definition mask_sum (token_all_mask : list (list bool)) : Z :=
  foldr Z.add 0%Z (count_true <$> token_all_mask).

(** The loop [while True: ... if token_all_mask.sum() == bsz*num_masked_tokens:
    break]; [rand n] is the noise of round [n]. *)
Fixpoint masking_loop (fuel : nat) (bsz seq_len : nat) (num_masked_tokens : Z)
    (rand : nat → nat → nat → R) (round : nat)
  : Outcome (list (list bool)) :=
  match fuel with
  | O => Running
  | S fuel =>
      match noise_mask num_masked_tokens
              (rand_tensor bsz seq_len (rand round)) with
      | None => Raised
      | Some token_all_mask =>
          if decide (mask_sum token_all_mask
                     = (Z.of_nat bsz * num_masked_tokens)%Z)
          then Returned token_all_mask
          else masking_loop fuel bsz seq_len num_masked_tokens rand (S round)
      end
  end.

(** What [forward_encoder] returns. *)
Record Encoded (Latent : Type) : Type := {
  enc_x : Latent;
  enc_gt_indices : list (list Z);
  enc_token_drop_mask : list (list Z);
  enc_token_all_mask : list (list bool)
}.
Arguments enc_x {_} _.
Arguments enc_gt_indices {_} _.
Arguments enc_token_drop_mask {_} _.
Arguments enc_token_all_mask {_} _.

(** [forward_encoder].  [vqgan_tokens image] is the token grid of
    [self.vqgan.encode(x)], reshaped to (B, seq_len); [mask_rate] is the
    draw [self.mask_ratio_generator.rvs(1)[0]].  [token_emb], [blocks],
    [norm] and the class label are those of the model object.  The masks are
    tensors of 0. and 1.: the drop mask is kept as numbers, the mask of
    masked positions as booleans. *)
Definition forward_encoder {Image Latent Slots Picture}
    (model : Model Image Latent Slots Picture)
    (vqgan_tokens : Image → list (list Z))
    (fuel : nat) (mask_rate : R) (rand : nat → nat → nat → R) (x : Image)
  : Outcome (Encoded Latent) :=
  let token_indices := vqgan_tokens x in
  let gt_indices := token_indices in
  let bsz := length token_indices in
  let seq_len := length (default [] (head token_indices)) in
  let token_drop_mask := replicate bsz (replicate seq_len 0%Z) in
  let token_indices :=
    (λ row, fake_class_label model :: row) <$> token_indices in
  let token_drop_mask := (λ row, 0%Z :: row) <$> token_drop_mask in
  let x := encode model token_indices in
  let num_masked_tokens := Zceil (IZR (Z.of_nat seq_len) * mask_rate) in
  match masking_loop fuel bsz seq_len num_masked_tokens rand 0 with
  | Returned token_all_mask =>
      let token_all_mask := (λ row, false :: row) <$> token_all_mask in
      Returned {| enc_x := x; enc_gt_indices := gt_indices;
                  enc_token_drop_mask := token_drop_mask;
                  enc_token_all_mask := token_all_mask |}
  | Raised => Raised
  | Running => Running
  end.

(** *** [LabelSmoothingCrossEntropy] *)

(** [torch.nn.functional.log_softmax(_, dim=-1)] on one row. *)
Definition log_softmax (l : list R) : list R :=
  let s := ln (Rsum (exp <$> l)) in (λ a, a - s) <$> l.

(** [_.mean(dim=-1)] on one row. *)
Definition mean (l : list R) : R := Rsum l / INR (length l).

(** One entry of [-logprobs.gather(dim=-1, index=target.unsqueeze(1))]; a
    target that is no index of the row makes [gather] raise. *)
Definition nll_entry (logprobs : list R) (target : Z) : option R :=
  if decide (0 ≤ target < Z.of_nat (length logprobs))%Z
  then Some (- nth (Z.to_nat target) logprobs 0)
  else None.

(** [f(a, b)] on two vectors, with broadcasting. *)
Definition broadcast2 (f : R → R → R) (a b : list R) : option (list R) :=
  if decide (length a = length b) then Some (zip_with f a b)
  else if decide (length a = 1%nat) then
    Some ((λ y, f (default 0 (head a)) y) <$> b)
  else if decide (length b = 1%nat) then
    Some ((λ x, f x (default 0 (head b))) <$> a)
  else None.

(** [forward] on logits of shape (N, C) and targets of shape (N'); [gather]
    asks for N' <= N and returns N' entries. *)
Definition label_smoothing_cross_entropy (smoothing : R) (x : list (list R))
    (target : list Z) : option (list R) :=
  let confidence := 1 - smoothing in
  let logprobs := log_softmax <$> x in
  if decide (length target ≤ length x)%nat then
    nll_loss ← mapM (λ p : list R * Z, nll_entry p.1 p.2)
                 (zip logprobs target);
    let smooth_loss := (λ l, - mean l) <$> logprobs in
    broadcast2 (λ n s, confidence * n + smoothing * s) nll_loss smooth_loss
  else None.

(** *** [forward_loss] and [forward] *)

(** [t.reshape(n, -1)] and [t.reshape(n, m)] for a tensor whose entries,
    in row-major order, are [flat] (an entry is a number, or a whole row
    where the last axes are kept together). *)
Definition reshape_rows {A} (n : nat) (flat : list A)
  : option (list (list A)) :=
  if decide (n = 0%nat) then None
  else if decide ((length flat mod n)%nat = 0%nat)
       then Some (reshape (replicate n (length flat / n)%nat) flat)
       else None.

Definition reshape_to {A} (n m : nat) (flat : list A)
  : option (list (list A)) :=
  if decide (length flat = (n * m)%nat)
  then Some (reshape (replicate n m) flat)
  else None.

(** [f(a, b)] along one axis, with broadcasting. *)
Definition broadcast_with {A B C} (f : A → B → option C)
    (a : list A) (b : list B) : option (list C) :=
  if decide (length a = length b)
  then mapM (λ p : A * B, f p.1 p.2) (zip a b)
  else match a, b with
       | [x], _ => mapM (f x) b
       | _, [y] => mapM (λ x, f x y) a
       | _, _ => None
       end.

(** [loss * mask] on two matrices, the mask holding 0. and 1. *)
Definition mul_mask (loss : list (list R)) (mask : list (list bool))
  : option (list (list R)) :=
  broadcast_with
    (broadcast_with (λ (l : R) (m : bool), Some (l * (if m then 1 else 0))))
    loss mask.

(** Division of two floats. *)
Definition xdiv (a b : R) : xreal :=
  if decide (b = 0) then
    if decide (a = 0) then XNaN
    else if decide (0 < a) then XPosInf else XNegInf
  else XFin (a / b).

(** [forward_loss]; [n_embed] is [self.codebook_size] and the criterion is
    [LabelSmoothingCrossEntropy(smoothing=0.1)]. *)
Definition forward_loss (n_embed : nat) (gt_indices : list (list Z))
    (logits : list (list (list R))) (mask : list (list bool))
  : option xreal :=
  let bsz := length gt_indices in
  let seq_len := length (default [] (head gt_indices)) in
  let sliced :=
    (λ item : list (list R), take n_embed <$> drop 8 item) <$> logits in
  x ← reshape_rows (bsz * seq_len) (mjoin (mjoin sliced));
  loss ← label_smoothing_cross_entropy (1 / 10) x (mjoin gt_indices);
  loss ← reshape_to bsz seq_len loss;
  let mask1 := (λ row : list bool, drop 1 row) <$> mask in
  prod ← mul_mask loss mask1;
  Some (xdiv (Rsum (mjoin prod)) (IZR (mask_sum mask1))).

(** Of the tuple [forward] returns: the loss, the mask and the logits (the
    images are its input; the two attention maps are not modelled). *)
Record Forwarded : Type := {
  fwd_loss : xreal;
  fwd_token_all_mask : list (list bool);
  fwd_logits : list (list (list R))
}.

Definition forward {Image Latent Slots Picture}
    (model : Model Image Latent Slots Picture)
    (vqgan_tokens : Image → list (list Z)) (n_embed : nat)
    (fuel : nat) (mask_rate : R) (rand : nat → nat → nat → R) (imgs : Image)
  : Outcome Forwarded :=
  match forward_encoder model vqgan_tokens fuel mask_rate rand imgs with
  | Returned enc =>
      let latent := enc_x enc in
      let gt_indices := enc_gt_indices enc in
      let token_drop_mask := enc_token_drop_mask enc in
      let token_all_mask := enc_token_all_mask enc in
      let slots := slot_attention model latent in
      let logits :=
        forward_decoder model latent slots token_drop_mask
          token_all_mask in
      match forward_loss n_embed gt_indices logits token_all_mask with
      | Some loss =>
          Returned {| fwd_loss := loss;
                      fwd_token_all_mask := token_all_mask;
                      fwd_logits := logits |}
      | None => Raised
      end
  | Raised => Raised
  | Running => Running
  end.

(** *** [BertEmbeddings] and the labels of [__init__] *)

Module BertEmbeddings.
Section BertEmbeddings.
Context {V : Type}.
(** The rows of [word_embeddings.weight] and [position_embeddings.weight];
    the sum of two vectors; [LayerNorm] on one vector; [dropout] on the
    vector at position (b, i). *)
Variable word_embeddings : list V.
Variable position_embeddings : list V.
Variable add : V → V → V.
Variable LayerNorm : V → V.
Variable dropout : nat → nat → V → V.

(** [nn.Embedding] on one index: an index outside the table raises. *)
Definition embedding (weight : list V) (id : Z) : option V :=
  if decide (0 ≤ id)%Z then weight !! Z.to_nat id else None.

(** [a + b] along the sequence axis, with broadcasting. *)
Definition add_broadcast (a b : list V) : option (list V) :=
  if decide (length a = length b) then Some (zip_with add a b)
  else match a, b with
       | [x], _ => Some (add x <$> b)
       | _, [y] => Some ((λ x, add x y) <$> a)
       | _, _ => None
       end.

Definition forward (input_ids : list (list Z)) : option (list (list V)) :=
  let seq_length := length (default [] (head input_ids)) in
  let position_ids :=
    take seq_length (seq 0 (length position_embeddings)) in
  inputs_embeds ← mapM (mapM (embedding word_embeddings)) input_ids;
  position_embeddings ←
    mapM (λ i : nat, embedding position_embeddings (Z.of_nat i))
      position_ids;
  embeddings ←
    mapM (λ row : list V, add_broadcast row position_embeddings)
      inputs_embeds;
  let embeddings := tmap LayerNorm embeddings in
  Some (timap dropout embeddings).

End BertEmbeddings.
End BertEmbeddings.

(** *** The input of the decoder blocks

    The first part of [forward_decoder] (and, without the slots, of
    [forward_decoder_generation]): the sequence the decoder blocks are run
    on.  [x] is the latent after [self.decoder_embed]; a vector of the
    decoder width is a value of type [V]. *)
Section decoder_input.
Context {V : Type}.
Variable add : V → V → V.
Variable mask_token : V.
Variable pad_with_cls_token : bool.
Variable decoder_pos_embed_learned : list V.

(** [t.nonzero(as_tuple=True)]: the positions of the entries that are not
    0, in row-major order. *)
Definition nonzero (t : list (list Z)) : list (nat * nat) :=
  mjoin (imap (λ (b : nat) (row : list Z),
                 (λ p : nat * Z, (b, p.1))
                   <$> filter (λ p : nat * Z, p.2 ≠ 0%Z)
                         (imap (λ (j : nat) (d : Z), (j, d)) row))
           t).

(** [t[b, j] = v] *)
Definition put (t : list (list V)) (p : nat * nat) (v : V)
  : list (list V) :=
  match t !! p.1 with
  | Some row => <[p.1 := <[p.2 := v]> row]> t
  | None => t
  end.

(** [t[idx] = values] for an index tuple: the positions take the rows of
    [values] in order; a position outside [t] raises, and so does a number
    of rows that is neither the number of positions nor 1. *)
Definition index_put (t : list (list V)) (idx : list (nat * nat))
    (values : list V) : option (list (list V)) :=
  if decide (Forall (λ p : nat * nat, is_Some (tget t p.1 p.2)) idx) then
    if decide (length values = length idx) then
      Some (foldl (λ (t : list (list V)) (pv : (nat * nat) * V),
                     put t pv.1 pv.2) t (zip idx values))
    else match values with
         | [v] => Some (foldl (λ (t : list (list V)) (p : nat * nat),
                                 put t p v) t idx)
         | _ => None
         end
  else None.

Definition forward_decoder_input (x : list (list V)) (slots : list (list V))
    (token_drop_mask : list (list Z)) (token_all_mask : list (list bool))
  : option (list (list V)) :=
  let mask_tokens :=
    if pad_with_cls_token
    then (λ item : list V,
            mjoin (replicate (length (default [] (head token_all_mask)))
                     (take 1 item))) <$> x
    else replicate (length token_all_mask)
           (replicate (length (default [] (head token_all_mask)))
              mask_token) in
  let x_after_pad := mask_tokens in
  x_after_pad ←
    index_put x_after_pad
      (nonzero (tmap (λ d : Z, (1 - d)%Z) token_drop_mask)) (mjoin x);
  x_after_pad ← where_ token_all_mask mask_tokens x_after_pad;
  x ← mapM (λ row : list V,
              BertEmbeddings.add_broadcast add row decoder_pos_embed_learned)
        x_after_pad;
  if decide (length slots = length x)
  then Some (zip_with app slots x)
  else None.

End decoder_input.

(** What [__init__] derives from the codebook size [n_embed]. *)
Definition vocab_size (n_embed : Z) : Z := n_embed + 1000 + 1.
Definition fake_class_label (n_embed : Z) : Z := n_embed + 1100 - 1024.
Definition mask_token_label (n_embed : Z) : Z := vocab_size n_embed - 1.
Definition max_position_embeddings : nat := 256 + 1.

End MageDecoder.

(** ** The names of the image files ([gen_img_cond.py])

    [gen_image] saves an image per batch item and step in its two blocks
    [with_mask_vis] and [per_iter], and the script saves the final images,
    all in [save_folder], under ['{}.png'.format(str(n).zfill(5))] for a
    number n that is not negative. *)
Module FileNames.
Import Stdlib.Strings.String Stdlib.Strings.Ascii.
Import Stdlib.Numbers.DecimalString Stdlib.Numbers.DecimalN.
Local Open Scope string_scope.
Local Open Scope N_scope.

(** [str(n)] *)
Definition py_str (n : N) : string := NilZero.string_of_uint (N.to_uint n).

Fixpoint zeros (k : nat) : string :=
  match k with
  | O => ""
  | S k => String "0" (zeros k)
  end.

(** [s.zfill(width)] for a string of digits. *)
Definition zfill (width : nat) (s : string) : string :=
  zeros (width - String.length s) ++ s.

Definition png_name (n : N) : string := zfill 5 (py_str n) ++ ".png".

(** The names the block [with_mask_vis], the block [per_iter] and the
    script give the image of batch item [b_id]. *)
Definition mask_vis_name (b_id step : N) : string :=
  png_name (b_id + 100 * step).

Definition per_iter_name (b_id step : N) : string :=
  png_name (b_id + 1000000 * step).

Definition final_name (b_id : N) : string := png_name b_id.

End FileNames.

(** * Properties *)

(** ** The order of the sort *)

Global Instance sort_le_total : Total sort_le.
Proof.
  intros [| |a|] [| |b|]; simpl; auto.
  destruct (Rle_lt_dec a b); [left | right]; lra.
Qed.

Global Instance sort_le_trans : Transitive sort_le.
Proof. intros [| |a|] [| |b|] [| |c|]; simpl; try tauto; lra. Qed.

Global Instance sort_le_antisymm : AntiSymm (=) sort_le.
Proof.
  intros [| |a|] [| |b|]; simpl; try tauto.
  intros ? ?. f_equal. lra.
Qed.

Lemma sort_row_sorted row : StronglySorted sort_le (sort_row row).
Proof. apply StronglySorted_merge_sort; apply _. Qed.

Lemma sort_row_perm row : sort_row row ≡ₚ row.
Proof. apply merge_sort_Permutation. Qed.

Lemma sort_row_length row : length (sort_row row) = length row.
Proof. apply Permutation_length, sort_row_perm. Qed.

Lemma sort_row_elem row k c : sort_row row !! k = Some c → c ∈ row.
Proof.
  intros H. rewrite <- (sort_row_perm row). by eapply list_elem_of_lookup_2.
Qed.

(** A sorted permutation is the sort. *)
Lemma sort_row_unique row l :
  StronglySorted sort_le l → l ≡ₚ row → l = sort_row row.
Proof.
  intros Hs Hp. apply (StronglySorted_unique sort_le); [done | |].
  - apply sort_row_sorted.
  - by rewrite sort_row_perm.
Qed.

Lemma xleb_true x y : xleb x y = true ↔ xle x y.
Proof. unfold xleb. apply bool_decide_eq_true. Qed.

Lemma xle_refl x : x ≠ XNaN → xle x x.
Proof. destruct x; simpl; intros; first [done | lra]. Qed.

(** ** Shapes and entries *)

Section tensors.
Context {A B C : Type}.
Implicit Types (s : list (list A)) (t : list (list B)).

Lemma dims_tmap (f : A → B) s : dims (tmap f s) = dims s.
Proof.
  unfold dims, tmap. rewrite <- list_fmap_compose. apply list_fmap_ext.
  intros _ row _. simpl. apply length_fmap.
Qed.

Lemma dims_timap (f : nat → nat → A → B) s : dims (timap f s) = dims s.
Proof.
  unfold dims, timap. rewrite fmap_imap. apply list_eq. intros b.
  rewrite list_lookup_imap, list_lookup_fmap.
  destruct (s !! b); simpl; [|done]. by rewrite length_imap.
Qed.

Lemma dims_length s : length (dims s) = length s.
Proof. apply length_fmap. Qed.

Lemma dims_zip s t : dims s = dims t → dims (zip_with zip s t) = dims s.
Proof.
  intros H. apply list_eq. intros b.
  pose proof (f_equal (.!! b) H) as Hb. simpl in Hb.
  unfold dims in *. rewrite !list_lookup_fmap in Hb.
  rewrite !list_lookup_fmap, lookup_zip_with.
  destruct (s !! b) as [r1|], (t !! b) as [r2|]; simplify_eq/=; [|done].
  f_equal. rewrite length_zip_with. lia.
Qed.

Lemma tget_tmap (f : A → B) s b i : tget (tmap f s) b i = f <$> tget s b i.
Proof.
  unfold tget, tmap. rewrite list_lookup_fmap.
  destruct (s !! b); simpl; [|done]. apply list_lookup_fmap.
Qed.

Lemma tget_timap (f : nat → nat → A → B) s b i :
  tget (timap f s) b i = f b i <$> tget s b i.
Proof.
  unfold tget, timap. rewrite list_lookup_imap.
  destruct (s !! b); simpl; [|done]. apply list_lookup_imap.
Qed.

Lemma tget_zip s t b i :
  tget (zip_with zip s t) b i
  = x ← tget s b i; y ← tget t b i; Some (x, y).
Proof.
  unfold tget. rewrite lookup_zip_with.
  destruct (s !! b) as [r1|]; simpl; [|done].
  destruct (t !! b) as [r2|]; simpl.
  - rewrite lookup_zip_with. by destruct (r1 !! i).
  - by destruct (r1 !! i).
Qed.

Lemma tget_dims s t b i :
  dims s = dims t → is_Some (tget s b i) → is_Some (tget t b i).
Proof.
  intros H. pose proof (f_equal (.!! b) H) as Hb. simpl in Hb.
  unfold dims in Hb. rewrite !list_lookup_fmap in Hb. unfold tget.
  destruct (s !! b) as [r1|], (t !! b) as [r2|]; simplify_eq/=;
    try by intros [? ?].
  rewrite !lookup_lt_is_Some. lia.
Qed.

Lemma tzip_Some s t r :
  tzip s t = Some r ↔ dims s = dims t ∧ r = zip_with zip s t.
Proof.
  unfold tzip. case_decide; split.
  - intros [= <-]. done.
  - intros [_ ->]. done.
  - done.
  - intros [? _]. done.
Qed.

Lemma tzip_dims s t : dims s = dims t → tzip s t = Some (zip_with zip s t).
Proof. intros. by apply tzip_Some. Qed.
End tensors.

Lemma tensor_eq {A} (s t : list (list A)) :
  dims s = dims t → (∀ b i, tget s b i = tget t b i) → s = t.
Proof.
  intros Hd H. apply list_eq. intros b.
  pose proof (f_equal (.!! b) Hd) as Hb. simpl in Hb.
  unfold dims in Hb. rewrite !list_lookup_fmap in Hb.
  destruct (s !! b) as [r1|] eqn:E1, (t !! b) as [r2|] eqn:E2;
    simplify_eq/=; [|done].
  f_equal. apply list_eq. intros i. specialize (H b i).
  unfold tget in H. by rewrite E1, E2 in H.
Qed.

(** ** [torch.where] *)

Section where_props.
Context {A : Type}.
Implicit Types (cond : list (list bool)) (a b r : list (list A)).

Lemma where_Some cond a b r :
  where_ cond a b = Some r →
  dims cond = dims a ∧ dims a = dims b ∧ dims r = dims b ∧
  ∀ n i, tget r n i
         = c ← tget cond n i; x ← tget a n i; y ← tget b n i;
           Some (if c : bool then x else y).
Proof.
  unfold where_. intros H.
  destruct (tzip a b) as [ab|] eqn:Eab; simplify_eq/=.
  destruct (tzip cond ab) as [cab|] eqn:Ec; simplify_eq/=.
  apply tzip_Some in Eab as [Hab ->]. apply tzip_Some in Ec as [Hc ->].
  rewrite dims_zip in Hc by done.
  split_and!; [done..| |].
  - rewrite dims_tmap, dims_zip by (by rewrite dims_zip). congruence.
  - intros n i. rewrite tget_tmap, !tget_zip.
    destruct (tget cond n i), (tget a n i), (tget b n i); done.
Qed.

Lemma where_is_Some cond a b :
  dims cond = dims a → dims a = dims b → is_Some (where_ cond a b).
Proof.
  intros H1 H2. unfold where_. rewrite (tzip_dims a b) by done. simpl.
  rewrite tzip_dims by (by rewrite dims_zip). by eexists.
Qed.

Lemma where_r_Some cond a (c : A) r :
  where_r cond a c = Some r →
  dims cond = dims a ∧ dims r = dims a ∧
  ∀ n i, tget r n i
         = k ← tget cond n i; x ← tget a n i;
           Some (if k : bool then x else c).
Proof.
  unfold where_r. intros H.
  destruct (tzip cond a) as [ca|] eqn:Eca; simplify_eq/=.
  apply tzip_Some in Eca as [Hca ->]. split_and!; [done| |].
  - rewrite dims_tmap, dims_zip; congruence.
  - intros n i. rewrite tget_tmap, !tget_zip.
    destruct (tget cond n i), (tget a n i); done.
Qed.

Lemma where_r_is_Some cond a (c : A) :
  dims cond = dims a → is_Some (where_r cond a c).
Proof. intros H. unfold where_r. rewrite tzip_dims by done. by eexists. Qed.

Lemma where_l_Some cond (c : A) b r :
  where_l cond c b = Some r →
  dims cond = dims b ∧ dims r = dims b ∧
  ∀ n i, tget r n i
         = k ← tget cond n i; y ← tget b n i;
           Some (if k : bool then c else y).
Proof.
  unfold where_l. intros H.
  destruct (tzip cond b) as [cb|] eqn:Ecb; simplify_eq/=.
  apply tzip_Some in Ecb as [Hcb ->]. split_and!; [done| |].
  - rewrite dims_tmap, dims_zip; congruence.
  - intros n i. rewrite tget_tmap, !tget_zip.
    destruct (tget cond n i), (tget b n i); done.
Qed.

Lemma where_l_is_Some cond (c : A) b :
  dims cond = dims b → is_Some (where_l cond c b).
Proof. intros H. unfold where_l. rewrite tzip_dims by done. by eexists. Qed.
End where_props.

(** ** The cosine schedule and the target count *)

Lemma masked_count_ge_1 L num_iter step unknown :
  (1 ≤ masked_count L num_iter step unknown)%Z.
Proof. unfold masked_count. lia. Qed.

Lemma masked_count_le_max L num_iter step unknown :
  (masked_count L num_iter step unknown ≤ Z.max 1 (unknown - 1))%Z.
Proof. unfold masked_count. lia. Qed.

Lemma masked_count_resolved L num_iter step unknown :
  (unknown ≤ 1)%Z → masked_count L num_iter step unknown = 1%Z.
Proof. unfold masked_count. lia. Qed.

Lemma sqrt2_bounds : 1 < sqrt 2 < 3 / 2.
Proof.
  pose proof (sqrt_sqrt 2 ltac:(lra)) as H.
  pose proof (sqrt_pos 2) as Hp. split; nra.
Qed.

Lemma cos_PI4_bounds : 2 <= 4 * cos (PI / 4) < 3.
Proof.
  rewrite cos_PI4.
  pose proof (sqrt_sqrt 2 ltac:(lra)) as H.
  pose proof sqrt2_bounds as [H1 H2].
  replace (4 * (1 / sqrt 2)) with (2 * sqrt 2).
  - lra.
  - apply (Rmult_eq_reg_r (sqrt 2)); [|lra]. field_simplify; lra.
Qed.

Lemma ratio_half : ratio 2 0 = 1 / 2.
Proof. unfold ratio. simpl. lra. Qed.

Lemma ratio_last num_iter :
  (0 < num_iter)%nat → ratio num_iter (num_iter - 1) = 1.
Proof.
  intros H. unfold ratio. replace (num_iter - 1 + 1)%nat with num_iter by lia.
  field. apply not_0_INR. lia.
Qed.

Lemma mask_ratio_last num_iter :
  (0 < num_iter)%nat → mask_ratio num_iter (num_iter - 1) = 0.
Proof.
  intros H. unfold mask_ratio. rewrite ratio_last by done.
  rewrite Rmult_1_r. apply cos_PI2.
Qed.

(** ** One pass of the loop, taken apart *)

Section step_props.
Context {Image Latent Slots Picture : Type}.
Variable model : Model Image Latent Slots Picture.
Variable rnd : Sampler.

Local Abbreviation mask_id := (mask_token_label model).
Local Abbreviation with_class tok :=
  ((λ row : list Z, fake_class_label model :: row) <$> tok).

Lemma gen_step_inv slots num_iter ct step tok it :
  gen_step model rnd slots num_iter ct step tok = Some it →
  it_cur_ids it = tok ∧
  it_x it = encode model (with_class tok) ∧
  it_slots it = slots ∧
  it_logits it
    = ((λ row, take codebook_size <$> drop (num_slots model + 1) row)
         <$> forward_decoder model (it_x it) slots
               (tmap (λ _ : Z, 0%Z) (with_class tok))
               (tmap (is_mask model) (with_class tok))) ∧
  sample rnd step (it_logits it) = Some (it_drawn_ids it) ∧
  where_ (tmap (is_mask model) tok) (it_drawn_ids it) tok
    = Some (it_sampled_ids it) ∧
  (∃ sp, gather (tmap softmax (it_logits it)) (it_sampled_ids it) = Some sp ∧
         where_r (tmap (is_mask model) tok) (tmap XFin sp)
           CONFIDENCE_OF_KNOWN_TOKENS = Some (it_selected_probs it)) ∧
  (∃ row0, tok !! 0%nat = Some row0 ∧
           it_mask_len it
           = masked_count unknown_number_in_the_beginning num_iter step
               (count_true (is_mask model <$> row0))) ∧
  it_temperature it = ct * (1 - ratio num_iter step) ∧
  mask_by_random_topk (it_mask_len it) (it_selected_probs it)
    (it_temperature it) (gumbel rnd step) = Some (it_masking it) ∧
  where_l (it_masking it) mask_id (it_sampled_ids it)
    = Some (it_token_indices it).
Proof.
  unfold gen_step. intros H.
  destruct (sample rnd step _) as [drawn|] eqn:E1; simplify_eq/=.
  destruct (where_ _ drawn tok) as [merged|] eqn:E2; simplify_eq/=.
  destruct (gather _ merged) as [sp|] eqn:E3; simplify_eq/=.
  destruct (where_r _ (tmap XFin sp) _) as [sel|] eqn:E4; simplify_eq/=.
  rewrite list_lookup_fmap in H.
  destruct (tmap (is_mask model) tok !! 0%nat) as [mrow|] eqn:E5;
    simplify_eq/=.
  destruct (mask_by_random_topk _ sel _ _) as [masking|] eqn:E6;
    simplify_eq/=.
  destruct (where_l masking _ merged) as [tok'|] eqn:E7; simplify_eq/=.
  split_and!; try done.
  - by exists sp.
  - unfold tmap in E5. rewrite list_lookup_fmap in E5.
    destruct (tok !! 0%nat) as [row0|]; simplify_eq/=. by exists row0.
Qed.
End step_props.

(** ** Claims on the target count *)

(** C9.  The target-count formula at L = 4 and T = 2: in the first pass
    the ratio is 1/2, floor(4 cos(pi/4)) is 2 and from 4 masked positions
    the target is max(1, min(3, 2)) = 2; in the second pass the ratio is 1,
    the mask ratio cos(pi/2) is 0 and from 2 masked positions the target is
    max(1, min(1, 0)) = 1. *)
Theorem masked_count_toy_grid :
  ratio 2 0 = 1 / 2 ∧
  Zfloor (4 * cos (PI / 4)) = 2%Z ∧
  masked_count 4 2 0 4 = Z.max 1 (Z.min 3 (Zfloor (4 * cos (PI / 4)))) ∧
  masked_count 4 2 0 4 = 2%Z ∧
  ratio 2 1 = 1 ∧
  mask_ratio 2 1 = 0 ∧
  masked_count 4 2 1 2 = Z.max 1 (Z.min 1 0) ∧
  masked_count 4 2 1 2 = 1%Z.
Proof.
  pose proof (ratio_last 2 ltac:(lia)) as Hr.
  pose proof (mask_ratio_last 2 ltac:(lia)) as Hm.
  change (2 - 1)%nat with 1%nat in Hr, Hm.
  assert (Hfl : Zfloor (4 * cos (PI / 4)) = 2%Z).
  { apply Zfloor_eq. pose proof cos_PI4_bounds. simpl. lra. }
  assert (H0 : masked_count 4 2 0 4
               = Z.max 1 (Z.min 3 (Zfloor (4 * cos (PI / 4))))).
  { unfold masked_count, mask_ratio. rewrite ratio_half.
    replace (PI / 2 * (1 / 2)) with (PI / 4) by lra. done. }
  assert (H1 : masked_count 4 2 1 2 = Z.max 1 (Z.min 1 0)).
  { unfold masked_count. rewrite Hm, Rmult_0_r. by rewrite (ZfloorZ 0). }
  split_and!; try done.
  - apply ratio_half.
  - rewrite H0, Hfl. done.
Qed.

(** ** The remasking policy, row by row *)

Lemma cut_off_row_in k (sorted : list xreal) :
  (1 ≤ k ≤ Z.of_nat (length sorted))%Z →
  ∃ c, sorted !! Z.to_nat (k - 1) = Some c ∧ cut_off_row k sorted = [c].
Proof.
  intros Hk. unfold cut_off_row, py_slice, slice_bound.
  destruct (Z.ltb_spec (k - 1) 0); [lia|].
  destruct (Z.ltb_spec k 0); [lia|].
  rewrite (Z.min_l (k - 1)), (Z.min_l k) by lia.
  replace (k - (k - 1))%Z with 1%Z by lia.
  destruct (lookup_lt_is_Some_2 sorted (Z.to_nat (k - 1))) as [c Hc]; [lia|].
  exists c. split; [done|].
  change (Z.to_nat 1) with 1%nat.
  rewrite (drop_S _ _ _ Hc). simpl. by rewrite take_0.
Qed.

Lemma le_broadcast_cut row c :
  le_broadcast row [c] = Some ((λ x, xleb x c) <$> row).
Proof. unfold le_broadcast. by rewrite decide_True. Qed.

Lemma mask_by_random_topk_rows k probs temp g m :
  mask_by_random_topk k probs temp g = Some m ↔
  Forall2 (λ conf mrow,
             le_broadcast conf (cut_off_row k (sort_row conf)) = Some mrow)
    (perturbed probs temp g) m.
Proof.
  unfold mask_by_random_topk. rewrite mapM_Some.
  rewrite <- list_fmap_compose.
  generalize (perturbed probs temp g). intros confs.
  revert m. induction confs as [|conf confs IH]; intros m; simpl.
  - split; inversion 1; constructor.
  - split; inversion 1; simplify_eq/=; constructor; try done; by apply IH.
Qed.

Lemma perturbed_lookup probs temp g b :
  perturbed probs temp g !! b
  = (λ row, imap (λ i p, xadd (xlog p) (temp * g b i)) row) <$> probs !! b.
Proof. unfold perturbed, timap. by rewrite list_lookup_imap. Qed.

Lemma perturbed_dims probs temp g : dims (perturbed probs temp g) = dims probs.
Proof. apply dims_timap. Qed.

Lemma tget_perturbed probs temp g b i :
  tget (perturbed probs temp g) b i
  = (λ p, xadd (xlog p) (temp * g b i)) <$> tget probs b i.
Proof. apply tget_timap. Qed.

(** With a target count between 1 and the row length, the cut-off is the
    entry of rank [k] of the sorted row and the row of the result compares
    every perturbed score with it. *)
Lemma mask_by_random_topk_row k probs temp g m b conf :
  mask_by_random_topk k probs temp g = Some m →
  perturbed probs temp g !! b = Some conf →
  (1 ≤ k ≤ Z.of_nat (length conf))%Z →
  ∃ c, sort_row conf !! Z.to_nat (k - 1) = Some c ∧
       m !! b = Some ((λ x, xleb x c) <$> conf).
Proof.
  intros Hm Hconf Hk. apply mask_by_random_topk_rows in Hm.
  destruct (Forall2_lookup_l _ _ _ _ _ Hm Hconf) as (mrow & Hmrow & Hle).
  destruct (cut_off_row_in k (sort_row conf)) as (c & Hc & Hcut).
  { by rewrite sort_row_length. }
  rewrite Hcut, le_broadcast_cut in Hle. exists c. by simplify_eq.
Qed.

Lemma mask_by_random_topk_is_Some k probs temp g :
  Forall (λ row : list xreal, (1 ≤ k ≤ Z.of_nat (length row))%Z) probs →
  ∃ m, mask_by_random_topk k probs temp g = Some m ∧ dims m = dims probs.
Proof.
  intros Hall.
  assert (Hc : Forall (λ conf : list xreal,
                         (1 ≤ k ≤ Z.of_nat (length conf))%Z)
                 (perturbed probs temp g)).
  { apply Forall_lookup. intros b conf Hb. rewrite perturbed_lookup in Hb.
    destruct (probs !! b) as [row|] eqn:E; simplify_eq/=.
    rewrite length_imap. by eapply (proj1 (Forall_lookup _ _) Hall). }
  exists ((λ conf, (λ x, xleb x (default XNaN (sort_row conf !! Z.to_nat (k - 1))))
                     <$> conf) <$> perturbed probs temp g).
  split.
  - apply mask_by_random_topk_rows. apply Forall2_fmap_r, Forall_Forall2_diag.
    eapply Forall_impl; [exact Hc|]. intros conf Hk. simpl.
    destruct (cut_off_row_in k (sort_row conf)) as (c & Hcl & Hcut).
    { by rewrite sort_row_length. }
    by rewrite Hcut, le_broadcast_cut, Hcl.
  - rewrite <- (perturbed_dims probs temp g). unfold dims.
    rewrite <- list_fmap_compose. apply list_fmap_ext. intros _ conf _. simpl.
    apply length_fmap.
Qed.

(** ** Entries of the values of one pass *)

Lemma tForall_tget {A} (P : A → Prop) (t : list (list A)) :
  Forall (Forall P) t ↔ ∀ b i x, tget t b i = Some x → P x.
Proof.
  rewrite Forall_lookup. unfold tget. split.
  - intros H b i x Hx. destruct (t !! b) as [row|] eqn:E; simplify_eq/=.
    specialize (H b row E). rewrite Forall_lookup in H. by eapply H.
  - intros H b row E. apply Forall_lookup. intros i x Hx.
    apply (H b i x). by rewrite E.
Qed.

Lemma sample_Some rnd step logits drawn :
  sample rnd step logits = Some drawn →
  dims drawn = dims logits ∧
  ∀ b i l, tget logits b i = Some l →
    l ≠ [] ∧ tget drawn b i = Some (categorical rnd step b i l).
Proof.
  unfold sample. case_decide as Hne; [|done]. intros [= <-].
  split; [apply dims_timap|]. intros b i l Hl. split.
  - by eapply (proj1 (tForall_tget _ _) Hne).
  - by rewrite tget_timap, Hl.
Qed.

Lemma gather_Some probs index r :
  gather probs index = Some r →
  dims probs = dims index ∧ dims r = dims index ∧
  ∀ b i l id, tget probs b i = Some l → tget index b i = Some id →
    (0 ≤ id < Z.of_nat (length l))%Z ∧
    tget r b i = Some (nth (Z.to_nat id) l 0).
Proof.
  unfold gather. intros H.
  destruct (tzip probs index) as [pi|] eqn:E; simplify_eq/=.
  apply tzip_Some in E as [Hd ->]. case_decide as Hr; simplify_eq/=.
  split_and!; [done| |].
  - rewrite dims_tmap, dims_zip by done. done.
  - intros b i l id Hl Hid. split.
    + apply (proj1 (tForall_tget _ _) Hr b i (l, id)).
      by rewrite tget_zip, Hl, Hid.
    + by rewrite tget_tmap, tget_zip, Hl, Hid.
Qed.

Lemma softmax_length l : length (softmax l) = length l.
Proof. unfold softmax. apply length_fmap. Qed.

Section step_entries.
Context {Image Latent Slots Picture : Type}.
Variable model : Model Image Latent Slots Picture.
Variable rnd : Sampler.

Lemma is_mask_true id : is_mask model id = true ↔ id = mask_token_label model.
Proof. unfold is_mask. apply bool_decide_eq_true. Qed.

Lemma is_mask_false id : is_mask model id = false ↔ id ≠ mask_token_label model.
Proof. unfold is_mask. apply bool_decide_eq_false. Qed.

Lemma gen_step_dims slots num_iter ct step tok it :
  gen_step model rnd slots num_iter ct step tok = Some it →
  dims (it_logits it) = dims tok ∧
  dims (it_drawn_ids it) = dims tok ∧
  dims (it_sampled_ids it) = dims tok ∧
  dims (it_selected_probs it) = dims tok ∧
  dims (it_masking it) = dims tok ∧
  dims (it_token_indices it) = dims tok.
Proof.
  intros H. apply gen_step_inv in H
    as (_ & _ & _ & _ & Hs & Hw & (sp & Hg & Hr) & _ & _ & _ & Hl).
  apply sample_Some in Hs as [Hs _].
  apply where_Some in Hw as (Hw1 & Hw2 & Hw3 & _).
  apply gather_Some in Hg as (Hg1 & Hg2 & _).
  apply where_r_Some in Hr as (Hr1 & Hr2 & _).
  apply where_l_Some in Hl as (Hl1 & Hl2 & _).
  rewrite dims_tmap in *. split_and!; congruence.
Qed.

(** Every position of the grid, through one pass. *)
Lemma gen_step_entry slots num_iter ct step tok it b i id :
  gen_step model rnd slots num_iter ct step tok = Some it →
  tget tok b i = Some id →
  ∃ l drawn merged mk,
    tget (it_logits it) b i = Some l ∧
    l ≠ [] ∧ (length l ≤ codebook_size)%nat ∧
    drawn = categorical rnd step b i l ∧
    tget (it_drawn_ids it) b i = Some drawn ∧
    merged = (if is_mask model id then drawn else id) ∧
    tget (it_sampled_ids it) b i = Some merged ∧
    (0 ≤ merged < Z.of_nat (length l))%Z ∧
    tget (it_selected_probs it) b i
      = Some (if is_mask model id
              then XFin (nth (Z.to_nat merged) (softmax l) 0)
              else CONFIDENCE_OF_KNOWN_TOKENS) ∧
    tget (it_masking it) b i = Some mk ∧
    tget (it_token_indices it) b i
      = Some (if mk : bool then mask_token_label model else merged).
Proof.
  intros H Hid. pose proof (gen_step_dims _ _ _ _ _ _ H)
    as (Dl & Dd & Ds & Dp & Dm & Dt).
  apply gen_step_inv in H
    as (_ & _ & _ & Hlog & Hs & Hw & (sp & Hg & Hr) & _ & _ & _ & Hl).
  destruct (tget_dims tok (it_logits it) b i) as [l El]; [done|by eexists|].
  destruct (tget_dims tok (it_masking it) b i) as [mk Emk];
    [done|by eexists|].
  apply sample_Some in Hs as [_ Hs]. destruct (Hs b i l El) as [Hne Hdrawn].
  apply where_Some in Hw as (_ & _ & _ & Hw). specialize (Hw b i).
  rewrite tget_tmap, Hid, Hdrawn in Hw. simpl in Hw.
  apply gather_Some in Hg as (_ & _ & Hg).
  destruct (Hg b i (softmax l) _ ltac:(by rewrite tget_tmap, El) Hw)
    as [Hrange Hsp].
  rewrite softmax_length in Hrange.
  apply where_r_Some in Hr as (_ & _ & Hr). specialize (Hr b i).
  rewrite !tget_tmap, Hid, Hsp in Hr. simpl in Hr.
  apply where_l_Some in Hl as (_ & _ & Hl). specialize (Hl b i).
  rewrite Emk, Hw in Hl. simpl in Hl.
  assert (length l ≤ codebook_size)%nat as Hlen.
  { clear -Hlog El. rewrite Hlog in El. unfold tget in El.
    rewrite list_lookup_fmap in El.
    destruct (forward_decoder _ _ _ _ _ !! b) as [lrow|]; simplify_eq/=.
    rewrite list_lookup_fmap in El.
    destruct (drop _ lrow !! i) as [l0|]; simplify_eq/=.
    rewrite length_take. lia. }
  eexists l, _, _, mk. split_and!; try done; lia.
Qed.
End step_entries.

(** ** One pass succeeds on a well-shaped state *)

Lemma sample_is_Some rnd step logits :
  Forall (Forall (λ l : list R, l ≠ [])) logits →
  is_Some (sample rnd step logits).
Proof. intros H. unfold sample. rewrite decide_True by done. by eexists. Qed.

Lemma gather_is_Some probs index :
  dims probs = dims index →
  (∀ b i l id, tget probs b i = Some l → tget index b i = Some id →
     (0 ≤ id < Z.of_nat (length l))%Z) →
  is_Some (gather probs index).
Proof.
  intros Hd H. unfold gather. rewrite tzip_dims by done. simpl.
  rewrite decide_True; [by eexists|].
  apply tForall_tget. intros b i [l id] Hx. rewrite tget_zip in Hx.
  destruct (tget probs b i) as [l'|] eqn:E1; simplify_eq/=.
  destruct (tget index b i) as [id'|] eqn:E2; simplify_eq/=.
  by apply (H b i).
Qed.

Lemma count_true_bounds row : (0 ≤ count_true row ≤ Z.of_nat (length row))%Z.
Proof.
  unfold count_true.
  pose proof (length_filter (λ b : bool, b = true) row). lia.
Qed.

Lemma dims_replicate_lookup {A} (t : list (list A)) B L b row :
  dims t = replicate B L → t !! b = Some row → length row = L.
Proof.
  intros Hd Hb. pose proof (f_equal (.!! b) Hd) as H. simpl in H.
  unfold dims in H. rewrite list_lookup_fmap, Hb in H. simpl in H.
  symmetry in H. apply lookup_replicate in H as [? _]. done.
Qed.

Lemma dims_replicate_head {A} (t : list (list A)) B L :
  dims t = replicate B L → (0 < B)%nat → is_Some (t !! 0%nat).
Proof.
  intros Hd HB. apply lookup_lt_is_Some. rewrite <- dims_length, Hd.
  by rewrite length_replicate.
Qed.

Section step_total.
Context {Image Latent Slots Picture : Type}.
Variable model : Model Image Latent Slots Picture.
Variable rnd : Sampler.
Hypothesis Hdec : decoder_shaped model.

Lemma sliced_logits_shape x slots (tok : list (list Z)) :
  let tok' := (λ row : list Z, fake_class_label model :: row) <$> tok in
  let logits :=
    (λ row, take codebook_size <$> drop (num_slots model + 1) row)
      <$> forward_decoder model x slots (tmap (λ _ : Z, 0%Z) tok')
            (tmap (is_mask model) tok') in
  dims logits = dims tok ∧
  Forall (Forall (λ l : list R, length l = codebook_size)) logits.
Proof.
  intros tok' logits.
  pose proof (Hdec x slots (tmap (λ _ : Z, 0%Z) tok')
                (tmap (is_mask model) tok')) as H.
  split.
  - apply list_eq. intros b. unfold dims, logits.
    rewrite !list_lookup_fmap.
    destruct (tok !! b) as [row|] eqn:E; simpl.
    + destruct (Forall2_lookup_l _ _ _ b (is_mask model <$> (fake_class_label model :: row)) H)
        as (lrow & -> & Hlen & _).
      { unfold tmap, tok'. by rewrite !list_lookup_fmap, E. }
      simpl. f_equal. rewrite length_fmap, length_drop, Hlen.
      rewrite length_fmap. simpl. lia.
    + destruct (forward_decoder _ _ _ _ _ !! b) as [lrow|] eqn:E'; [|done].
      destruct (Forall2_lookup_r _ _ _ b lrow H E') as (mrow & Hm & _).
      unfold tmap, tok' in Hm. rewrite !list_lookup_fmap, E in Hm. done.
  - apply Forall_lookup. intros b lrow' Hb. unfold logits in Hb.
    rewrite list_lookup_fmap in Hb.
    destruct (forward_decoder _ _ _ _ _ !! b) as [lrow|] eqn:E';
      simplify_eq/=.
    destruct (Forall2_lookup_r _ _ _ b lrow H E') as (mrow & _ & _ & Hall).
    apply Forall_fmap, Forall_drop. eapply Forall_impl; [exact Hall|].
    intros l Hl. unfold compose. cbv beta in *. rewrite length_take. lia.
Qed.

Lemma gen_step_is_Some slots num_iter ct step tok B L :
  dims tok = replicate B L → (0 < B)%nat → (0 < L)%nat →
  valid_ids (mask_token_label model) tok →
  is_Some (gen_step model rnd slots num_iter ct step tok).
Proof.
  intros Hd HB HL Hvalid. unfold gen_step.
  set (tok' := (λ row : list Z, fake_class_label model :: row) <$> tok).
  destruct (sliced_logits_shape (encode model tok') slots tok)
    as [Dlog Hlog].
  fold tok' in Dlog, Hlog.
  set (logits := (λ row, take codebook_size <$> drop (num_slots model + 1) row)
                   <$> _) in *.
  destruct (sample_is_Some rnd step logits) as [drawn Es].
  { apply tForall_tget. intros b i l Hl.
    apply (proj1 (tForall_tget _ _) Hlog) in Hl. intros ->. done. }
  rewrite Es. simpl.
  pose proof (sample_Some _ _ _ _ Es) as [Dd Hdrawn].
  destruct (where_is_Some (tmap (is_mask model) tok) drawn tok)
    as [merged Ew].
  { rewrite dims_tmap. congruence. }
  { congruence. }
  rewrite Ew. simpl.
  pose proof (where_Some _ _ _ _ Ew) as (_ & _ & Dm & Hm).
  destruct (gather_is_Some (tmap softmax logits) merged) as [sp Eg].
  { rewrite dims_tmap. congruence. }
  { intros b i l id Hl Hid. rewrite tget_tmap in Hl.
    destruct (tget logits b i) as [l0|] eqn:El; simplify_eq/=.
    rewrite softmax_length.
    pose proof (proj1 (tForall_tget _ _) Hlog b i l0 El) as Hlen.
    simpl in Hlen. rewrite Hlen.
    destruct (Hdrawn b i l0 El) as [Hne Hdr].
    specialize (Hm b i). rewrite tget_tmap, Hdr, Hid in Hm.
    destruct (tget tok b i) as [cur|] eqn:Ecur; simplify_eq/=.
    destruct (is_mask model cur) eqn:Emask; simplify_eq/=.
    - pose proof (categorical_range rnd step b i l0 Hne). lia.
    - apply is_mask_false in Emask.
      pose proof (proj1 (tForall_tget _ _) Hvalid b i cur Ecur) as [?|?];
        [done|lia]. }
  rewrite Eg. simpl.
  pose proof (gather_Some _ _ _ Eg) as (_ & Dsp & _).
  destruct (where_r_is_Some (tmap (is_mask model) tok) (tmap XFin sp)
              CONFIDENCE_OF_KNOWN_TOKENS) as [sel Er].
  { rewrite !dims_tmap. congruence. }
  rewrite Er. simpl.
  pose proof (where_r_Some _ _ _ _ Er) as (_ & Dsel & _).
  rewrite dims_tmap in Dsel.
  destruct (dims_replicate_head tok B L Hd HB) as [row0 E0].
  rewrite list_lookup_fmap. unfold tmap at 1. rewrite list_lookup_fmap, E0.
  simpl.
  destruct (mask_by_random_topk_is_Some
              (masked_count unknown_number_in_the_beginning num_iter step
                 (count_true (is_mask model <$> row0)))
              sel (ct * (1 - ratio num_iter step)) (gumbel rnd step))
    as (masking & Em & Dmask).
  { apply Forall_lookup. intros b row Hb.
    assert (length row = L) as ->.
    { apply (dims_replicate_lookup sel B L b); [congruence|done]. }
    pose proof (count_true_bounds (is_mask model <$> row0)) as Hc.
    rewrite length_fmap, (dims_replicate_lookup tok B L 0 row0 Hd E0) in Hc.
    pose proof (masked_count_ge_1 unknown_number_in_the_beginning num_iter
                  step (count_true (is_mask model <$> row0))).
    pose proof (masked_count_le_max unknown_number_in_the_beginning num_iter
                  step (count_true (is_mask model <$> row0))).
    lia. }
  rewrite Em. simpl.
  destruct (where_l_is_Some masking (mask_token_label model) merged)
    as [tok2 El].
  { congruence. }
  rewrite El. simpl. by eexists.
Qed.
End step_total.

(** ** The loop *)

Section loop_props.
Context {Image Latent Slots Picture : Type}.
Variable model : Model Image Latent Slots Picture.
Variable rnd : Sampler.

Local Abbreviation mask_id := (mask_token_label model).

Lemma gen_step_valid slots num_iter ct step tok it :
  gen_step model rnd slots num_iter ct step tok = Some it →
  valid_ids mask_id tok →
  valid_ids mask_id (it_token_indices it) ∧
  Forall (Forall (λ id, (0 ≤ id < Z.of_nat codebook_size)%Z))
    (it_sampled_ids it).
Proof.
  intros H Hvalid.
  pose proof (gen_step_dims _ _ _ _ _ _ _ _ H) as (_ & _ & Ds & _ & _ & Dt).
  split.
  - apply tForall_tget. intros b i x Hx.
    destruct (tget_dims (it_token_indices it) tok b i) as [id Hid];
      [congruence|by eexists|].
    destruct (gen_step_entry _ _ _ _ _ _ _ _ _ _ _ H Hid)
      as (l & drawn & merged & mk & _ & _ & Hlen & _ & _ & _ & Hm' & Hr & _
          & _ & Ht).
    rewrite Hx in Ht. injection Ht as ->.
    destruct mk; [by left|]. right. lia.
  - apply tForall_tget. intros b i x Hx.
    destruct (tget_dims (it_sampled_ids it) tok b i) as [id Hid];
      [congruence|by eexists|].
    destruct (gen_step_entry _ _ _ _ _ _ _ _ _ _ _ H Hid)
      as (l & drawn & merged & mk & _ & _ & Hlen & _ & _ & _ & Hm' & Hr & _).
    rewrite Hx in Hm'. injection Hm' as ->. lia.
Qed.

Lemma gen_loop_length slots num_iter ct steps tok its :
  gen_loop model rnd slots num_iter ct steps tok = Some its →
  length its = length steps.
Proof.
  revert tok its. induction steps as [|step steps IH]; intros tok its H.
  - by simplify_eq/=.
  - simpl in H.
    destruct (gen_step _ _ _ _ _ _ _) as [it|]; simplify_eq/=.
    destruct (gen_loop _ _ _ _ _ _ _) as [its'|] eqn:E; simplify_eq/=.
    f_equal. by eapply IH.
Qed.

(** Every pass recorded by the loop is [gen_step] run on the state that
    entered it, and an invariant of the state holds at every pass. *)
Lemma gen_loop_lookup (P : list (list Z) → Prop) slots num_iter ct
    steps tok its t it :
  (∀ step tok it, P tok →
     gen_step model rnd slots num_iter ct step tok = Some it →
     P (it_token_indices it)) →
  P tok →
  gen_loop model rnd slots num_iter ct steps tok = Some its →
  its !! t = Some it →
  ∃ step, steps !! t = Some step ∧ P (it_cur_ids it) ∧
          gen_step model rnd slots num_iter ct step (it_cur_ids it) = Some it.
Proof.
  intros Hpres. revert tok its t.
  induction steps as [|step steps IH]; intros tok its t HP H Ht.
  - by simplify_eq/=.
  - simpl in H.
    destruct (gen_step _ _ _ _ _ _ _) as [it0|] eqn:E0; simplify_eq/=.
    destruct (gen_loop _ _ _ _ _ _ _) as [its'|] eqn:E; simplify_eq/=.
    pose proof (gen_step_inv _ _ _ _ _ _ _ _ E0) as (Hcur & _).
    destruct t as [|t]; simplify_eq/=.
    + by exists step.
    + eapply IH; [|done..]. by eapply Hpres.
Qed.

(** The state entering a pass is the state the pass before left. *)
Lemma gen_loop_chain slots num_iter ct steps tok its :
  gen_loop model rnd slots num_iter ct steps tok = Some its →
  (∀ it, its !! 0%nat = Some it → it_cur_ids it = tok) ∧
  ∀ t it it', its !! t = Some it → its !! S t = Some it' →
    it_cur_ids it' = it_token_indices it.
Proof.
  revert tok its. induction steps as [|step steps IH]; intros tok its H.
  - simplify_eq/=. done.
  - simpl in H.
    destruct (gen_step _ _ _ _ _ _ _) as [it0|] eqn:E0; simplify_eq/=.
    destruct (gen_loop _ _ _ _ _ _ _) as [its'|] eqn:E; simplify_eq/=.
    pose proof (gen_step_inv _ _ _ _ _ _ _ _ E0) as (Hcur & _).
    destruct (IH _ _ E) as [IH0 IHS]. split.
    + intros it [= <-]. done.
    + intros [|t] it it' Ht Ht'; simplify_eq/=.
      * by apply IH0.
      * by eapply IHS.
Qed.

Lemma gen_loop_is_Some (P : list (list Z) → Prop) slots num_iter ct steps tok :
  (∀ step tok, P tok →
     ∃ it, gen_step model rnd slots num_iter ct step tok = Some it ∧
           P (it_token_indices it)) →
  P tok →
  is_Some (gen_loop model rnd slots num_iter ct steps tok).
Proof.
  intros Hstep. revert tok. induction steps as [|step steps IH]; intros tok HP.
  - by eexists.
  - simpl. destruct (Hstep step tok HP) as (it & -> & HP'). simpl.
    destruct (IH _ HP') as [its ->]. by eexists.
Qed.

Lemma initial_token_indices_shape bsz :
  dims (initial_token_indices model bsz)
  = replicate bsz (Z.to_nat unknown_number_in_the_beginning) ∧
  valid_ids mask_id (initial_token_indices model bsz).
Proof.
  unfold initial_token_indices. split.
  - unfold dims. rewrite fmap_replicate. by rewrite length_replicate.
  - apply Forall_replicate, Forall_replicate. by left.
Qed.

(** On a decoder of the right shape and a batch of at least one item the
    loop runs through: one recorded pass per iteration. *)
Lemma gen_image_iterations_is_Some image bsz num_iter ct :
  decoder_shaped model → (0 < bsz)%nat →
  ∃ its, gen_image_iterations model rnd image bsz num_iter ct = Some its ∧
         length its = num_iter.
Proof.
  intros Hdec Hb. unfold gen_image_iterations.
  destruct (initial_token_indices_shape bsz) as [Hd Hv].
  destruct (gen_loop_is_Some
              (λ tok, dims tok
                      = replicate bsz (Z.to_nat unknown_number_in_the_beginning)
                      ∧ valid_ids mask_id tok)
              (slot_attention model (forward_encoder model image))
              num_iter ct (seq 0 num_iter) (initial_token_indices model bsz))
    as [its E]; [|done|].
  - intros step tok [Hd' Hv'].
    destruct (gen_step_is_Some model rnd Hdec
                (slot_attention model (forward_encoder model image))
                num_iter ct step tok _ _ Hd' Hb) as [it E]; [|done|].
    + unfold unknown_number_in_the_beginning. lia.
    + exists it. split; [done|]. split.
      * pose proof (gen_step_dims _ _ _ _ _ _ _ _ E) as (_&_&_&_&_& Dt).
        congruence.
      * by eapply gen_step_valid.
  - exists its. split; [done|].
    rewrite (gen_loop_length _ _ _ _ _ _ E). apply length_seq.
Qed.
End loop_props.

(** ** Runs of [gen_image] *)

Section run_props.
Context {Image Latent Slots Picture : Type}.
Variable model : Model Image Latent Slots Picture.
Variable rnd : Sampler.

Local Abbreviation mask_id := (mask_token_label model).

(** Pass [t] of a run is [gen_step] at step [t], with the slots computed
    before the loop, on a grid of [bsz] rows of 256 valid ids. *)
Lemma gen_image_iterations_lookup image bsz num_iter ct its t it :
  gen_image_iterations model rnd image bsz num_iter ct = Some its →
  its !! t = Some it →
  (t < num_iter)%nat ∧
  gen_step model rnd (slot_attention model (forward_encoder model image))
    num_iter ct t (it_cur_ids it) = Some it ∧
  dims (it_cur_ids it)
    = replicate bsz (Z.to_nat unknown_number_in_the_beginning) ∧
  valid_ids mask_id (it_cur_ids it).
Proof.
  unfold gen_image_iterations. intros H Ht.
  destruct (initial_token_indices_shape model bsz) as [Hd Hv].
  set (P := λ tok : list (list Z),
         dims tok = replicate bsz (Z.to_nat unknown_number_in_the_beginning)
         ∧ valid_ids mask_id tok).
  assert (Hpres : ∀ step tok it',
            P tok →
            gen_step model rnd
              (slot_attention model (forward_encoder model image))
              num_iter ct step tok = Some it' →
            P (it_token_indices it')).
  { intros step tok it' [Hd' Hv'] E. split.
    + pose proof (gen_step_dims _ _ _ _ _ _ _ _ E) as (_&_&_&_&_& Dt).
      congruence.
    + by eapply gen_step_valid. }
  destruct (gen_loop_lookup model rnd P _ _ _ _ _ _ t it Hpres
              (conj Hd Hv) H Ht) as (step & Hstep & [Hd' Hv'] & E).
  apply lookup_seq in Hstep as [-> Hlt]. simpl in E. done.
Qed.

(** The state entering the first pass is the all-mask grid, and the state
    entering a later pass is the state the pass before left. *)
Lemma gen_image_first image bsz num_iter ct its it :
  gen_image_iterations model rnd image bsz num_iter ct = Some its →
  its !! 0%nat = Some it →
  it_cur_ids it = initial_token_indices model bsz.
Proof.
  unfold gen_image_iterations. intros H.
  destruct (gen_loop_chain _ _ _ _ _ _ _ _ H) as [H0 _]. apply H0.
Qed.

Lemma gen_image_chain image bsz num_iter ct its t it it' :
  gen_image_iterations model rnd image bsz num_iter ct = Some its →
  its !! t = Some it → its !! S t = Some it' →
  it_cur_ids it' = it_token_indices it.
Proof.
  unfold gen_image_iterations. intros H.
  destruct (gen_loop_chain _ _ _ _ _ _ _ _ H) as [_ Hc]. apply Hc.
Qed.
End run_props.

Lemma toy_decoder_shaped : decoder_shaped toy_model.
Proof.
  intros x slots drop_mask all_mask. cbn [forward_decoder toy_model].
  apply Forall2_fmap_r, Forall_Forall2_diag, Forall_forall.
  intros mrow _. cbn [num_slots toy_model]. split.
  - apply length_replicate.
  - apply Forall_replicate. rewrite length_replicate.
    unfold codebook_size. lia.
Qed.

(** ** Claims on one pass and on runs *)

(** C1, as amended.  The slots are computed once, before the loop, by
    running [slot_attention] on the encoder output of the conditioning
    image.  In every iteration the decoder is called on these same slots,
    together with the encoder output of the token sequence entering the
    iteration: the logits of the iteration are what [forward_decoder]
    returns for them, cut to the token positions and the codebook, and the
    ids of the iteration are drawn from these logits. *)
Theorem slots_computed_once
    {Image Latent Slots Picture} (model : Model Image Latent Slots Picture)
    (rnd : Sampler) image bsz num_iter ct its t it :
  gen_image_iterations model rnd image bsz num_iter ct = Some its →
  its !! t = Some it →
  it_slots it = slot_attention model (forward_encoder model image) ∧
  it_x it
  = encode model ((λ row, fake_class_label model :: row) <$> it_cur_ids it) ∧
  it_logits it
  = ((λ row, take codebook_size <$> drop (num_slots model + 1) row)
       <$> forward_decoder model
             (encode model
                ((λ row, fake_class_label model :: row) <$> it_cur_ids it))
             (slot_attention model (forward_encoder model image))
             (tmap (λ _ : Z, 0%Z)
                ((λ row, fake_class_label model :: row) <$> it_cur_ids it))
             (tmap (is_mask model)
                ((λ row, fake_class_label model :: row) <$> it_cur_ids it))) ∧
  sample rnd t (it_logits it) = Some (it_drawn_ids it).
Proof.
  intros H Ht.
  destruct (gen_image_iterations_lookup _ _ _ _ _ _ _ _ _ H Ht)
    as (_ & E & _).
  apply gen_step_inv in E as (_ & Hx & Hs & Hlog & Hdrawn & _).
  split; [done|]. split; [done|]. split; [|done].
  rewrite Hlog. by rewrite Hx.
Qed.

Lemma slot_decoder_shaped : decoder_shaped slot_model.
Proof.
  intros x slots drop_mask all_mask. cbn [forward_decoder slot_model].
  apply Forall2_fmap_r, Forall_Forall2_diag, Forall_forall.
  intros mrow _. cbn [num_slots slot_model]. split.
  - apply length_replicate.
  - apply Forall_replicate. rewrite length_replicate.
    unfold codebook_size. lia.
Qed.

Lemma slots_computed_once_witness :
  ∃ its it,
    gen_image_iterations slot_model toy_sampler 3%nat 1 2 (9 / 2) = Some its ∧
    its !! 1%nat = Some it ∧
    it_slots it = slot_attention slot_model (forward_encoder slot_model 3%nat) ∧
    it_x it
    = encode slot_model
        ((λ row, fake_class_label slot_model :: row) <$> it_cur_ids it) ∧
    it_logits it
    = ((λ row, take codebook_size <$> drop (num_slots slot_model + 1) row)
         <$> forward_decoder slot_model
               (encode slot_model
                  ((λ row, fake_class_label slot_model :: row)
                     <$> it_cur_ids it))
               (slot_attention slot_model (forward_encoder slot_model 3%nat))
               (tmap (λ _ : Z, 0%Z)
                  ((λ row, fake_class_label slot_model :: row)
                     <$> it_cur_ids it))
               (tmap (is_mask slot_model)
                  ((λ row, fake_class_label slot_model :: row)
                     <$> it_cur_ids it))) ∧
    sample toy_sampler 1 (it_logits it) = Some (it_drawn_ids it).
Proof.
  destruct (gen_image_iterations_is_Some slot_model toy_sampler 3%nat 1 2
              (9 / 2) slot_decoder_shaped ltac:(lia)) as (its & Hrun & Hlen).
  destruct (lookup_lt_is_Some_2 its 1) as [it Hit]; [lia|].
  exists its, it. split; [exact Hrun|]. split; [exact Hit|].
  exact (slots_computed_once slot_model toy_sampler 3%nat 1 2 (9 / 2) its 1
           it Hrun Hit).
Defined.

(** Every logit of [slot_model] at a token position is the number its
    decoder was given as slots. *)
Lemma slot_model_logits_entry x slots drop_mask all_mask b i l :
  tget ((λ row, take codebook_size <$> drop (num_slots slot_model + 1) row)
          <$> forward_decoder slot_model x slots drop_mask all_mask) b i
  = Some l →
  l !! 0%nat = Some (INR slots).
Proof.
  unfold tget. cbn [forward_decoder slot_model num_slots].
  rewrite !list_lookup_fmap.
  destruct (all_mask !! b) as [mrow|]; [|done].
  cbn [fmap option_fmap option_map mbind option_bind].
  rewrite list_lookup_fmap, lookup_drop. intros Hl.
  apply fmap_Some in Hl as (l0 & Hl0 & ->).
  apply lookup_replicate in Hl0 as [-> _].
  rewrite lookup_take_lt by (unfold codebook_size; lia).
  apply lookup_replicate_2. lia.
Qed.

(** The first pass of a run of [slot_model] on one batch item: its logits
    at position (0, 0) hold the number of rows of the latent of the
    conditioning image, whereas the slots computed from the encoder output
    of the pass are summarised by 1. *)
Lemma slot_model_first_pass image its it :
  gen_image_iterations slot_model toy_sampler image 1 1 (9 / 2) = Some its →
  its !! 0%nat = Some it →
  it_cur_ids it = initial_token_indices slot_model 1 ∧
  it_slots it = image ∧
  slot_attention slot_model (it_x it) = 1%nat ∧
  ∃ l, tget (it_logits it) 0 0 = Some l ∧ l !! 0%nat = Some (INR image).
Proof.
  intros Hrun Hit.
  pose proof (gen_image_first _ _ _ _ _ _ _ _ Hrun Hit) as Hcur.
  destruct (gen_image_iterations_lookup _ _ _ _ _ _ _ _ _ Hrun Hit)
    as (_ & E & Hd & _).
  assert (Hid : tget (it_cur_ids it) 0 0 = Some 2024%Z).
  { rewrite Hcur. reflexivity. }
  destruct (gen_step_entry _ _ _ _ _ _ _ _ _ _ _ E Hid)
    as (l & _ & _ & _ & Hl & _).
  apply gen_step_inv in E as (_ & Hx & Hs & Hlog & _).
  split; [done|]. split; [|split].
  - rewrite Hs. cbn [slot_attention forward_encoder slot_model].
    apply length_replicate.
  - rewrite Hx. cbn [slot_attention slot_model encode token_emb blocks norm
                      foldl].
    rewrite length_fmap, <- (dims_length (it_cur_ids it)), Hd.
    apply length_replicate.
  - exists l. split; [done|]. rewrite Hlog in Hl.
    apply slot_model_logits_entry in Hl. rewrite Hl.
    cbn [slot_attention forward_encoder slot_model].
    by rewrite length_replicate.
Qed.

(** C1, as stated, fails.  In the first pass of a run of [slot_model] the
    slots the decoder is called on are not the result of [slot_attention] on
    the encoder output of that pass, and the logits of the pass are not what
    the decoder returns for slots recomputed from it; and the first passes
    of two runs on different conditioning images start from the same token
    sequence and yet decode to different logits, so what the decoder is
    given is not a function of the token sequence entering the pass. *)
Lemma slots_not_recomputed :
  ∃ its it its' it',
    gen_image_iterations slot_model toy_sampler 0%nat 1 1 (9 / 2) = Some its ∧
    its !! 0%nat = Some it ∧
    it_slots it ≠ slot_attention slot_model (it_x it) ∧
    it_logits it
    ≠ ((λ row, take codebook_size <$> drop (num_slots slot_model + 1) row)
         <$> forward_decoder slot_model (it_x it)
               (slot_attention slot_model (it_x it))
               (tmap (λ _ : Z, 0%Z)
                  ((λ row, fake_class_label slot_model :: row)
                     <$> it_cur_ids it))
               (tmap (is_mask slot_model)
                  ((λ row, fake_class_label slot_model :: row)
                     <$> it_cur_ids it))) ∧
    gen_image_iterations slot_model toy_sampler 2%nat 1 1 (9 / 2) = Some its' ∧
    its' !! 0%nat = Some it' ∧
    it_cur_ids it = it_cur_ids it' ∧
    it_logits it ≠ it_logits it'.
Proof.
  destruct (gen_image_iterations_is_Some slot_model toy_sampler 0%nat 1 1
              (9 / 2) slot_decoder_shaped ltac:(lia)) as (its & Hrun & Hlen).
  destruct (lookup_lt_is_Some_2 its 0) as [it Hit]; [lia|].
  destruct (gen_image_iterations_is_Some slot_model toy_sampler 2%nat 1 1
              (9 / 2) slot_decoder_shaped ltac:(lia)) as (its' & Hrun' & Hlen').
  destruct (lookup_lt_is_Some_2 its' 0) as [it' Hit']; [lia|].
  destruct (slot_model_first_pass _ _ _ Hrun Hit)
    as (Hcur & Hs & Hre & l & Hl & Hl0).
  destruct (slot_model_first_pass _ _ _ Hrun' Hit')
    as (Hcur' & _ & _ & l' & Hl' & Hl0').
  exists its, it, its', it'.
  split; [exact Hrun|]. split; [exact Hit|]. split; [|split; [|split]].
  - rewrite Hs, Hre. lia.
  - intros Heq. rewrite Heq in Hl.
    apply slot_model_logits_entry in Hl. rewrite Hre, Hl0 in Hl.
    injection Hl as Hl. simpl in Hl. lra.
  - exact Hrun'.
  - split; [exact Hit'|]. split; [congruence|].
    intros Heq. rewrite Heq, Hl' in Hl. injection Hl as ->.
    rewrite Hl0' in Hl0. injection Hl0 as Hl0. simpl in Hl0. lra.
Qed.



(** C3.  The merge of one pass.  At every position of the grid the pass
    draws an id from the logits the decoder returned for that position.  A
    position that was not masked entering the pass keeps its id, the newly
    drawn id does not replace it; a position that was masked takes the
    newly drawn id. *)
Theorem merge_keeps_resolved
    {Image Latent Slots Picture} (model : Model Image Latent Slots Picture)
    (rnd : Sampler) slots num_iter ct step tok it b i id :
  gen_step model rnd slots num_iter ct step tok = Some it →
  tget tok b i = Some id →
  ∃ l,
    it_logits it
    = ((λ row, take codebook_size <$> drop (num_slots model + 1) row)
         <$> forward_decoder model
               (encode model ((λ row, fake_class_label model :: row) <$> tok))
               slots
               (tmap (λ _ : Z, 0%Z)
                  ((λ row, fake_class_label model :: row) <$> tok))
               (tmap (is_mask model)
                  ((λ row, fake_class_label model :: row) <$> tok))) ∧
    tget (it_logits it) b i = Some l ∧
    tget (it_drawn_ids it) b i = Some (categorical rnd step b i l) ∧
    (id ≠ mask_token_label model → tget (it_sampled_ids it) b i = Some id) ∧
    (id = mask_token_label model →
       tget (it_sampled_ids it) b i = Some (categorical rnd step b i l)).
Proof.
  intros H Hid.
  destruct (gen_step_entry _ _ _ _ _ _ _ _ _ _ _ H Hid)
    as (l & drawn & merged & mk & Hl & _ & _ & Hdr & Hd & Hm & Hs & _).
  apply gen_step_inv in H as (_ & Hx & _ & Hlog & _).
  exists l. split; [by rewrite Hlog, Hx|]. split; [done|].
  split; [congruence|].
  split; intros Hmask.
  - apply is_mask_false in Hmask. rewrite Hmask in Hm. by rewrite Hs, Hm.
  - apply is_mask_true in Hmask. rewrite Hmask in Hm. congruence.
Qed.

Lemma merge_keeps_resolved_witness :
  ∃ it l0 l1,
    gen_step toy_model toy_sampler 0%nat 12 (9 / 2) 0 [[2024; 5]%Z] = Some it ∧
    it_logits it
    = ((λ row, take codebook_size <$> drop (num_slots toy_model + 1) row)
         <$> forward_decoder toy_model
               (encode toy_model
                  ((λ row, fake_class_label toy_model :: row)
                     <$> [[2024; 5]%Z]))
               0%nat
               (tmap (λ _ : Z, 0%Z)
                  ((λ row, fake_class_label toy_model :: row)
                     <$> [[2024; 5]%Z]))
               (tmap (is_mask toy_model)
                  ((λ row, fake_class_label toy_model :: row)
                     <$> [[2024; 5]%Z]))) ∧
    tget (it_logits it) 0 0 = Some l0 ∧
    tget (it_drawn_ids it) 0 0 = Some (categorical toy_sampler 0 0 0 l0) ∧
    tget (it_sampled_ids it) 0 0 = Some (categorical toy_sampler 0 0 0 l0) ∧
    categorical toy_sampler 0 0 0 l0 = 0%Z ∧
    tget (it_logits it) 0 1 = Some l1 ∧
    tget (it_drawn_ids it) 0 1 = Some (categorical toy_sampler 0 0 1 l1) ∧
    tget (it_sampled_ids it) 0 1 = Some 5%Z.
Proof.
  destruct (gen_step_is_Some toy_model toy_sampler toy_decoder_shaped
              0%nat 12 (9 / 2) 0 [[2024; 5]%Z] 1 2) as [it Hit].
  - reflexivity.
  - lia.
  - lia.
  - repeat constructor; unfold codebook_size; simpl; lia.
  - destruct (merge_keeps_resolved toy_model toy_sampler 0%nat 12 (9 / 2) 0
                [[2024; 5]%Z] it 0 0 2024%Z Hit eq_refl)
      as (l0 & Hlog & Hl0 & Hdrawn0 & _ & Hmasked).
    destruct (merge_keeps_resolved toy_model toy_sampler 0%nat 12 (9 / 2) 0
                [[2024; 5]%Z] it 0 1 5%Z Hit eq_refl)
      as (l1 & _ & Hl1 & Hdrawn1 & Hkept & _).
    exists it, l0, l1. split; [exact Hit|]. split; [exact Hlog|].
    split; [exact Hl0|]. split; [exact Hdrawn0|].
    split; [apply Hmasked; reflexivity|]. split; [reflexivity|].
    split; [exact Hl1|]. split; [exact Hdrawn1|].
    apply Hkept. discriminate.
Defined.

(** ** The logarithm and the order *)

Lemma xlog_prob x : is_prob x → below_inf (xlog x).
Proof.
  destruct x as [| |p|]; simpl; try done. intros Hp.
  repeat case_decide; simpl; try done. lra.
Qed.

Lemma xlog_confidence_not_nan x : is_confidence x → xlog x ≠ XNaN.
Proof.
  intros [Hp| ->]; [|done]. apply xlog_prob in Hp.
  by destruct (xlog x).
Qed.

Lemma xle_xlog x y :
  is_confidence x → is_confidence y → xle (xlog x) (xlog y) ↔ xle x y.
Proof.
  intros [Hx| ->] [Hy| ->].
  - destruct x as [| |a|], y as [| |b|]; simpl in *; try done.
    repeat case_decide; simpl; try lra.
    split; intros Hle.
    + destruct (Rle_lt_dec a b) as [|Hlt]; [done|].
      apply ln_increasing in Hlt; lra.
    + destruct Hle as [Hlt| ->]; [|lra].
      apply ln_increasing in Hlt; lra.
  - destruct x as [| |a|]; simpl in *; try done.
    repeat case_decide; simpl; try done; lra.
  - destruct y as [| |b|]; simpl in *; try done.
    repeat case_decide; simpl; try done; lra.
  - done.
Qed.

Lemma sort_le_xle x y : x ≠ XNaN → y ≠ XNaN → sort_le x y ↔ xle x y.
Proof. destruct x, y; simpl; done. Qed.

Lemma sort_le_xlog x y :
  is_confidence x → is_confidence y → sort_le x y → sort_le (xlog x) (xlog y).
Proof.
  intros Hx Hy H.
  pose proof (xlog_confidence_not_nan x Hx).
  pose proof (xlog_confidence_not_nan y Hy).
  assert (x ≠ XNaN) by (destruct Hx as [?| ->]; [by destruct x|done]).
  assert (y ≠ XNaN) by (destruct Hy as [?| ->]; [by destruct y|done]).
  apply sort_le_xle; [done..|]. apply xle_xlog; [done..|].
  by apply sort_le_xle.
Qed.

Lemma StronglySorted_fmap_on {A B} (R1 : relation A) (R2 : relation B)
    (V : A → Prop) (f : A → B) l :
  (∀ x y, V x → V y → R1 x y → R2 (f x) (f y)) →
  Forall V l → StronglySorted R1 l → StronglySorted R2 (f <$> l).
Proof.
  intros Hf HV Hs. induction Hs as [|x l Hs IH Hx]; simpl.
  - constructor.
  - apply Forall_cons in HV as [Vx Vl]. constructor; [by apply IH|].
    apply Forall_fmap. rewrite Forall_forall in Hx, Vl.
    apply Forall_forall. intros y Hy. simpl. apply Hf; auto.
Qed.

(** Sorting commutes with the logarithm on a row of confidences. *)
Lemma sort_row_xlog row :
  Forall is_confidence row → sort_row (xlog <$> row) = xlog <$> sort_row row.
Proof.
  intros Hrow. symmetry. apply sort_row_unique.
  - apply (StronglySorted_fmap_on sort_le sort_le is_confidence).
    + apply sort_le_xlog.
    + by rewrite sort_row_perm.
    + apply sort_row_sorted.
  - by rewrite sort_row_perm.
Qed.

Lemma perturbed_zero probs g : perturbed probs 0 g = tmap xlog probs.
Proof.
  apply tensor_eq.
  - by rewrite perturbed_dims, dims_tmap.
  - intros b i. rewrite tget_perturbed, tget_tmap.
    destruct (tget probs b i) as [p|]; simpl; [|done]. f_equal.
    destruct (xlog p); simpl; try done. f_equal. lra.
Qed.

(** ** Claims on the remasking policy *)

(** C7.  At temperature 0 the noise plays no part: two calls on the same
    confidences and target count return the same masking, whatever the two
    noise draws; and on a row of k..L confidences the masked positions are
    exactly those whose confidence is at most the k-th smallest confidence
    of the row: the entry of rank k of the row put in ascending order, which
    holds the confidences of the row and no others. *)
Theorem remasking_deterministic_at_zero k probs g1 g2 :
  Forall (Forall is_confidence) probs →
  mask_by_random_topk k probs 0 g1 = mask_by_random_topk k probs 0 g2 ∧
  ∀ m b row,
    mask_by_random_topk k probs 0 g1 = Some m →
    probs !! b = Some row →
    (1 ≤ k ≤ Z.of_nat (length row))%Z →
    ∃ c, StronglySorted sort_le (sort_row row) ∧
         sort_row row ≡ₚ row ∧
         sort_row row !! Z.to_nat (k - 1) = Some c ∧
         m !! b = Some ((λ p, xleb p c) <$> row).
Proof.
  intros Hprobs. split.
  - unfold mask_by_random_topk. by rewrite !perturbed_zero.
  - intros m b row Hm Hb Hk.
    assert (Hrow : Forall is_confidence row).
    { by eapply (proj1 (Forall_lookup _ _) Hprobs). }
    destruct (mask_by_random_topk_row k probs 0 g1 m b (xlog <$> row) Hm)
      as (c' & Hc' & Hmb).
    { rewrite perturbed_zero. unfold tmap. by rewrite list_lookup_fmap, Hb. }
    { by rewrite length_fmap. }
    rewrite sort_row_xlog, list_lookup_fmap in Hc' by done.
    destruct (sort_row row !! Z.to_nat (k - 1)) as [c|] eqn:Ec;
      simplify_eq/=.
    exists c. split; [apply sort_row_sorted|].
    split; [apply sort_row_perm|]. split; [done|].
    rewrite Hmb, <- list_fmap_compose.
    f_equal. apply Forall_fmap_ext_1.
    assert (Hc : is_confidence c).
    { apply sort_row_elem in Ec.
      by apply (proj1 (Forall_forall _ _) Hrow). }
    eapply Forall_impl; [exact Hrow|]. intros p Hp. simpl.
    unfold xleb. apply bool_decide_ext. by apply xle_xlog.
Qed.

Lemma remasking_deterministic_at_zero_witness :
  ∃ m c,
    Forall (Forall is_confidence) [[XPosInf; XFin (1 / 2); XFin (1 / 4)]] ∧
    mask_by_random_topk 2 [[XPosInf; XFin (1 / 2); XFin (1 / 4)]] 0 (λ _ _, 0)
    = Some m ∧
    mask_by_random_topk 2 [[XPosInf; XFin (1 / 2); XFin (1 / 4)]] 0 (λ _ _, 0)
    = mask_by_random_topk 2 [[XPosInf; XFin (1 / 2); XFin (1 / 4)]] 0
        (λ _ i, INR i) ∧
    StronglySorted sort_le (sort_row [XPosInf; XFin (1 / 2); XFin (1 / 4)]) ∧
    sort_row [XPosInf; XFin (1 / 2); XFin (1 / 4)]
    ≡ₚ [XPosInf; XFin (1 / 2); XFin (1 / 4)] ∧
    sort_row [XPosInf; XFin (1 / 2); XFin (1 / 4)] !! Z.to_nat (2 - 1)
    = Some c ∧
    m !! 0%nat
    = Some ((λ p, xleb p c) <$> [XPosInf; XFin (1 / 2); XFin (1 / 4)]).
Proof.
  assert (H : Forall (Forall is_confidence)
                [[XPosInf; XFin (1 / 2); XFin (1 / 4)]]).
  { apply Forall_singleton, Forall_cons. split; [by right|].
    apply Forall_cons. split; [left; simpl; lra|].
    apply Forall_singleton. left. simpl. lra. }
  destruct (mask_by_random_topk_is_Some 2
              [[XPosInf; XFin (1 / 2); XFin (1 / 4)]] 0 (λ _ _, 0))
    as (m & Hm & _).
  { apply Forall_singleton. simpl. lia. }
  destruct (remasking_deterministic_at_zero 2
              [[XPosInf; XFin (1 / 2); XFin (1 / 4)]]
              (λ _ _, 0) (λ _ i, INR i) H) as [Hdet Hrow].
  destruct (Hrow m 0%nat [XPosInf; XFin (1 / 2); XFin (1 / 4)] Hm eq_refl)
    as (c & Hs & Hp & Hc & Hmb).
  { simpl. lia. }
  exists m, c. split; [exact H|]. split; [exact Hm|]. split; [exact Hdet|].
  split; [exact Hs|]. split; [exact Hp|]. split; [exact Hc|exact Hmb].
Defined.

(** *** Small rows by hand *)

Lemma sort_row_pair_le a b : sort_le a b → sort_row [a; b] = [a; b].
Proof.
  intros H. symmetry. apply sort_row_unique; [|done].
  repeat constructor. done.
Qed.

Lemma sort_row_pair_ge a b : sort_le b a → sort_row [a; b] = [b; a].
Proof.
  intros H. symmetry. apply sort_row_unique; [|apply Permutation_swap].
  repeat constructor. done.
Qed.

Lemma xleb_fin a b : xleb (XFin a) (XFin b) = bool_decide (a <= b).
Proof. reflexivity. Qed.

Lemma mask_by_random_topk_single k row temp g conf c :
  perturbed [row] temp g = [conf] →
  cut_off_row k (sort_row conf) = [c] →
  mask_by_random_topk k [row] temp g = Some [(λ x, xleb x c) <$> conf].
Proof.
  intros Hconf Hcut. apply mask_by_random_topk_rows. rewrite Hconf.
  apply Forall2_cons. split; [|constructor].
  by rewrite Hcut, le_broadcast_cut.
Qed.

(** C6, as amended.  The policy perturbs the logarithm of each confidence
    score by adding the noise scaled by temperature, sorts the perturbed
    scores of each batch item in ascending order, takes the one of rank
    masked-count as the cut-off and masks exactly the positions whose
    perturbed score is at most the cut-off; in pass t of a run of T
    iterations it is called with the base temperature times
    (1 - (t+1)/T). *)
Theorem remasking_perturbs_log_confidence :
  (∀ k probs temp g m b row,
     mask_by_random_topk k probs temp g = Some m →
     probs !! b = Some row →
     (1 ≤ k ≤ Z.of_nat (length row))%Z →
     let conf := imap (λ i p, xadd (xlog p) (temp * g b i)) row in
     ∃ c, StronglySorted sort_le (sort_row conf) ∧
          sort_row conf ≡ₚ conf ∧
          sort_row conf !! Z.to_nat (k - 1) = Some c ∧
          m !! b = Some ((λ x, xleb x c) <$> conf)) ∧
  (∀ Image Latent Slots Picture (model : Model Image Latent Slots Picture)
     rnd image bsz num_iter ct its t it,
     gen_image_iterations model rnd image bsz num_iter ct = Some its →
     its !! t = Some it →
     it_temperature it = ct * (1 - INR (t + 1) / INR num_iter) ∧
     mask_by_random_topk (it_mask_len it) (it_selected_probs it)
       (it_temperature it) (gumbel rnd t) = Some (it_masking it)).
Proof.
  split.
  - intros k probs temp g m b row Hm Hb Hk conf.
    destruct (mask_by_random_topk_row k probs temp g m b conf Hm)
      as (c & Hc & Hmb).
    { by rewrite perturbed_lookup, Hb. }
    { unfold conf. by rewrite length_imap. }
    exists c. split_and!; [apply sort_row_sorted|apply sort_row_perm|done..].
  - intros Image Latent Slots Picture model rnd image bsz num_iter ct its t
      it H Ht.
    destruct (gen_image_iterations_lookup _ _ _ _ _ _ _ _ _ H Ht)
      as (_ & E & _).
    apply gen_step_inv in E as (_&_&_&_&_&_&_&_& Htemp & Hmask & _).
    split; [|done]. rewrite Htemp. unfold ratio.
    replace (1 * INR (t + 1) / INR num_iter)
      with (INR (t + 1) / INR num_iter) by (unfold Rdiv; ring).
    reflexivity.
Qed.

Lemma remasking_perturbs_log_confidence_witness :
  ∃ its it m c,
    gen_image_iterations toy_model toy_sampler () 1 12 (9 / 2) = Some its ∧
    its !! 3%nat = Some it ∧
    it_temperature it = 9 / 2 * (1 - INR (3 + 1) / INR 12) ∧
    mask_by_random_topk (it_mask_len it) (it_selected_probs it)
      (it_temperature it) (gumbel toy_sampler 3)
    = Some (it_masking it) ∧
    mask_by_random_topk 1 [[XFin (1 / 2); XPosInf]] 2 (λ _ i, INR i) = Some m ∧
    let conf :=
      imap (λ i p, xadd (xlog p) (2 * INR i)) [XFin (1 / 2); XPosInf] in
    StronglySorted sort_le (sort_row conf) ∧
    sort_row conf ≡ₚ conf ∧
    sort_row conf !! Z.to_nat (1 - 1) = Some c ∧
    m !! 0%nat = Some ((λ x, xleb x c) <$> conf).
Proof.
  destruct remasking_perturbs_log_confidence as [Hpolicy Hrun].
  destruct (gen_image_iterations_is_Some toy_model toy_sampler () 1 12 (9 / 2)
              toy_decoder_shaped ltac:(lia)) as (its & Hits & Hlen).
  destruct (lookup_lt_is_Some_2 its 3) as [it Hit]; [lia|].
  destruct (Hrun _ _ _ _ toy_model toy_sampler () 1%nat 12%nat (9 / 2) its
              3%nat it Hits Hit) as [Htemp Hmask].
  destruct (mask_by_random_topk_is_Some 1 [[XFin (1 / 2); XPosInf]] 2
              (λ _ i, INR i)) as (m & Hm & _).
  { apply Forall_singleton. simpl. lia. }
  destruct (Hpolicy 1%Z [[XFin (1 / 2); XPosInf]] 2 (λ _ i, INR i) m 0%nat
              [XFin (1 / 2); XPosInf] Hm eq_refl) as (c & H1 & H2 & H3 & H4).
  { simpl. lia. }
  exists its, it, m, c.
  split; [exact Hits|]. split; [exact Hit|]. split; [exact Htemp|].
  split; [exact Hmask|]. split; [exact Hm|].
  split; [exact H1|]. split; [exact H2|]. split; [exact H3|exact H4].
Defined.

(** C6, as stated, fails: with the noise added to the confidence score
    itself, as the specification words it, the same scores, temperature and
    noise mask another position than the code does. *)
Lemma remasking_not_on_raw_scores :
  mask_by_random_topk 1 [[XFin 1; XFin (exp (-2))]] 1 (λ _ i, INR i)
  = Some [[false; true]] ∧
  spec_remasking 1 [[XFin 1; XFin (exp (-2))]] 1 (λ _ i, INR i)
  = Some [[true; false]].
Proof.
  pose proof (exp_pos (-2)) as Hexp. split.
  - assert (Hconf : perturbed [[XFin 1; XFin (exp (-2))]] 1 (λ _ i, INR i)
                    = [[XFin 0; XFin (-1)]]).
    { unfold perturbed, timap. cbn [imap]. unfold compose. cbv beta.
      unfold xlog. rewrite !decide_False by lra. rewrite ln_1, ln_exp.
      simpl. repeat f_equal; lra. }
    rewrite (mask_by_random_topk_single 1 _ 1 _ _ (XFin (-1)) Hconf).
    + simpl. rewrite !xleb_fin.
      rewrite bool_decide_false by lra. by rewrite bool_decide_true by lra.
    + rewrite sort_row_pair_ge by (simpl; lra). reflexivity.
  - unfold spec_remasking, spec_perturbed, timap. cbn [imap]. unfold compose.
    cbv beta. cbn [xadd mapM].
    rewrite sort_row_pair_le by (simpl; lra). simpl.
    rewrite !xleb_fin.
    rewrite bool_decide_true by lra. by rewrite bool_decide_false by lra.
Qed.

(** ** The sentinel under the policy *)

Lemma below_inf_perturbed p r : below_inf (xadd (xlog p) r) ↔ is_prob p.
Proof.
  destruct p as [| |a|]; simpl; try done.
  repeat case_decide; simpl; intuition lra.
Qed.

Lemma sentinel_perturbed r :
  xadd (xlog CONFIDENCE_OF_KNOWN_TOKENS) r = XPosInf.
Proof. reflexivity. Qed.

Lemma sort_le_not_below x y : sort_le x y → ¬ below_inf x → ¬ below_inf y.
Proof. destruct x, y; simpl; tauto. Qed.

Lemma filter_none {A} (P : A → Prop) `{∀ x, Decision (P x)} (l : list A) :
  Forall (λ x, ¬ P x) l → filter P l = [].
Proof.
  induction 1 as [|x l Hx _ IH]; [done|].
  by rewrite filter_cons_False.
Qed.

(** In a sorted row the scores below [+inf] come first. *)
Lemma sorted_below_inf_count sorted j c :
  StronglySorted sort_le sorted →
  sorted !! j = Some c → ¬ below_inf c →
  (length (filter below_inf sorted) ≤ j)%nat.
Proof.
  intros Hs. revert j. induction Hs as [|x l Hs IH Hx]; intros j Hj Hc.
  - done.
  - destruct j as [|j]; simplify_eq/=.
    + rewrite filter_cons_False by done.
      assert (filter below_inf l = []) as ->; [|simpl; lia].
      apply filter_none. eapply Forall_impl; [exact Hx|].
      intros y Hy. by eapply sort_le_not_below.
    + specialize (IH j Hj Hc).
      destruct (decide (below_inf x)).
      * rewrite filter_cons_True by done. simpl. lia.
      * rewrite filter_cons_False by done. lia.
Qed.

Lemma filter_length_pointwise {A B} (P : A → Prop) (Q : B → Prop)
    `{∀ x, Decision (P x)} `{∀ y, Decision (Q y)} (l : list A) (k : list B) :
  Forall2 (λ x y, P x ↔ Q y) l k →
  length (filter P l) = length (filter Q k).
Proof.
  induction 1 as [|x y l k Hxy _ IH]; [done|].
  destruct (decide (P x)) as [HP|HP].
  - rewrite !filter_cons_True by tauto. simpl. by rewrite IH.
  - rewrite !filter_cons_False by tauto. done.
Qed.

Lemma perturbed_row_below_inf_count row temp (g : nat → R) :
  length (filter below_inf (imap (λ i p, xadd (xlog p) (temp * g i)) row))
  = length (filter is_prob row).
Proof.
  apply filter_length_pointwise. apply Forall2_same_length_lookup. split.
  - by rewrite length_imap.
  - intros i x p Hx Hp. rewrite list_lookup_imap, Hp in Hx. simplify_eq/=.
    apply below_inf_perturbed.
Qed.

(** With at least [k] probabilities in the row, the cut-off is below [+inf]
    and no sentinel position is masked, whatever the temperature and the
    noise. *)
Lemma sentinel_kept k probs temp g m b row i :
  mask_by_random_topk k probs temp g = Some m →
  probs !! b = Some row →
  row !! i = Some CONFIDENCE_OF_KNOWN_TOKENS →
  (1 ≤ k ≤ Z.of_nat (length (filter is_prob row)))%Z →
  tget m b i = Some false.
Proof.
  intros Hm Hb Hi Hk.
  set (conf := imap (λ i p, xadd (xlog p) (temp * g b i)) row).
  pose proof (length_filter is_prob row) as Hle.
  destruct (mask_by_random_topk_row k probs temp g m b conf Hm)
    as (c & Hc & Hmb).
  { by rewrite perturbed_lookup, Hb. }
  { unfold conf. rewrite length_imap. lia. }
  assert (Hbelow : below_inf c).
  { destruct (decide (below_inf c)) as [|Hn]; [done|]. exfalso.
    pose proof (sorted_below_inf_count _ _ _ (sort_row_sorted conf) Hc Hn)
      as Hcount.
    rewrite (sort_row_perm conf) in Hcount. unfold conf in Hcount.
    rewrite (perturbed_row_below_inf_count row temp (g b)) in Hcount. lia. }
  unfold tget. rewrite Hmb. simpl. rewrite list_lookup_fmap.
  unfold conf. rewrite list_lookup_imap, Hi. simpl.
  f_equal. unfold xleb. apply bool_decide_eq_false.
  destruct c; simpl in *; tauto.
Qed.

(** ** Softmax is positive *)

Lemma Rsum_nonneg l : Forall (λ x, 0 <= x) l → 0 <= Rsum l.
Proof. induction 1; simpl; lra. Qed.

Lemma Rsum_pos l : Forall (λ x, 0 < x) l → l ≠ [] → 0 < Rsum l.
Proof.
  intros H Hne. destruct H as [|x l Hx Hl]; [done|]. simpl.
  assert (0 <= Rsum l); [|lra].
  apply Rsum_nonneg. eapply Forall_impl; [exact Hl|]. intros; simpl; lra.
Qed.

Lemma Rsum_exp_pos l : l ≠ [] → 0 < Rsum (exp <$> l).
Proof.
  intros H. apply Rsum_pos.
  - apply Forall_fmap, Forall_forall. intros x _. apply exp_pos.
  - by destruct l.
Qed.

Lemma softmax_pos l : Forall (λ x, 0 < x) (softmax l).
Proof.
  destruct l as [|x0 l0] eqn:E; [constructor|]. rewrite <- E.
  assert (Hs : 0 < Rsum (exp <$> l)) by (apply Rsum_exp_pos; by subst).
  unfold softmax. apply Forall_fmap, Forall_forall. intros x _. simpl.
  apply Rdiv_lt_0_compat; [apply exp_pos|done].
Qed.

Lemma softmax_nth_pos l n : (n < length l)%nat → 0 < nth n (softmax l) 0.
Proof.
  intros Hn. apply (proj1 (Forall_lookup _ _) (softmax_pos l) n).
  destruct (nth_lookup_or_length (softmax l) n 0) as [H|H]; [done|].
  rewrite softmax_length in H. lia.
Qed.

Section step_confidences.
Context {Image Latent Slots Picture : Type}.
Variable model : Model Image Latent Slots Picture.
Variable rnd : Sampler.

(** The confidences of one pass: a positive probability where the position
    was masked, the sentinel where it was resolved. *)
Lemma gen_step_selected_probs slots num_iter ct step tok it b i id :
  gen_step model rnd slots num_iter ct step tok = Some it →
  tget tok b i = Some id →
  ∃ x, tget (it_selected_probs it) b i = Some x ∧
       (is_mask model id = true → ∃ p, x = XFin p ∧ 0 < p) ∧
       (is_mask model id = false → x = CONFIDENCE_OF_KNOWN_TOKENS).
Proof.
  intros H Hid.
  destruct (gen_step_entry _ _ _ _ _ _ _ _ _ _ _ H Hid)
    as (l & drawn & merged & mk & _ & _ & _ & _ & _ & _ & _ & Hr & Hp & _).
  eexists. split; [exact Hp|]. split; intros Hm; rewrite Hm; [|done].
  eexists. split; [done|]. apply softmax_nth_pos. lia.
Qed.

Lemma gen_step_row_lookup {A} (t : list (list A)) (tok : list (list Z))
    b (row : list Z) :
  dims t = dims tok → tok !! b = Some row →
  ∃ trow, t !! b = Some trow ∧ length trow = length row.
Proof.
  intros Hd Hb. pose proof (f_equal (.!! b) Hd) as H. simpl in H.
  unfold dims in H. rewrite !list_lookup_fmap, Hb in H.
  destruct (t !! b) as [trow|]; simplify_eq/=. by exists trow.
Qed.

Lemma gen_step_prob_count slots num_iter ct step tok it b row srow :
  gen_step model rnd slots num_iter ct step tok = Some it →
  tok !! b = Some row →
  it_selected_probs it !! b = Some srow →
  Z.of_nat (length (filter is_prob srow))
  = count_true (is_mask model <$> row).
Proof.
  intros H Hb Hs. unfold count_true. f_equal.
  apply filter_length_pointwise, Forall2_same_length_lookup. split.
  - pose proof (gen_step_dims _ _ _ _ _ _ _ _ H) as (_&_&_& Dp &_).
    destruct (gen_step_row_lookup _ _ _ _ Dp Hb) as (srow' & Hs' & Hlen).
    rewrite length_fmap. congruence.
  - intros i x y Hx Hy. rewrite list_lookup_fmap in Hy.
    destruct (row !! i) as [id|] eqn:Ei; simplify_eq/=.
    destruct (gen_step_selected_probs slots num_iter ct step tok it b i id H)
      as (x' & Hx' & Hmasked & Hknown).
    { unfold tget. by rewrite Hb. }
    unfold tget in Hx'. rewrite Hs in Hx'. simpl in Hx'.
    rewrite Hx in Hx'. injection Hx' as <-.
    destruct (is_mask model id).
    + destruct (Hmasked eq_refl) as (p & -> & Hp). simpl. split; [done|].
      intros _. lra.
    + rewrite (Hknown eq_refl). simpl. split; [done|]. intros [=].
Qed.
End step_confidences.

(** C4, as amended.  A position already resolved entering a pass receives
    the confidence sentinel [+inf]; its perturbed score is [+inf] for every
    noise draw and every temperature, so as long as its row holds at least
    target-count masked positions it is not selected for re-masking and
    keeps its id; for the first batch item, which supplies the target
    count, this is the case whenever one of its positions is masked. *)
Theorem resolved_positions_protected
    {Image Latent Slots Picture} (model : Model Image Latent Slots Picture)
    (rnd : Sampler) slots num_iter ct step tok it b i id row :
  gen_step model rnd slots num_iter ct step tok = Some it →
  tok !! b = Some row →
  row !! i = Some id →
  id ≠ mask_token_label model →
  tget (it_selected_probs it) b i = Some CONFIDENCE_OF_KNOWN_TOKENS ∧
  (∀ temperature noise,
     tget (perturbed (it_selected_probs it) temperature noise) b i
     = Some XPosInf) ∧
  ((it_mask_len it ≤ count_true (is_mask model <$> row))%Z →
     tget (it_masking it) b i = Some false ∧
     tget (it_token_indices it) b i = Some id) ∧
  (b = 0%nat → (1 ≤ count_true (is_mask model <$> row))%Z →
     tget (it_token_indices it) b i = Some id).
Proof.
  intros H Hb Hi Hid.
  assert (Hget : tget tok b i = Some id) by (unfold tget; by rewrite Hb).
  apply is_mask_false in Hid.
  destruct (gen_step_selected_probs model rnd _ _ _ _ _ _ _ _ _ H Hget)
    as (x & Hx & _ & Hknown).
  rewrite (Hknown Hid) in Hx.
  destruct (gen_step_entry _ _ _ _ _ _ _ _ _ _ _ H Hget)
    as (l & drawn & merged & mk & _ & _ & _ & _ & _ & Hm & _ & _ & _ & Hmk & Ht).
  rewrite Hid in Hm. subst merged.
  pose proof (gen_step_inv _ _ _ _ _ _ _ _ H)
    as (_&_&_&_&_&_&_& (row0 & H0 & Hk) & _ & Hmask & _).
  assert (Hkeep : (it_mask_len it ≤ count_true (is_mask model <$> row))%Z →
            tget (it_masking it) b i = Some false ∧
            tget (it_token_indices it) b i = Some id).
  { intros Hle.
    pose proof (gen_step_dims _ _ _ _ _ _ _ _ H) as (_&_&_& Dp &_).
    destruct (gen_step_row_lookup _ _ _ _ Dp Hb) as (srow & Hs & _).
    assert (tget (it_masking it) b i = Some false) as Hfalse.
    { apply (sentinel_kept _ _ _ _ _ _ srow i Hmask Hs).
      - unfold tget in Hx. by rewrite Hs in Hx.
      - rewrite (gen_step_prob_count model rnd _ _ _ _ _ _ _ _ _ H Hb Hs).
        pose proof (masked_count_ge_1 unknown_number_in_the_beginning
                      num_iter step (count_true (is_mask model <$> row0))).
        lia. }
    split; [done|]. rewrite Hfalse in Hmk. injection Hmk as <-. done. }
  split_and!; [done| |done|].
  { intros temperature noise. rewrite tget_perturbed, Hx. simpl option_map.
    cbn [fmap option_fmap option_map]. by rewrite sentinel_perturbed. }
  intros -> Hc. apply Hkeep. rewrite Hb in H0. injection H0 as <-.
  pose proof (masked_count_le_max unknown_number_in_the_beginning
                num_iter step (count_true (is_mask model <$> row))).
  lia.
Qed.

Lemma resolved_positions_protected_witness :
  ∃ it,
    gen_step toy_model toy_sampler 0%nat 12 (9 / 2) 0 [[2024; 5]%Z] = Some it ∧
    tget (it_selected_probs it) 0 1 = Some CONFIDENCE_OF_KNOWN_TOKENS ∧
    (∀ temperature noise,
       tget (perturbed (it_selected_probs it) temperature noise) 0 1
       = Some XPosInf) ∧
    ((it_mask_len it ≤ count_true (is_mask toy_model <$> [2024; 5]%Z))%Z →
       tget (it_masking it) 0 1 = Some false ∧
       tget (it_token_indices it) 0 1 = Some 5%Z) ∧
    (0%nat = 0%nat →
     (1 ≤ count_true (is_mask toy_model <$> [2024; 5]%Z))%Z →
       tget (it_token_indices it) 0 1 = Some 5%Z).
Proof.
  destruct (gen_step_is_Some toy_model toy_sampler toy_decoder_shaped
              0%nat 12 (9 / 2) 0 [[2024; 5]%Z] 1 2) as [it Hit].
  - reflexivity.
  - lia.
  - lia.
  - repeat constructor; unfold codebook_size; simpl; lia.
  - exists it. split; [exact Hit|].
    refine (resolved_positions_protected toy_model toy_sampler 0%nat 12
              (9 / 2) 0 [[2024; 5]%Z] it 0 1 5%Z [2024; 5]%Z Hit eq_refl
              eq_refl _).
    simpl. lia.
Defined.

(** C4, as stated, fails: with one resolved and one masked position, a
    target count of 1 and a nonzero temperature, no noise draw makes the
    policy select the resolved position. *)
Lemma no_noise_remasks_resolved :
  ¬ ∃ g m,
      mask_by_random_topk 1 [[CONFIDENCE_OF_KNOWN_TOKENS; XFin (1 / 2)]]
        (9 / 2) g = Some m ∧
      tget m 0 0 = Some true.
Proof.
  intros (g & m & Hm & Ht).
  rewrite (sentinel_kept 1 _ _ _ _ 0 _ 0 Hm eq_refl eq_refl) in Ht; [done|].
  rewrite filter_cons_False by (simpl; tauto).
  rewrite filter_cons_True by (simpl; lra). simpl. lia.
Qed.

(** ** A grid with no masked position *)

Lemma tensor_eq_tmap {A B} (f : A → B) (s : list (list B)) (t : list (list A)) :
  dims s = dims t →
  (∀ b i x, tget t b i = Some x → tget s b i = Some (f x)) →
  s = tmap f t.
Proof.
  intros Hd H. apply tensor_eq; [by rewrite dims_tmap|].
  intros b i. rewrite tget_tmap.
  destruct (tget t b i) as [x|] eqn:E; simpl; [by apply H|].
  destruct (tget s b i) as [y|] eqn:E'; [|done].
  destruct (tget_dims s t b i Hd) as [x Hx]; [by eexists|congruence].
Qed.

Lemma tmap_id {A} (t : list (list A)) : tmap (λ x, x) t = t.
Proof.
  unfold tmap. rewrite <- (list_fmap_id t) at 2. apply list_fmap_ext.
  intros _ row _. simpl. apply list_fmap_id.
Qed.

Lemma count_true_none row :
  Forall (λ b : bool, b = false) row → count_true row = 0%Z.
Proof.
  intros H. unfold count_true. rewrite filter_none; [done|].
  eapply Forall_impl; [exact H|]. by intros [] ?.
Qed.

Lemma xleb_sentinel : xleb XPosInf XPosInf = true.
Proof. by apply xleb_true. Qed.

(** On a grid with no mask id every confidence is the sentinel, the target
    count is 1 and the selection marks every position. *)
Lemma gen_step_resolved_masking
    {Image Latent Slots Picture} (model : Model Image Latent Slots Picture)
    (rnd : Sampler) slots num_iter ct step tok it b i id :
  gen_step model rnd slots num_iter ct step tok = Some it →
  Forall (Forall (λ id, id ≠ mask_token_label model)) tok →
  tget tok b i = Some id →
  is_mask model id = false ∧ tget (it_masking it) b i = Some true.
Proof.
  intros H Hres Hid.
  pose proof (gen_step_dims _ _ _ _ _ _ _ _ H) as (_ & _ & Ds & Dp & Dm & Dt).
  assert (Hnm : ∀ b i id, tget tok b i = Some id → is_mask model id = false).
  { intros b' i' id' Hid'. apply is_mask_false.
    by apply (proj1 (tForall_tget _ _) Hres b' i'). }
  split; [by eapply Hnm|].
  assert (Hsel : ∀ b i x, tget (it_selected_probs it) b i = Some x →
            x = CONFIDENCE_OF_KNOWN_TOKENS).
  { intros b' i' x Hx.
    destruct (tget_dims (it_selected_probs it) tok b' i' Dp) as [id' Hid'];
      [by eexists|].
    destruct (gen_step_selected_probs model rnd _ _ _ _ _ _ _ _ _ H Hid')
      as (x' & Hx' & _ & Hknown).
    rewrite (Hknown (Hnm _ _ _ Hid')) in Hx'. congruence. }
  pose proof (gen_step_inv _ _ _ _ _ _ _ _ H)
    as (_&_&_&_&_&_&_& (row0 & H0 & Hk) & _ & Hmask & _).
  rewrite masked_count_resolved in Hk.
  2:{ rewrite count_true_none; [lia|]. apply Forall_fmap, Forall_forall.
      intros id' Hin. simpl. apply list_elem_of_lookup in Hin as [j Hj].
      apply (Hnm 0%nat j). unfold tget. by rewrite H0. }
  rewrite Hk in Hmask.
  destruct (tget_dims tok (it_selected_probs it) b i) as [x Hx];
    [done|by eexists|].
  unfold tget in Hx.
  destruct (it_selected_probs it !! b) as [srow|] eqn:Es; simplify_eq/=.
  set (conf := imap (λ i p, xadd (xlog p)
                 (it_temperature it * gumbel rnd step b i)) srow).
  destruct (mask_by_random_topk_row _ _ _ _ _ b conf Hmask)
    as (c & Hc & Hmb).
  { by rewrite perturbed_lookup, Es. }
  { unfold conf. rewrite length_imap.
    apply lookup_lt_Some in Hx. lia. }
  assert (Hconf : ∀ j y, conf !! j = Some y → y = XPosInf).
  { intros j y Hy. unfold conf in Hy. rewrite list_lookup_imap in Hy.
    destruct (srow !! j) as [p|] eqn:Ej; simplify_eq/=.
    rewrite (Hsel b j p); [done|]. unfold tget. by rewrite Es. }
  apply sort_row_elem, list_elem_of_lookup in Hc as [j Hj].
  apply Hconf in Hj as ->.
  unfold tget. rewrite Hmb. simpl. rewrite list_lookup_fmap.
  destruct (conf !! i) as [y|] eqn:Ei.
  - rewrite (Hconf i y Ei). simpl. by rewrite xleb_sentinel.
  - apply lookup_ge_None in Ei. unfold conf in Ei.
    rewrite length_imap in Ei. apply lookup_lt_Some in Hx. lia.
Qed.

(** C5, as amended.  One pass on a grid with no mask id: the merge keeps
    every id, so the merged ids of the pass (the ones a decode after this
    pass would use) are the grid before it; the remasking selection, whose
    target count is at least 1 and whose confidences all equal the
    sentinel, then marks every position, so the grid carried to the next
    pass holds the mask id everywhere. *)
Theorem resolved_grid_through_one_pass
    {Image Latent Slots Picture} (model : Model Image Latent Slots Picture)
    (rnd : Sampler) slots num_iter ct step tok it :
  gen_step model rnd slots num_iter ct step tok = Some it →
  Forall (Forall (λ id, id ≠ mask_token_label model)) tok →
  it_sampled_ids it = tok ∧
  it_token_indices it = tmap (λ _, mask_token_label model) tok.
Proof.
  intros H Hres.
  pose proof (gen_step_dims _ _ _ _ _ _ _ _ H) as (_ & _ & Ds & _ & _ & Dt).
  split.
  - rewrite <- (tmap_id tok). apply tensor_eq_tmap; [done|].
    intros b i id Hid.
    destruct (gen_step_resolved_masking model rnd _ _ _ _ _ _ _ _ _ H Hres Hid)
      as [Hnm _].
    destruct (gen_step_entry _ _ _ _ _ _ _ _ _ _ _ H Hid)
      as (l & drawn & merged & mk & _ & _ & _ & _ & _ & Hm & Hs & _).
    rewrite Hnm in Hm. congruence.
  - apply tensor_eq_tmap; [done|]. intros b i id Hid.
    destruct (gen_step_resolved_masking model rnd _ _ _ _ _ _ _ _ _ H Hres Hid)
      as [_ Hall].
    destruct (gen_step_entry _ _ _ _ _ _ _ _ _ _ _ H Hid)
      as (l & drawn & merged & mk & _ & _ & _ & _ & _ & _ & _ & _ & _
          & Hmk & Ht).
    rewrite Hall in Hmk. injection Hmk as <-. done.
Qed.

Lemma toy_resolved_grid_runs :
  ∃ it, gen_step toy_model toy_sampler 0%nat 12 (9 / 2) 0 [[5; 7]%Z] = Some it.
Proof.
  apply (gen_step_is_Some toy_model toy_sampler toy_decoder_shaped
           0%nat 12 (9 / 2) 0 [[5; 7]%Z] 1 2).
  - reflexivity.
  - lia.
  - lia.
  - repeat constructor; unfold codebook_size; simpl; lia.
Qed.

Lemma toy_resolved_grid_has_no_mask :
  Forall (Forall (λ id, id ≠ mask_token_label toy_model)) [[5; 7]%Z].
Proof. repeat constructor; simpl; lia. Qed.

Lemma resolved_grid_through_one_pass_witness :
  ∃ it,
    gen_step toy_model toy_sampler 0%nat 12 (9 / 2) 0 [[5; 7]%Z] = Some it ∧
    Forall (Forall (λ id, id ≠ mask_token_label toy_model)) [[5; 7]%Z] ∧
    it_sampled_ids it = [[5; 7]%Z] ∧
    it_token_indices it
    = tmap (λ _, mask_token_label toy_model) [[5; 7]%Z].
Proof.
  destruct toy_resolved_grid_runs as [it Hit].
  exists it. split; [exact Hit|].
  split; [exact toy_resolved_grid_has_no_mask|].
  exact (resolved_grid_through_one_pass toy_model toy_sampler 0%nat 12
           (9 / 2) 0 [[5; 7]%Z] it Hit toy_resolved_grid_has_no_mask).
Defined.

(** C5, as stated, fails: a grid holding the codebook ids 5 and 7 comes out
    of one pass of the small model with the mask id at its first position. *)
Lemma resolved_grid_is_remasked :
  ∃ it,
    gen_step toy_model toy_sampler 0%nat 12 (9 / 2) 0 [[5; 7]%Z] = Some it ∧
    tget (it_token_indices it) 0 0 = Some 2024%Z ∧
    it_token_indices it ≠ [[5; 7]%Z].
Proof.
  destruct toy_resolved_grid_runs as [it Hit].
  exists it. split; [exact Hit|].
  assert (Hid : tget [[5; 7]%Z] 0 0 = Some 5%Z) by reflexivity.
  destruct (gen_step_resolved_masking toy_model toy_sampler _ _ _ _ _ _ _ _ _
              Hit toy_resolved_grid_has_no_mask Hid) as [_ Hall].
  destruct (gen_step_entry _ _ _ _ _ _ _ _ _ _ _ Hit Hid)
    as (l & drawn & merged & mk & _ & _ & _ & _ & _ & _ & _ & _ & _
        & Hmk & Ht).
  rewrite Hall in Hmk. injection Hmk as <-.
  split; [exact Ht|]. intros Heq. rewrite Heq in Ht. discriminate.
Qed.

(** ** What the last pass leaves *)

Section final_pass.
Context {Image Latent Slots Picture : Type}.
Variable model : Model Image Latent Slots Picture.
Variable rnd : Sampler.

Lemma gen_step_mask_len_bounds slots num_iter ct step tok it B L :
  gen_step model rnd slots num_iter ct step tok = Some it →
  dims tok = replicate B L → (0 < L)%nat →
  (1 ≤ it_mask_len it ≤ Z.of_nat L)%Z.
Proof.
  intros H Hd HL.
  pose proof (gen_step_inv _ _ _ _ _ _ _ _ H)
    as (_&_&_&_&_&_&_& (row0 & H0 & Hk) & _).
  pose proof (count_true_bounds (is_mask model <$> row0)) as Hc.
  rewrite length_fmap, (dims_replicate_lookup tok B L 0 row0 Hd H0) in Hc.
  pose proof (masked_count_ge_1 unknown_number_in_the_beginning num_iter
                step (count_true (is_mask model <$> row0))).
  pose proof (masked_count_le_max unknown_number_in_the_beginning num_iter
                step (count_true (is_mask model <$> row0))).
  lia.
Qed.

(** After the selection every row holds the mask id at least once: the
    position that carries the cut-off is marked. *)
Lemma gen_step_leaves_mask slots num_iter ct step tok it B L trow :
  gen_step model rnd slots num_iter ct step tok = Some it →
  dims tok = replicate B L → (0 < L)%nat →
  trow ∈ it_token_indices it →
  mask_token_label model ∈ trow.
Proof.
  intros H Hd HL Hin. apply list_elem_of_lookup in Hin as [b Hb].
  pose proof (gen_step_dims _ _ _ _ _ _ _ _ H) as (_ & _ & _ & Dp & _ & Dt).
  pose proof (gen_step_mask_len_bounds _ _ _ _ _ _ _ _ H Hd HL) as Hk.
  pose proof (gen_step_inv _ _ _ _ _ _ _ _ H)
    as (_&_&_&_&_&_&_&_&_& Hmask & _).
  destruct (gen_step_row_lookup tok (it_token_indices it) b trow)
    as (row & Hrow & Hlen); [done|done|].
  destruct (gen_step_row_lookup (it_selected_probs it) tok b row)
    as (srow & Hsrow & Hslen); [done|done|].
  pose proof (dims_replicate_lookup tok B L b row Hd Hrow) as HrowL.
  set (conf := imap (λ i p, xadd (xlog p)
                 (it_temperature it * gumbel rnd step b i)) srow).
  destruct (mask_by_random_topk_row _ _ _ _ _ b conf Hmask)
    as (c & Hc & Hmb).
  { by rewrite perturbed_lookup, Hsrow. }
  { unfold conf. rewrite length_imap. lia. }
  apply sort_row_elem, list_elem_of_lookup in Hc as [j Hj].
  assert (Hjs : ∃ p, srow !! j = Some p ∧
                     c = xadd (xlog p) (it_temperature it * gumbel rnd step b j)).
  { unfold conf in Hj. rewrite list_lookup_imap in Hj.
    destruct (srow !! j) as [p|]; simplify_eq/=. by exists p. }
  destruct Hjs as (p & Hp & Hcp).
  destruct (lookup_lt_is_Some_2 row j) as [id Hid].
  { apply lookup_lt_Some in Hp. lia. }
  assert (Hget : tget tok b j = Some id) by (unfold tget; by rewrite Hrow).
  destruct (gen_step_selected_probs model rnd _ _ _ _ _ _ _ _ _ H Hget)
    as (x & Hx & Hmasked & Hknown).
  unfold tget in Hx. rewrite Hsrow in Hx. simpl in Hx.
  rewrite Hp in Hx. injection Hx as ->.
  assert (Hcc : xleb c c = true).
  { apply xleb_true, xle_refl. rewrite Hcp.
    destruct (is_mask model id).
    - destruct (Hmasked eq_refl) as (q & -> & Hq). simpl.
      rewrite !decide_False by lra. done.
    - by rewrite (Hknown eq_refl). }
  destruct (gen_step_entry _ _ _ _ _ _ _ _ _ _ _ H Hget)
    as (l & drawn & merged & mk & _ & _ & _ & _ & _ & _ & _ & _ & _
        & Hmk & Ht).
  unfold tget in Hmk. rewrite Hmb in Hmk. simpl in Hmk.
  rewrite list_lookup_fmap, Hj in Hmk. simpl in Hmk.
  rewrite Hcc in Hmk. injection Hmk as <-.
  unfold tget in Ht. rewrite Hb in Ht. simpl in Ht.
  by eapply list_elem_of_lookup_2.
Qed.
End final_pass.

(** C10.  In a run of [gen_image] the ids handed to the codec after the
    loop are the merged ids of the last pass, as they were before that
    pass's remasking; every one of them is a codebook entry and none is the
    mask id, while the [token_indices] state the last remasking leaves
    holds the mask id in every row. *)
Theorem decoded_ids_are_codebook_entries
    {Image Latent Slots Picture} (model : Model Image Latent Slots Picture)
    (rnd : Sampler) image bsz num_iter ct its ids :
  (Z.of_nat codebook_size ≤ mask_token_label model)%Z →
  gen_image_iterations model rnd image bsz num_iter ct = Some its →
  decoded_ids its = Some ids →
  gen_image model rnd image bsz num_iter ct
  = Some (vqgan_decode model ids) ∧
  ∃ it, last its = Some it ∧
        ids = it_sampled_ids it ∧
        where_l (it_masking it) (mask_token_label model) ids
        = Some (it_token_indices it) ∧
        Forall (Forall (λ id, (0 ≤ id < Z.of_nat codebook_size)%Z ∧
                              id ≠ mask_token_label model)) ids ∧
        Forall (λ row, mask_token_label model ∈ row) (it_token_indices it).
Proof.
  intros Hmask H Hids. split.
  { unfold gen_image. rewrite H. simpl. by rewrite Hids. }
  unfold decoded_ids in Hids.
  destruct (last its) as [it|] eqn:Elast; simplify_eq/=.
  exists it. split; [done|]. split; [done|].
  rewrite last_lookup in Elast.
  destruct (gen_image_iterations_lookup _ _ _ _ _ _ _ _ _ H Elast)
    as (_ & E & Hd & Hv).
  pose proof (gen_step_inv _ _ _ _ _ _ _ _ E) as (_&_&_&_&_&_&_&_&_&_& Hw).
  split; [done|]. split.
  - destruct (gen_step_valid _ _ _ _ _ _ _ _ E Hv) as [_ Hrange].
    eapply Forall_impl; [exact Hrange|]. intros row Hrow. simpl.
    eapply Forall_impl; [exact Hrow|]. intros id Hid. simpl in *. lia.
  - apply Forall_forall. intros trow Hin.
    eapply (gen_step_leaves_mask model rnd); [exact E|exact Hd| |exact Hin].
    unfold unknown_number_in_the_beginning. lia.
Qed.

Lemma decoded_ids_are_codebook_entries_witness :
  ∃ its ids,
    (Z.of_nat codebook_size ≤ mask_token_label toy_model)%Z ∧
    gen_image_iterations toy_model toy_sampler () 1 2 (9 / 2) = Some its ∧
    decoded_ids its = Some ids ∧
    gen_image toy_model toy_sampler () 1 2 (9 / 2)
    = Some (vqgan_decode toy_model ids) ∧
    ∃ it, last its = Some it ∧
          ids = it_sampled_ids it ∧
          where_l (it_masking it) (mask_token_label toy_model) ids
          = Some (it_token_indices it) ∧
          Forall (Forall (λ id, (0 ≤ id < Z.of_nat codebook_size)%Z ∧
                                id ≠ mask_token_label toy_model)) ids ∧
          Forall (λ row, mask_token_label toy_model ∈ row)
            (it_token_indices it).
Proof.
  assert (Hmask : (Z.of_nat codebook_size ≤ mask_token_label toy_model)%Z).
  { unfold codebook_size. simpl. lia. }
  destruct (gen_image_iterations_is_Some toy_model toy_sampler () 1 2 (9 / 2)
              toy_decoder_shaped ltac:(lia)) as (its & Hits & Hlen).
  destruct (decoded_ids its) as [ids|] eqn:Eids.
  - exists its, ids. split; [exact Hmask|]. split; [exact Hits|].
    split; [exact Eids|].
    exact (decoded_ids_are_codebook_entries toy_model toy_sampler () 1 2
             (9 / 2) its ids Hmask Hits Eids).
  - exfalso. unfold decoded_ids in Eids. rewrite last_lookup in Eids.
    destruct (lookup_lt_is_Some_2 its (pred (length its))) as [it Hit];
      [lia|].
    rewrite Hit in Eids. discriminate.
Defined.

(** ** The attention normalisation *)

Lemma Rsum_div l s : Rsum ((λ a, a / s) <$> l) = Rsum l / s.
Proof.
  induction l as [|x l IH].
  - simpl. unfold Rdiv. ring.
  - rewrite fmap_cons. unfold Rsum in *. cbn [foldr].
    rewrite IH. unfold Rdiv. ring.
Qed.

Lemma normalised_row_sum row :
  Rsum row ≠ 0 → Rsum ((λ a, a / Rsum row) <$> row) = 1.
Proof. intros H. rewrite Rsum_div. by field. Qed.

Lemma madd_pos m1 m2 :
  Forall (Forall (λ a, 0 < a)) m1 → Forall (Forall (λ a, 0 < a)) m2 →
  Forall (Forall (λ a, 0 < a)) (madd m1 m2).
Proof.
  intros H1. revert m2. induction H1 as [|r1 m1 Hr1 _ IH]; intros m2 H2.
  - constructor.
  - destruct H2 as [|r2 m2 Hr2 H2]; [constructor|].
    unfold madd in *. simpl. constructor; [|by apply IH].
    clear -Hr1 Hr2. revert r2 Hr2.
    induction Hr1 as [|a r1 Ha _ IHr]; intros r2 Hr2; [constructor|].
    destruct Hr2 as [|b r2 Hb Hr2]; [constructor|].
    simpl. constructor; [lra|by apply IHr].
Qed.

Lemma sum_heads_pos heads :
  Forall (Forall (Forall (λ a, 0 < a))) heads →
  Forall (Forall (λ a, 0 < a)) (sum_heads heads).
Proof.
  intros H. destruct H as [|h hs Hh Hhs]; [constructor|]. simpl.
  revert h Hh. induction Hhs as [|h' hs Hh' _ IH]; intros h Hh; [done|].
  simpl. apply IH. by apply madd_pos.
Qed.

Lemma attention_weights_pos scores :
  Forall (λ a, 0 < a) (attention_weights scores).
Proof. apply softmax_pos. Qed.

Lemma attention_pos scores b item :
  attention scores !! b = Some item →
  Forall (Forall (Forall (λ a, 0 < a))) item.
Proof.
  unfold attention. rewrite list_lookup_fmap.
  destruct (scores !! b) as [sitem|]; intros; simplify_eq/=.
  apply Forall_fmap, Forall_forall. intros head _. simpl.
  apply Forall_fmap, Forall_forall. intros row _. simpl.
  apply attention_weights_pos.
Qed.

(** Rows of positive entries are normalised to sum 1. *)
Lemma normalized_atts_slots_sum epsilon atts b m i row :
  0 <= epsilon →
  (∀ item, atts !! b = Some item →
     Forall (Forall (λ a, 0 < a)) (sum_heads item)) →
  normalized_atts_slots epsilon atts !! b = Some m →
  m !! i = Some row →
  row ≠ [] →
  Rsum row = 1.
Proof.
  intros Heps Hpos Hm Hrow Hne. unfold normalized_atts_slots, tmap in Hm.
  rewrite !list_lookup_fmap in Hm.
  destruct (atts !! b) as [item|]; simplify_eq/=.
  specialize (Hpos item eq_refl).
  rewrite !list_lookup_fmap, lookup_drop in Hrow.
  destruct (sum_heads item !! (8 + i)%nat) as [srow|] eqn:Es; simplify_eq/=.
  assert (Hs : Forall (λ a, 0 < a) srow).
  { by eapply (proj1 (Forall_lookup _ _) Hpos). }
  set (erow := (λ a, a + epsilon) <$> take 7 srow) in *.
  apply normalised_row_sum.
  assert (0 < Rsum erow); [|lra].
  apply Rsum_pos.
  - apply Forall_fmap, Forall_take. eapply Forall_impl; [exact Hs|].
    intros a Ha. simpl in *. lra.
  - intros E. apply Hne. by rewrite E.
Qed.

(** C8.  The slot-assignment matrix that [forward_decoder] builds from the
    attention weights of the last block: in every row (one token position)
    the weights over the slots sum to 1, for all attention scores. *)
Theorem slot_assignment_rows_sum_to_one epsilon scores b m i row :
  0 <= epsilon →
  normalized_atts_slots epsilon (attention scores) !! b = Some m →
  m !! i = Some row →
  row ≠ [] →
  Rsum row = 1.
Proof.
  intros Heps Hm Hrow Hne.
  apply (normalized_atts_slots_sum epsilon (attention scores) b m i row);
    try done.
  intros item Hitem. apply sum_heads_pos. by eapply attention_pos.
Qed.

Lemma slot_assignment_rows_sum_to_one_witness :
  ∃ m row,
    0 <= epsilon_default ∧
    normalized_atts_slots epsilon_default
      (attention [[replicate 9 (replicate 9 0)]]) !! 0%nat = Some m ∧
    m !! 0%nat = Some row ∧
    row ≠ [] ∧
    Rsum row = 1.
Proof.
  assert (Heps : 0 <= epsilon_default).
  { unfold epsilon_default. apply Rlt_le, Rdiv_lt_0_compat; [lra|].
    apply pow_lt. lra. }
  eexists. eexists. split; [exact Heps|].
  assert (Hm : normalized_atts_slots epsilon_default
                 (attention [[replicate 9 (replicate 9 0)]]) !! 0%nat
               = Some _) by reflexivity.
  assert (Hrow : ∀ m, normalized_atts_slots epsilon_default
                 (attention [[replicate 9 (replicate 9 0)]]) !! 0%nat
               = Some m → m !! 0%nat = Some (default [] (m !! 0%nat)) ∧
                          default [] (m !! 0%nat) ≠ []).
  { intros m [= <-]. split; [reflexivity|discriminate]. }
  destruct (Hrow _ Hm) as [Hr Hne].
  split; [exact Hm|]. split; [exact Hr|]. split; [exact Hne|].
  exact (slot_assignment_rows_sum_to_one epsilon_default
           [[replicate 9 (replicate 9 0)]] 0 _ 0 _ Heps Hm Hr Hne).
Defined.

(** * Further properties of the loop *)

(** ** The schedule *)

Lemma ratio_bounds num_iter step :
  (step < num_iter)%nat → 0 < ratio num_iter step <= 1.
Proof.
  intros H. unfold ratio.
  assert (0 < INR num_iter) by (apply lt_0_INR; lia).
  assert (0 < INR (step + 1)) by (apply lt_0_INR; lia).
  assert (INR (step + 1) <= INR num_iter) by (apply le_INR; lia).
  split.
  - apply Rdiv_lt_0_compat; lra.
  - apply (Rmult_le_reg_r (INR num_iter)); [done|]. field_simplify; lra.
Qed.

Lemma ratio_mono num_iter step step' :
  (step ≤ step')%nat → (0 < num_iter)%nat →
  ratio num_iter step <= ratio num_iter step'.
Proof.
  intros H HT. unfold ratio.
  assert (0 < INR num_iter) by (apply lt_0_INR; lia).
  assert (INR (step + 1) <= INR (step' + 1)) by (apply le_INR; lia).
  apply (Rmult_le_reg_r (INR num_iter)); [done|]. field_simplify; lra.
Qed.

(** X1.  While the loop runs (step below [num_iter]) the mask ratio of the
    cosine schedule lies in [0, 1), it does not grow from one step to a
    later one, and the number floor(256 mask_ratio) it yields lies in
    [0, 255]: the first pass already has to resolve a position. *)
Theorem cosine_schedule_decays num_iter step step' :
  (step ≤ step')%nat → (step' < num_iter)%nat →
  0 <= mask_ratio num_iter step < 1 ∧
  mask_ratio num_iter step' <= mask_ratio num_iter step ∧
  (0 ≤ Zfloor (IZR unknown_number_in_the_beginning * mask_ratio num_iter step)
     ≤ 255)%Z.
Proof.
  intros Hle Hlt.
  pose proof (ratio_bounds num_iter step ltac:(lia)) as [Hr0 Hr1].
  pose proof (ratio_bounds num_iter step' ltac:(lia)) as [Hr0' Hr1'].
  pose proof (ratio_mono num_iter step step' Hle ltac:(lia)) as Hm.
  pose proof PI_RGT_0 as Hpi.
  assert (H0 : 0 <= mask_ratio num_iter step).
  { unfold mask_ratio. apply cos_ge_0; nra. }
  assert (H1 : mask_ratio num_iter step < 1).
  { unfold mask_ratio. rewrite <- cos_0. apply cos_decreasing_1; nra. }
  split; [done|]. split.
  - unfold mask_ratio. apply cos_decr_1; nra.
  - unfold unknown_number_in_the_beginning.
    pose proof (Zfloor_bound (256 * mask_ratio num_iter step)) as [Hf1 Hf2].
    split.
    + apply (Zfloor_lub 0). simpl. nra.
    + assert (IZR (Zfloor (256 * mask_ratio num_iter step)) < 256) by nra.
      apply lt_IZR in H. lia.
Qed.

Lemma cosine_schedule_decays_witness :
  (0 ≤ 5)%nat ∧ (5 < 12)%nat ∧
  0 <= mask_ratio 12 0 < 1 ∧
  mask_ratio 12 5 <= mask_ratio 12 0 ∧
  (0 ≤ Zfloor (IZR unknown_number_in_the_beginning * mask_ratio 12 0)
     ≤ 255)%Z.
Proof.
  assert (H1 : (0 ≤ 5)%nat) by lia. assert (H2 : (5 < 12)%nat) by lia.
  split; [exact H1|]. split; [exact H2|].
  exact (cosine_schedule_decays 12 0 5 H1 H2).
Defined.

(** ** Runs: success, failure, and the state of every pass *)

(** X2.  With a decoder that answers in the shape [forward_decoder] has, a
    batch of at least one item and at least one iteration, [gen_image]
    returns a picture: no shape mismatch, no index out of range and no empty
    cut-off slice arises, the loop makes exactly [num_iter] passes and the
    picture is the decoding of the merged ids of the last one. *)
Theorem gen_image_returns
    {Image Latent Slots Picture} (model : Model Image Latent Slots Picture)
    (rnd : Sampler) image bsz num_iter ct :
  decoder_shaped model → (0 < bsz)%nat → (0 < num_iter)%nat →
  ∃ its it,
    gen_image_iterations model rnd image bsz num_iter ct = Some its ∧
    length its = num_iter ∧
    last its = Some it ∧
    gen_image model rnd image bsz num_iter ct
    = Some (vqgan_decode model (it_sampled_ids it)).
Proof.
  intros Hdec Hb HT.
  destruct (gen_image_iterations_is_Some model rnd image bsz num_iter ct
              Hdec Hb) as (its & Hits & Hlen).
  destruct (lookup_lt_is_Some_2 its (pred (length its))) as [it Hit]; [lia|].
  rewrite <- last_lookup in Hit.
  exists its, it. split_and!; try done.
  unfold gen_image, decoded_ids. rewrite Hits. simpl. by rewrite Hit.
Qed.

Lemma gen_image_returns_witness :
  ∃ its it,
    gen_image_iterations toy_model toy_sampler () 2 3 (9 / 2) = Some its ∧
    length its = 3%nat ∧
    last its = Some it ∧
    gen_image toy_model toy_sampler () 2 3 (9 / 2)
    = Some (vqgan_decode toy_model (it_sampled_ids it)).
Proof.
  exact (gen_image_returns toy_model toy_sampler () 2 3 (9 / 2)
           toy_decoder_shaped ltac:(lia) ltac:(lia)).
Defined.

Lemma gen_step_empty_batch
    {Image Latent Slots Picture} (model : Model Image Latent Slots Picture)
    (rnd : Sampler) slots num_iter ct step :
  gen_step model rnd slots num_iter ct step [] = None.
Proof.
  destruct (gen_step model rnd slots num_iter ct step []) as [it|] eqn:E;
    [|done].
  apply gen_step_inv in E as (_&_&_&_&_&_&_& (row0 & H0 & _) & _). done.
Qed.

(** X3.  [gen_image] does not return when there is nothing to iterate on:
    with [num_iter = 0] the name [sampled_ids] is unbound after the loop,
    and with an empty batch the first pass fails for want of [mask_len[0]]
    at the latest.  This holds whatever the networks answer. *)
Theorem gen_image_needs_a_pass_and_an_item
    {Image Latent Slots Picture} (model : Model Image Latent Slots Picture)
    (rnd : Sampler) image bsz num_iter ct :
  num_iter = 0%nat ∨ bsz = 0%nat →
  gen_image model rnd image bsz num_iter ct = None.
Proof.
  intros [-> | ->].
  - reflexivity.
  - destruct num_iter as [|n]; [reflexivity|].
    unfold gen_image, gen_image_iterations, initial_token_indices.
    cbn [replicate seq gen_loop]. by rewrite gen_step_empty_batch.
Qed.

Lemma gen_image_needs_a_pass_and_an_item_witness :
  (12 = 0 ∨ 0 = 0)%nat ∧
  gen_image toy_model toy_sampler () 0 12 (9 / 2) = None.
Proof.
  assert (H : (12 = 0 ∨ 0 = 0)%nat) by (right; reflexivity).
  split; [exact H|].
  exact (gen_image_needs_a_pass_and_an_item toy_model toy_sampler () 0 12
           (9 / 2) H).
Defined.

(** X4.  The state of every pass of a run: the grid entering the pass and
    the grid leaving it have [bsz] rows of 256 ids, each id the mask id or
    a codebook entry; the sequence handed to the embedder is the entering
    grid with the class label put in front of every row, so every embedded
    id is the class label, the mask id or a codebook entry. *)
Theorem every_pass_state
    {Image Latent Slots Picture} (model : Model Image Latent Slots Picture)
    (rnd : Sampler) image bsz num_iter ct its t it :
  gen_image_iterations model rnd image bsz num_iter ct = Some its →
  its !! t = Some it →
  let seq_ids := (λ row, fake_class_label model :: row) <$> it_cur_ids it in
  dims (it_cur_ids it) = replicate bsz 256%nat ∧
  valid_ids (mask_token_label model) (it_cur_ids it) ∧
  dims (it_token_indices it) = replicate bsz 256%nat ∧
  valid_ids (mask_token_label model) (it_token_indices it) ∧
  it_x it = encode model seq_ids ∧
  Forall (λ row, head row = Some (fake_class_label model) ∧
                 length row = 257%nat ∧
                 Forall (λ id, id = fake_class_label model ∨
                               valid_id (mask_token_label model) id) row)
    seq_ids.
Proof.
  intros H Ht seq_ids.
  destruct (gen_image_iterations_lookup _ _ _ _ _ _ _ _ _ H Ht)
    as (_ & E & Hd & Hv).
  change (Z.to_nat unknown_number_in_the_beginning) with 256%nat in Hd.
  pose proof (gen_step_dims _ _ _ _ _ _ _ _ E) as (_&_&_&_&_& Dt).
  destruct (gen_step_valid _ _ _ _ _ _ _ _ E Hv) as [Hv' _].
  pose proof (gen_step_inv _ _ _ _ _ _ _ _ E) as (_ & Hx & _).
  split_and!; try done; [congruence|].
  apply Forall_fmap, Forall_lookup. intros b row Hb. simpl.
  split_and!.
  - done.
  - by rewrite (dims_replicate_lookup _ _ _ _ _ Hd Hb).
  - constructor; [by left|].
    eapply Forall_impl;
      [exact (proj1 (Forall_lookup _ _) Hv b row Hb)|].
    intros id Hid. by right.
Qed.

Lemma every_pass_state_witness :
  ∃ its it,
    gen_image_iterations toy_model toy_sampler () 2 3 (9 / 2) = Some its ∧
    its !! 1%nat = Some it ∧
    let seq_ids :=
      (λ row, fake_class_label toy_model :: row) <$> it_cur_ids it in
    dims (it_cur_ids it) = replicate 2 256%nat ∧
    valid_ids (mask_token_label toy_model) (it_cur_ids it) ∧
    dims (it_token_indices it) = replicate 2 256%nat ∧
    valid_ids (mask_token_label toy_model) (it_token_indices it) ∧
    it_x it = encode toy_model seq_ids ∧
    Forall (λ row, head row = Some (fake_class_label toy_model) ∧
                   length row = 257%nat ∧
                   Forall (λ id, id = fake_class_label toy_model ∨
                                 valid_id (mask_token_label toy_model) id)
                     row)
      seq_ids.
Proof.
  destruct (gen_image_iterations_is_Some toy_model toy_sampler () 2 3 (9 / 2)
              toy_decoder_shaped ltac:(lia)) as (its & Hits & Hlen).
  destruct (lookup_lt_is_Some_2 its 1) as [it Hit]; [lia|].
  exists its, it. split; [exact Hits|]. split; [exact Hit|].
  exact (every_pass_state toy_model toy_sampler () 2 3 (9 / 2) its 1 it
           Hits Hit).
Defined.

(** X5.  The last pass of a run of [num_iter] iterations calls the
    remasking policy at temperature 0 and with target count 1, whatever the
    base temperature and the state: the noise plays no part in the last
    remasking, and the state it leaves still asks for one masked position
    per row. *)
Theorem last_pass_is_cold
    {Image Latent Slots Picture} (model : Model Image Latent Slots Picture)
    (rnd : Sampler) image bsz num_iter ct its it :
  gen_image_iterations model rnd image bsz num_iter ct = Some its →
  last its = Some it →
  its !! (num_iter - 1)%nat = Some it ∧
  it_temperature it = 0 ∧
  it_mask_len it = 1%Z.
Proof.
  intros H Hlast. rewrite last_lookup in Hlast.
  destruct (gen_image_iterations_lookup _ _ _ _ _ _ _ _ _ H Hlast)
    as (Hlt & E & _).
  assert (Hlen : length its = num_iter).
  { unfold gen_image_iterations in H.
    rewrite (gen_loop_length _ _ _ _ _ _ _ _ H). apply length_seq. }
  rewrite Hlen in *. replace (pred num_iter) with (num_iter - 1)%nat in * by lia.
  apply gen_step_inv in E as (_&_&_&_&_&_&_& (row0 & _ & Hk) & Htemp & _).
  split; [done|]. split.
  - rewrite Htemp, ratio_last by lia. ring.
  - rewrite Hk. unfold masked_count. rewrite mask_ratio_last by lia.
    rewrite Rmult_0_r, (ZfloorZ 0).
    pose proof (count_true_bounds (is_mask model <$> row0)). lia.
Qed.

Lemma last_pass_is_cold_witness :
  ∃ its it,
    gen_image_iterations toy_model toy_sampler () 1 3 (9 / 2) = Some its ∧
    last its = Some it ∧
    its !! (3 - 1)%nat = Some it ∧
    it_temperature it = 0 ∧
    it_mask_len it = 1%Z.
Proof.
  destruct (gen_image_returns toy_model toy_sampler () 1 3 (9 / 2)
              toy_decoder_shaped ltac:(lia) ltac:(lia))
    as (its & it & Hits & _ & Hlast & _).
  exists its, it. split; [exact Hits|]. split; [exact Hlast|].
  exact (last_pass_is_cold toy_model toy_sampler () 1 3 (9 / 2) its it
           Hits Hlast).
Defined.

(** ** How many positions the policy masks *)

Lemma sort_le_to_xle x c : c ≠ XNaN → sort_le x c → xle x c ∧ x ≠ XNaN.
Proof. destruct x, c; simpl; try done; tauto. Qed.

Lemma sorted_count_ge l j c :
  StronglySorted sort_le l → l !! j = Some c → c ≠ XNaN →
  (S j ≤ length (filter (λ x, xle x c) l))%nat.
Proof.
  intros Hs. revert j. induction Hs as [|x l Hs IH Hx]; intros j Hj Hc.
  - done.
  - destruct j as [|j]; simplify_eq/=.
    + rewrite filter_cons_True by (by apply xle_refl). simpl. lia.
    + assert (xle x c) as Hxc.
      { apply sort_le_to_xle; [done|].
        apply (proj1 (Forall_forall _ _) Hx).
        by eapply list_elem_of_lookup_2. }
      rewrite filter_cons_True by done. simpl.
      specialize (IH j Hj Hc). lia.
Qed.

Lemma sorted_count_le l j c :
  StronglySorted sort_le l → NoDup l → l !! j = Some c →
  (length (filter (λ x, xle x c) l) ≤ S j)%nat.
Proof.
  intros Hs. revert j. induction Hs as [|x l Hs IH Hx]; intros j Hnd Hj.
  - done.
  - apply NoDup_cons in Hnd as [Hnin Hnd].
    destruct j as [|j]; simplify_eq/=.
    + assert (filter (λ x, xle x c) l = []) as Hnil.
      { apply filter_none, Forall_forall. intros y Hy Hyc.
        pose proof (proj1 (Forall_forall _ _) Hx y Hy) as Hcy.
        assert (y = c); [|by subst].
        apply (anti_symm sort_le); [|done].
        destruct y, c; simpl in *; tauto. }
      destruct (decide (xle c c)).
      * rewrite filter_cons_True, Hnil by done. simpl. lia.
      * rewrite filter_cons_False, Hnil by done. simpl. lia.
    + specialize (IH j Hnd Hj).
      destruct (decide (xle x c)).
      * rewrite filter_cons_True by done. simpl. lia.
      * rewrite filter_cons_False by done. lia.
Qed.

Lemma count_true_xleb c (conf : list xreal) :
  count_true ((λ x, xleb x c) <$> conf)
  = Z.of_nat (length (filter (λ x, xle x c) conf)).
Proof.
  unfold count_true. f_equal. apply filter_length_pointwise.
  apply Forall2_fmap_l, Forall_Forall2_diag, Forall_forall.
  intros x _. apply xleb_true.
Qed.

Lemma perturbed_row_not_nan row temp (g : nat → R) :
  Forall is_confidence row →
  Forall (λ x, x ≠ XNaN) (imap (λ i p, xadd (xlog p) (temp * g i)) row).
Proof.
  intros H. apply Forall_lookup. intros i x Hx.
  rewrite list_lookup_imap in Hx.
  destruct (row !! i) as [p|] eqn:Ei; simplify_eq/=.
  pose proof (xlog_confidence_not_nan p
                (proj1 (Forall_lookup _ _) H i p Ei)) as Hp.
  by destruct (xlog p).
Qed.

(** The count of scores at or below the score of rank [k] in a row. *)
Lemma topk_row_count (conf : list xreal) k c :
  sort_row conf !! Z.to_nat (k - 1) = Some c → (1 ≤ k)%Z → c ≠ XNaN →
  (k ≤ count_true ((λ x, xleb x c) <$> conf))%Z ∧
  (NoDup conf → count_true ((λ x, xleb x c) <$> conf) = k).
Proof.
  intros Hc Hk Hnan. rewrite count_true_xleb.
  assert (Hlen : length (filter (λ x, xle x c) (sort_row conf))
                 = length (filter (λ x, xle x c) conf)).
  { apply Permutation_length. by rewrite sort_row_perm. }
  pose proof (sorted_count_ge _ _ _ (sort_row_sorted conf) Hc Hnan).
  split; [lia|]. intros Hnd.
  assert (NoDup (sort_row conf)) as Hnd'.
  { by rewrite (sort_row_perm conf). }
  pose proof (sorted_count_le _ _ _ (sort_row_sorted conf) Hnd' Hc). lia.
Qed.

(** X6.  On a row of confidences (probabilities or the sentinel) and with
    a target count k between 1 and the row length, the policy masks at
    least k positions of the row; when the perturbed scores of the row are
    pairwise different it masks exactly k. *)
Theorem policy_masks_target_count k probs temp g m b row mrow :
  mask_by_random_topk k probs temp g = Some m →
  probs !! b = Some row →
  m !! b = Some mrow →
  Forall is_confidence row →
  (1 ≤ k ≤ Z.of_nat (length row))%Z →
  (k ≤ count_true mrow)%Z ∧
  (NoDup (imap (λ i p, xadd (xlog p) (temp * g b i)) row) →
   count_true mrow = k).
Proof.
  intros Hm Hb Hmb Hconf Hk.
  set (conf := imap (λ i p, xadd (xlog p) (temp * g b i)) row).
  destruct (mask_by_random_topk_row k probs temp g m b conf Hm)
    as (c & Hc & Hmb').
  { by rewrite perturbed_lookup, Hb. }
  { unfold conf. by rewrite length_imap. }
  rewrite Hmb in Hmb'. injection Hmb' as ->.
  apply topk_row_count; [done|lia|].
  apply sort_row_elem in Hc.
  by apply (proj1 (Forall_forall _ _)
              (perturbed_row_not_nan row temp (g b) Hconf)).
Qed.

Lemma policy_masks_target_count_witness :
  ∃ m mrow,
    mask_by_random_topk 1 [[XFin (1 / 2); XPosInf]] 2 (λ _ i, INR i) = Some m ∧
    [[XFin (1 / 2); XPosInf]] !! 0%nat = Some [XFin (1 / 2); XPosInf] ∧
    m !! 0%nat = Some mrow ∧
    Forall is_confidence [XFin (1 / 2); XPosInf] ∧
    (1 ≤ 1 ≤ Z.of_nat (length [XFin (1 / 2); XPosInf]))%Z ∧
    (1 ≤ count_true mrow)%Z ∧
    (NoDup (imap (λ i p, xadd (xlog p) (2 * INR i))
              [XFin (1 / 2); XPosInf]) →
     count_true mrow = 1%Z).
Proof.
  destruct (mask_by_random_topk_is_Some 1 [[XFin (1 / 2); XPosInf]] 2
              (λ _ i, INR i)) as (m & Hm & Hd).
  { apply Forall_singleton. simpl. lia. }
  destruct (lookup_lt_is_Some_2 m 0) as [mrow Hmrow].
  { rewrite <- dims_length, Hd. simpl. lia. }
  assert (Hc : Forall is_confidence [XFin (1 / 2); XPosInf]).
  { apply Forall_cons. split; [left; simpl; lra|].
    apply Forall_singleton. by right. }
  assert (Hk : (1 ≤ 1 ≤ Z.of_nat (length [XFin (1 / 2); XPosInf]))%Z).
  { simpl. lia. }
  exists m, mrow. split; [exact Hm|]. split; [reflexivity|].
  split; [exact Hmrow|]. split; [exact Hc|]. split; [exact Hk|].
  exact (policy_masks_target_count 1 [[XFin (1 / 2); XPosInf]] 2
           (λ _ i, INR i) m 0 [XFin (1 / 2); XPosInf] mrow Hm eq_refl Hmrow
           Hc Hk).
Defined.

(** ** The masked positions of the first batch item *)

Lemma count_true_elem row : true ∈ row → (1 ≤ count_true row)%Z.
Proof.
  intros H. unfold count_true.
  assert (true ∈ filter (λ b : bool, b = true) row) as Hin.
  { by apply list_elem_of_filter. }
  destruct (filter (λ b : bool, b = true) row); [by inv Hin|simpl; lia].
Qed.

Lemma filter_length_le_pointwise {A B} (P : A → Prop) (Q : B → Prop)
    `{∀ x, Decision (P x)} `{∀ y, Decision (Q y)} (l : list A) (k : list B) :
  Forall2 (λ x y, P x → Q y) l k →
  (length (filter P l) ≤ length (filter Q k))%nat.
Proof.
  induction 1 as [|x y l k Hxy _ IH]; [done|].
  destruct (decide (P x)) as [HP|HP].
  - rewrite !filter_cons_True by tauto. simpl. lia.
  - rewrite (filter_cons_False P) by done.
    destruct (decide (Q y)).
    + rewrite filter_cons_True by done. simpl. lia.
    + by rewrite filter_cons_False.
Qed.

Section first_item.
Context {Image Latent Slots Picture : Type}.
Variable model : Model Image Latent Slots Picture.
Variable rnd : Sampler.

Local Abbreviation mask_id := (mask_token_label model).

(** A resolved position of the first batch item goes through a pass
    untouched while one position of that item is masked. *)
Lemma gen_step_first_item_keeps slots num_iter ct step tok it row i id :
  gen_step model rnd slots num_iter ct step tok = Some it →
  tok !! 0%nat = Some row →
  row !! i = Some id →
  id ≠ mask_id →
  mask_id ∈ row →
  tget (it_sampled_ids it) 0 i = Some id ∧
  tget (it_masking it) 0 i = Some false ∧
  tget (it_token_indices it) 0 i = Some id.
Proof.
  intros H Hb Hi Hid Hin.
  assert (Hget : tget tok 0 i = Some id) by (unfold tget; by rewrite Hb).
  apply is_mask_false in Hid.
  destruct (gen_step_selected_probs model rnd _ _ _ _ _ _ _ _ _ H Hget)
    as (x & Hx & _ & Hknown).
  rewrite (Hknown Hid) in Hx.
  destruct (gen_step_entry _ _ _ _ _ _ _ _ _ _ _ H Hget)
    as (l & drawn & merged & mk & _ & _ & _ & _ & _ & Hm & Hs & _ & _
        & Hmk & Ht).
  rewrite Hid in Hm. subst merged.
  pose proof (gen_step_inv _ _ _ _ _ _ _ _ H)
    as (_&_&_&_&_&_&_& (row0 & H0 & Hk) & _ & Hmask & _).
  rewrite Hb in H0. injection H0 as <-.
  pose proof (gen_step_dims _ _ _ _ _ _ _ _ H) as (_&_&_& Dp &_).
  destruct (gen_step_row_lookup _ _ _ _ Dp Hb) as (srow & Hsrow & _).
  assert (tget (it_masking it) 0 i = Some false) as Hfalse.
  { apply (sentinel_kept _ _ _ _ _ _ srow i Hmask Hsrow).
    - unfold tget in Hx. by rewrite Hsrow in Hx.
    - rewrite (gen_step_prob_count model rnd _ _ _ _ _ _ _ _ _ H Hb Hsrow).
      pose proof (masked_count_ge_1 unknown_number_in_the_beginning
                    num_iter step (count_true (is_mask model <$> row))).
      pose proof (masked_count_le_max unknown_number_in_the_beginning
                    num_iter step (count_true (is_mask model <$> row))).
      assert (1 ≤ count_true (is_mask model <$> row))%Z; [|lia].
      apply count_true_elem, list_elem_of_fmap. exists mask_id.
      split; [|done]. symmetry. by apply is_mask_true. }
  split; [done|]. split; [done|].
  rewrite Hfalse in Hmk. injection Hmk as <-. done.
Qed.

(** Every row entering a pass of a run holds the mask id. *)
Lemma gen_image_rows_hold_mask image bsz num_iter ct its t it :
  gen_image_iterations model rnd image bsz num_iter ct = Some its →
  its !! t = Some it →
  Forall (λ row, mask_id ∈ row) (it_cur_ids it).
Proof.
  unfold gen_image_iterations. intros H Ht.
  destruct (initial_token_indices_shape model bsz) as [Hd Hv].
  set (P := λ tok : list (list Z),
         (dims tok = replicate bsz (Z.to_nat unknown_number_in_the_beginning)
          ∧ valid_ids mask_id tok) ∧ Forall (λ row, mask_id ∈ row) tok).
  assert (Hpres : ∀ step tok it',
            P tok →
            gen_step model rnd
              (slot_attention model (forward_encoder model image))
              num_iter ct step tok = Some it' →
            P (it_token_indices it')).
  { intros step tok it' [[Hd' Hv'] _] E. split; [split|].
    - pose proof (gen_step_dims _ _ _ _ _ _ _ _ E) as (_&_&_&_&_& Dt).
      congruence.
    - by eapply gen_step_valid.
    - apply Forall_forall. intros trow Hin.
      eapply (gen_step_leaves_mask model rnd); [exact E|exact Hd'| |exact Hin].
      unfold unknown_number_in_the_beginning. lia. }
  assert (HP0 : P (initial_token_indices model bsz)).
  { split; [done|]. unfold initial_token_indices.
    apply Forall_replicate, elem_of_replicate. split; [done|].
    unfold unknown_number_in_the_beginning. lia. }
  destruct (gen_loop_lookup model rnd P _ _ _ _ _ _ t it Hpres HP0 H Ht)
    as (step & _ & [_ Hm] & _).
  done.
Qed.

End first_item.

(** X7.  In a run, a position of the first batch item that is resolved
    entering pass [t] holds the same id entering every later pass, in the
    merged ids of every later pass and in the ids finally decoded: what the
    loop resolves for that item it never changes again, whatever the noise
    and the temperature. *)
Theorem resolved_ids_persist
    {Image Latent Slots Picture} (model : Model Image Latent Slots Picture)
    (rnd : Sampler) image bsz num_iter ct its t it i id :
  gen_image_iterations model rnd image bsz num_iter ct = Some its →
  its !! t = Some it →
  tget (it_cur_ids it) 0 i = Some id →
  id ≠ mask_token_label model →
  (∀ t' it', (t ≤ t')%nat → its !! t' = Some it' →
     tget (it_cur_ids it') 0 i = Some id ∧
     tget (it_sampled_ids it') 0 i = Some id) ∧
  (∀ ids, decoded_ids its = Some ids → tget ids 0 i = Some id).
Proof.
  intros H Ht Hid Hne.
  assert (Hall : ∀ d t' it', t' = (t + d)%nat → its !! t' = Some it' →
            tget (it_cur_ids it') 0 i = Some id ∧
            tget (it_sampled_ids it') 0 i = Some id ∧
            tget (it_token_indices it') 0 i = Some id).
  { assert (Hstep : ∀ t' it', its !! t' = Some it' →
              tget (it_cur_ids it') 0 i = Some id →
              tget (it_sampled_ids it') 0 i = Some id ∧
              tget (it_token_indices it') 0 i = Some id).
    { intros t' it' Ht' Hcur.
      destruct (gen_image_iterations_lookup _ _ _ _ _ _ _ _ _ H Ht')
        as (_ & E & _).
      pose proof (gen_image_rows_hold_mask _ _ _ _ _ _ _ _ _ H Ht') as Hm.
      unfold tget in Hcur.
      destruct (it_cur_ids it' !! 0%nat) as [row|] eqn:Erow; simplify_eq/=.
      destruct (gen_step_first_item_keeps model rnd _ _ _ _ _ _ row i id E
                  Erow Hcur Hne) as (Hs & _ & Htok); [|done].
      apply (proj1 (Forall_lookup _ _) Hm 0%nat row Erow). }
    induction d as [|d IH]; intros t' it' -> Ht'.
    - rewrite Nat.add_0_r in Ht'. rewrite Ht in Ht'. injection Ht' as <-.
      split; [done|]. by apply (Hstep t it).
    - destruct (lookup_lt_is_Some_2 its (t + d)) as [it0 Hit0].
      { apply lookup_lt_Some in Ht'. lia. }
      destruct (IH (t + d)%nat it0 eq_refl Hit0) as (_ & _ & Htok).
      replace (t + S d)%nat with (S (t + d)) in Ht' by lia.
      rewrite <- (gen_image_chain _ _ _ _ _ _ _ _ _ _ H Hit0 Ht') in Htok.
      split; [done|]. by apply (Hstep (S (t + d)) it'). }
  split.
  - intros t' it' Hle Ht'.
    destruct (Hall (t' - t)%nat t' it' ltac:(lia) Ht') as (? & ? & _). done.
  - intros ids Hids. unfold decoded_ids in Hids.
    destruct (last its) as [itl|] eqn:El; simplify_eq/=.
    rewrite last_lookup in El.
    pose proof (lookup_lt_Some _ _ _ Ht).
    destruct (Hall (pred (length its) - t)%nat (pred (length its)) itl
                ltac:(lia) El) as (_ & ? & _).
    done.
Qed.

(** ** Confidences are probabilities *)

Lemma Rsum_elem_le l x : Forall (λ y, 0 <= y) l → x ∈ l → x <= Rsum l.
Proof.
  induction 1 as [|y l Hy Hl IH]; intros Hin; [by inv Hin|].
  pose proof (Rsum_nonneg l Hl). simpl.
  apply elem_of_cons in Hin as [->|Hin]; [lra|].
  specialize (IH Hin). lra.
Qed.

Lemma softmax_lookup l n p :
  softmax l !! n = Some p → ∃ x, l !! n = Some x ∧ 0 < p <= 1 ∧
                                 p = exp x / Rsum (exp <$> l).
Proof.
  unfold softmax. rewrite list_lookup_fmap. intros Hp.
  destruct (l !! n) as [x|] eqn:E; simplify_eq/=. exists x.
  assert (Hs : 0 < Rsum (exp <$> l)).
  { apply Rsum_exp_pos. intros ->. done. }
  assert (exp x <= Rsum (exp <$> l)).
  { apply Rsum_elem_le.
    - apply Forall_fmap, Forall_forall. intros y _. simpl.
      apply Rlt_le, exp_pos.
    - apply list_elem_of_fmap. exists x. split; [done|].
      by eapply list_elem_of_lookup_2. }
  pose proof (exp_pos x). split_and!; [done| | |done].
  - by apply Rdiv_lt_0_compat.
  - apply (Rmult_le_reg_r (Rsum (exp <$> l))); [done|]. field_simplify; lra.
Qed.

(** X8.  The confidence [gen_image] gives a position in a pass: for a
    position masked entering the pass, the softmax probability of the id
    the merge put there, a number in (0, 1]; for a resolved position, the
    sentinel.  Either way a confidence the policy can rank (never NaN). *)
Theorem confidences_are_probabilities
    {Image Latent Slots Picture} (model : Model Image Latent Slots Picture)
    (rnd : Sampler) slots num_iter ct step tok it b i id :
  gen_step model rnd slots num_iter ct step tok = Some it →
  tget tok b i = Some id →
  ∃ x, tget (it_selected_probs it) b i = Some x ∧
       is_confidence x ∧
       (id ≠ mask_token_label model → x = CONFIDENCE_OF_KNOWN_TOKENS) ∧
       (id = mask_token_label model →
          ∃ l s p, tget (it_logits it) b i = Some l ∧
                   tget (it_sampled_ids it) b i = Some s ∧
                   softmax l !! Z.to_nat s = Some p ∧
                   x = XFin p ∧ 0 < p <= 1).
Proof.
  intros H Hid.
  destruct (gen_step_entry _ _ _ _ _ _ _ _ _ _ _ H Hid)
    as (l & drawn & merged & mk & Hl & _ & _ & _ & _ & _ & Hs & Hr & Hp & _).
  eexists. split; [exact Hp|].
  destruct (is_mask model id) eqn:E.
  - apply is_mask_true in E.
    destruct (lookup_lt_is_Some_2 (softmax l) (Z.to_nat merged)) as [p Hlp].
    { rewrite softmax_length. lia. }
    rewrite (nth_lookup_Some _ _ 0 p Hlp).
    destruct (softmax_lookup _ _ _ Hlp) as (x & _ & Hb & _).
    split_and!.
    + left. simpl. lra.
    + done.
    + intros _. by exists l, merged, p.
  - apply is_mask_false in E. split_and!; [by right|done..].
Qed.

Lemma confidences_are_probabilities_witness :
  ∃ it x,
    gen_step toy_model toy_sampler 0%nat 12 (9 / 2) 0 [[2024; 5]%Z] = Some it ∧
    tget [[2024; 5]%Z] 0 0 = Some 2024%Z ∧
    tget (it_selected_probs it) 0 0 = Some x ∧
    is_confidence x ∧
    (2024%Z ≠ mask_token_label toy_model → x = CONFIDENCE_OF_KNOWN_TOKENS) ∧
    (2024%Z = mask_token_label toy_model →
       ∃ l s p, tget (it_logits it) 0 0 = Some l ∧
                tget (it_sampled_ids it) 0 0 = Some s ∧
                softmax l !! Z.to_nat s = Some p ∧
                x = XFin p ∧ 0 < p <= 1).
Proof.
  destruct (gen_step_is_Some toy_model toy_sampler toy_decoder_shaped
              0%nat 12 (9 / 2) 0 [[2024; 5]%Z] 1 2) as [it Hit].
  - reflexivity.
  - lia.
  - lia.
  - repeat constructor; unfold codebook_size; simpl; lia.
  - destruct (confidences_are_probabilities toy_model toy_sampler 0%nat 12
                (9 / 2) 0 [[2024; 5]%Z] it 0 0 2024%Z Hit eq_refl)
      as (x & H1 & H2 & H3 & H4).
    exists it, x. split; [exact Hit|]. split; [reflexivity|].
    split; [exact H1|]. split; [exact H2|]. split; [exact H3|exact H4].
Defined.

(** ** The number of masked positions after a pass *)

Section mask_counts.
Context {Image Latent Slots Picture : Type}.
Variable model : Model Image Latent Slots Picture.
Variable rnd : Sampler.

Local Abbreviation mask_id := (mask_token_label model).

Lemma gen_step_confidences slots num_iter ct step tok it :
  gen_step model rnd slots num_iter ct step tok = Some it →
  Forall (Forall is_confidence) (it_selected_probs it).
Proof.
  intros H. apply tForall_tget. intros b i x Hx.
  pose proof (gen_step_dims _ _ _ _ _ _ _ _ H) as (_&_&_& Dp &_).
  destruct (tget_dims (it_selected_probs it) tok b i Dp) as [id Hid];
    [by eexists|].
  destruct (gen_step_selected_probs model rnd _ _ _ _ _ _ _ _ _ H Hid)
    as (x' & Hx' & Hmasked & Hknown).
  rewrite Hx in Hx'. injection Hx' as <-.
  destruct (is_mask model id).
  - destruct (Hmasked eq_refl) as (p & -> & Hp). left. simpl. lra.
  - right. by apply Hknown.
Qed.

(** With the mask id outside the codebook, the positions that hold the
    mask id after a pass are those the policy marked. *)
Lemma gen_step_mask_count slots num_iter ct step tok it b trow mrow :
  gen_step model rnd slots num_iter ct step tok = Some it →
  (Z.of_nat codebook_size ≤ mask_id)%Z →
  it_token_indices it !! b = Some trow →
  it_masking it !! b = Some mrow →
  count_true (is_mask model <$> trow) = count_true mrow.
Proof.
  intros H Hmask Ht Hm. unfold count_true. f_equal.
  pose proof (gen_step_dims _ _ _ _ _ _ _ _ H) as (_&_&_&_& Dm & Dt).
  destruct (gen_step_row_lookup tok (it_token_indices it) b trow)
    as (row & Hrow & Hlen); [done|done|].
  apply filter_length_pointwise, Forall2_same_length_lookup. split.
  - destruct (gen_step_row_lookup (it_masking it) tok b row Dm Hrow)
      as (mrow' & Hm' & Hlen').
    rewrite length_fmap. congruence.
  - intros i x mk Hx Hmk. rewrite list_lookup_fmap in Hx.
    destruct (trow !! i) as [id'|] eqn:Ei; simplify_eq/=.
    destruct (lookup_lt_is_Some_2 row i) as [id Hid].
    { apply lookup_lt_Some in Ei. lia. }
    destruct (gen_step_entry model rnd _ _ _ _ tok it b i id H)
      as (l & drawn & merged & mk' & _ & _ & Hl & _ & _ & _ & _ & Hr & _
          & Hmk' & Ht').
    { unfold tget. by rewrite Hrow. }
    unfold tget in Hmk', Ht'. rewrite Hm in Hmk'. rewrite Ht in Ht'.
    simpl in *. rewrite Hmk in Hmk'. rewrite Ei in Ht'.
    injection Hmk' as <-. injection Ht' as ->.
    destruct mk.
    + split; [done|]. intros _. by apply is_mask_true.
    + split; [|done]. intros E. apply is_mask_true in E. lia.
Qed.
End mask_counts.

(** X9.  After a pass of a run (the mask id lying outside the codebook)
    every row of the state holds at least target-count masked positions,
    and exactly that many when the perturbed confidences of the row are
    pairwise different; for the first batch item the masked positions
    after the pass are among those masked before it, so their number does
    not grow. *)
Theorem masked_positions_after_pass
    {Image Latent Slots Picture} (model : Model Image Latent Slots Picture)
    (rnd : Sampler) image bsz num_iter ct its t it b row trow conf :
  gen_image_iterations model rnd image bsz num_iter ct = Some its →
  its !! t = Some it →
  (Z.of_nat codebook_size ≤ mask_token_label model)%Z →
  it_cur_ids it !! b = Some row →
  it_token_indices it !! b = Some trow →
  perturbed (it_selected_probs it) (it_temperature it) (gumbel rnd t) !! b
  = Some conf →
  let before := count_true (is_mask model <$> row) in
  let after := count_true (is_mask model <$> trow) in
  (it_mask_len it ≤ after)%Z ∧
  (NoDup conf → after = it_mask_len it) ∧
  (b = 0%nat → (after ≤ before)%Z).
Proof.
  intros H Ht Hmask Hrow Htrow Hconf before after.
  destruct (gen_image_iterations_lookup _ _ _ _ _ _ _ _ _ H Ht)
    as (_ & E & Hd & Hv).
  pose proof (gen_step_dims _ _ _ _ _ _ _ _ E) as (_&_&_& Dp & Dm & Dt).
  pose proof (gen_step_inv _ _ _ _ _ _ _ _ E)
    as (_&_&_&_&_&_&_&_&_& Hpol & _).
  destruct (gen_step_row_lookup (it_masking it) _ b row Dm Hrow)
    as (mrow & Hmrow & _).
  assert (Hk : (1 ≤ it_mask_len it ≤ Z.of_nat (length conf))%Z).
  { pose proof (gen_step_mask_len_bounds model rnd _ _ _ _ _ _ _ _ E Hd
                 ltac:(unfold unknown_number_in_the_beginning; lia)) as Hk.
    rewrite perturbed_lookup in Hconf.
    destruct (it_selected_probs it !! b) as [srow|] eqn:Es; simplify_eq/=.
    rewrite length_imap.
    rewrite (dims_replicate_lookup (it_selected_probs it) bsz
               (Z.to_nat unknown_number_in_the_beginning) b srow);
      [done|congruence|done]. }
  destruct (mask_by_random_topk_row _ _ _ _ _ b conf Hpol Hconf Hk)
    as (c & Hc & Hmb).
  rewrite Hmrow in Hmb. injection Hmb as ->.
  assert (Hnan : c ≠ XNaN).
  { apply sort_row_elem in Hc. rewrite perturbed_lookup in Hconf.
    destruct (it_selected_probs it !! b) as [srow|] eqn:Es; simplify_eq/=.
    apply (proj1 (Forall_forall _ _)
             (perturbed_row_not_nan srow (it_temperature it) (gumbel rnd t b)
                (proj1 (Forall_lookup _ _)
                   (gen_step_confidences model rnd _ _ _ _ _ _ E) b srow Es))).
    done. }
  destruct (topk_row_count conf (it_mask_len it) c Hc ltac:(lia) Hnan)
    as [Hge Heq].
  unfold after.
  rewrite (gen_step_mask_count model rnd _ _ _ _ _ _ _ _ _ E Hmask Htrow
             Hmrow).
  split; [done|]. split; [done|].
  intros ->. rewrite <- (gen_step_mask_count model rnd _ _ _ _ _ _ _ _ _ E
                           Hmask Htrow Hmrow).
  unfold before, count_true. apply inj_le.
  apply filter_length_le_pointwise, Forall2_same_length_lookup. split.
  - rewrite !length_fmap.
    destruct (gen_step_row_lookup (it_token_indices it) _ 0 row Dt Hrow)
      as (trow' & Htrow' & Hlen). congruence.
  - intros i x y Hx Hy. rewrite list_lookup_fmap in Hx, Hy.
    destruct (trow !! i) as [id'|] eqn:Ei; simplify_eq/=.
    destruct (row !! i) as [id|] eqn:Ei'; simplify_eq/=.
    intros Hxt.
    destruct (is_mask model id) eqn:Eid; [done|]. exfalso.
    apply is_mask_false in Eid.
    destruct (gen_step_first_item_keeps model rnd _ _ _ _ _ _ row i id E
                Hrow Ei' Eid) as (_ & _ & Htok).
    { apply (proj1 (Forall_lookup _ _)
               (gen_image_rows_hold_mask model rnd _ _ _ _ _ _ _ H Ht)
               0%nat row Hrow). }
    unfold tget in Htok. rewrite Htrow in Htok. simpl in Htok.
    rewrite Ei in Htok. injection Htok as ->.
    apply is_mask_true in Hxt. done.
Qed.

(** ** A run that resolves positions *)

Lemma count_true_all row :
  Forall (λ b : bool, b = true) row → count_true row = Z.of_nat (length row).
Proof.
  intros H. unfold count_true. f_equal.
  induction H as [|b l Hb _ IH]; [done|].
  rewrite filter_cons_True by done. simpl. by rewrite IH.
Qed.

Section toy_runs.
Local Arguments replicate : simpl never.
Local Arguments softmax : simpl never.
Local Arguments take : simpl never.
Local Arguments nth : simpl never.

Lemma toy_logits_entry (rnd : Sampler) slots num_iter ct step tok it b i l :
  gen_step toy_model rnd slots num_iter ct step tok = Some it →
  tget (it_logits it) b i = Some l →
  l = take codebook_size (replicate 2025 0).
Proof.
  intros H Hl.
  pose proof (gen_step_inv _ _ _ _ _ _ _ _ H) as (_ & _ & _ & Hlog & _).
  rewrite Hlog in Hl. cbn [forward_decoder toy_model num_slots] in Hl.
  unfold tget in Hl. rewrite !list_lookup_fmap in Hl.
  destruct (tmap _ _ !! b) as [mrow|]; simplify_eq/=.
  rewrite list_lookup_fmap, lookup_drop in Hl.
  destruct (replicate _ _ !! _) as [l0|] eqn:E; simplify_eq/=.
  apply lookup_replicate in E as [-> _]. done.
Qed.

Lemma toy_ramp_first_pass_nodup its it conf :
  gen_image_iterations toy_model toy_sampler_ramp () 1 3 (9 / 2) = Some its →
  its !! 0%nat = Some it →
  perturbed (it_selected_probs it) (it_temperature it)
    (gumbel toy_sampler_ramp 0) !! 0%nat = Some conf →
  NoDup conf.
Proof.
  intros H Ht Hconf.
  destruct (gen_image_iterations_lookup _ _ _ _ _ _ _ _ _ H Ht)
    as (_ & E & Hd & Hv).
  pose proof (gen_image_first _ _ _ _ _ _ _ _ H Ht) as Hcur.
  pose proof (gen_step_inv _ _ _ _ _ _ _ _ E)
    as (_&_&_&_&_&_&_&_& Htemp & _).
  assert (Ht3 : it_temperature it = 3).
  { rewrite Htemp. unfold ratio. simpl. lra. }
  assert (Hlogits : ∀ b i l, tget (it_logits it) b i = Some l →
            l = take codebook_size (replicate 2025 0)).
  { intros b i l. exact (toy_logits_entry _ _ _ _ _ _ _ b i l E). }
  remember (take codebook_size (replicate 2025 0)) as l0 eqn:Hl0.
  assert (Hlen0 : (0 < length l0)%nat).
  { subst l0. rewrite length_take, length_replicate.
    unfold codebook_size. lia. }
  clear Hl0.
  pose proof (softmax_nth_pos l0 0 Hlen0) as Hp0.
  remember (nth 0 (softmax l0) 0) as p0 eqn:Ep0.
  assert (Hentry : ∀ i x, conf !! i = Some x → x = XFin (ln p0 + 3 * INR i)).
  { intros i x Hx. rewrite perturbed_lookup in Hconf.
    apply fmap_Some in Hconf as (srow & Es & ->).
    rewrite list_lookup_imap in Hx.
    apply fmap_Some in Hx as (p & Ei & ->).
    pose proof (gen_step_dims _ _ _ _ _ _ _ _ E) as (_&_&_& Dp &_).
    destruct (tget_dims (it_selected_probs it) (it_cur_ids it) 0 i Dp)
      as [id Hid].
    { unfold tget. rewrite Es. by eexists. }
    assert (id = mask_token_label toy_model) as ->.
    { rewrite Hcur in Hid. unfold tget, initial_token_indices in Hid.
      apply bind_Some in Hid as (r & Hr & Hi).
      apply lookup_replicate in Hr as [-> _].
      by apply lookup_replicate in Hi as [-> _]. }
    destruct (gen_step_entry _ _ _ _ _ _ _ _ _ _ _ E Hid)
      as (l & drawn & merged & mk & Hl & _ & _ & Hdr & _ & Hm & _ & _ & Hp
          & _).
    rewrite (Hlogits _ _ _ Hl) in Hp.
    rewrite (proj2 (is_mask_true toy_model _) eq_refl) in Hm, Hp.
    subst merged drawn.
    change (categorical toy_sampler_ramp 0 0 i l) with 0%Z in Hp.
    change (Z.to_nat 0) with 0%nat in Hp. rewrite <- Ep0 in Hp.
    unfold tget in Hp. rewrite Es in Hp.
    apply bind_Some in Hp as (r & Hr & Hp). injection Hr as <-.
    rewrite Ei in Hp. injection Hp as ->.
    rewrite Ht3. unfold xlog. rewrite !decide_False by lra. done. }
  apply NoDup_alt. intros i j x Hi Hj.
  apply Hentry in Hi. apply Hentry in Hj. rewrite Hi in Hj.
  injection Hj as Hj. apply INR_eq. lra.
Qed.

(** The run on the ramp source resolves a position of its single row in
    the first pass. *)
Lemma toy_ramp_resolves :
  ∃ its it i id,
    gen_image_iterations toy_model toy_sampler_ramp () 1 3 (9 / 2) = Some its ∧
    its !! 1%nat = Some it ∧
    tget (it_cur_ids it) 0 i = Some id ∧
    id ≠ mask_token_label toy_model.
Proof.
  destruct (gen_image_iterations_is_Some toy_model toy_sampler_ramp () 1 3
              (9 / 2) toy_decoder_shaped ltac:(lia)) as (its & H & Hlen).
  destruct (lookup_lt_is_Some_2 its 0) as [it0 Ht0]; [lia|].
  destruct (lookup_lt_is_Some_2 its 1) as [it1 Ht1]; [lia|].
  destruct (gen_image_iterations_lookup _ _ _ _ _ _ _ _ _ H Ht0)
    as (_ & E & Hd & Hv).
  pose proof (gen_step_dims _ _ _ _ _ _ _ _ E) as (_&_&_& Dp & Dm & Dt).
  pose proof (gen_step_inv _ _ _ _ _ _ _ _ E)
    as (_&_&_&_&_&_&_& (row0 & H0 & Hk) &_& Hpol & _).
  destruct (gen_step_row_lookup (it_token_indices it0) _ 0 row0 Dt H0)
    as (trow & Htrow & Hlt).
  destruct (gen_step_row_lookup (it_masking it0) _ 0 row0 Dm H0)
    as (mrow & Hmrow & _).
  destruct (gen_step_row_lookup (it_selected_probs it0) _ 0 row0 Dp H0)
    as (srow & Hsrow & Hls).
  pose proof (dims_replicate_lookup _ _ _ _ _ Hd H0) as HL.
  change (Z.to_nat unknown_number_in_the_beginning) with 256%nat in HL.
  set (conf := imap (λ i p, xadd (xlog p)
                 (it_temperature it0 * gumbel toy_sampler_ramp 0 0 i)) srow).
  assert (Hconf : perturbed (it_selected_probs it0) (it_temperature it0)
                    (gumbel toy_sampler_ramp 0) !! 0%nat = Some conf).
  { by rewrite perturbed_lookup, Hsrow. }
  pose proof (toy_ramp_first_pass_nodup its it0 conf H Ht0 Hconf) as Hnd.
  pose proof (count_true_bounds (is_mask toy_model <$> row0)) as Hc.
  rewrite length_fmap, HL in Hc.
  assert (Hkb : (1 ≤ it_mask_len it0 ≤ 255)%Z).
  { rewrite Hk. unfold masked_count. lia. }
  destruct (mask_by_random_topk_row _ _ _ _ _ 0 conf Hpol Hconf)
    as (c & Hcc & Hmb).
  { unfold conf. rewrite length_imap. lia. }
  rewrite Hmrow in Hmb. injection Hmb as ->.
  assert (Hnan : c ≠ XNaN).
  { apply sort_row_elem in Hcc.
    apply (proj1 (Forall_forall _ _)
             (perturbed_row_not_nan srow (it_temperature it0)
                (gumbel toy_sampler_ramp 0 0)
                (proj1 (Forall_lookup _ _)
                   (gen_step_confidences toy_model toy_sampler_ramp
                      _ _ _ _ _ _ E) 0%nat srow Hsrow))).
    done. }
  destruct (topk_row_count conf (it_mask_len it0) c Hcc ltac:(lia) Hnan)
    as [_ Heq].
  pose proof (gen_step_mask_count toy_model toy_sampler_ramp _ _ _ _ _ _ _ _ _
                E ltac:(unfold codebook_size; simpl; lia) Htrow Hmrow) as Hcnt.
  rewrite (Heq Hnd) in Hcnt.
  destruct (decide (Forall (λ b : bool, b = true)
                      (is_mask toy_model <$> trow))) as [Hall|Hex].
  { rewrite (count_true_all _ Hall), length_fmap in Hcnt. lia. }
  apply not_Forall_Exists in Hex; [|apply _].
  apply Exists_exists in Hex as (x & Hx & Hxt).
  apply list_elem_of_fmap in Hx as (id & -> & Hin).
  apply list_elem_of_lookup in Hin as [i Hi].
  exists its, it1, i, id. split; [done|]. split; [done|]. split.
  - rewrite (gen_image_chain _ _ _ _ _ _ _ _ _ _ H Ht0 Ht1).
    unfold tget. by rewrite Htrow.
  - apply is_mask_false. unfold compose in Hxt.
    destruct (is_mask toy_model id); [by destruct Hxt|done].
Qed.

End toy_runs.

Lemma resolved_ids_persist_witness :
  ∃ its it i id,
    gen_image_iterations toy_model toy_sampler_ramp () 1 3 (9 / 2) = Some its ∧
    its !! 1%nat = Some it ∧
    tget (it_cur_ids it) 0 i = Some id ∧
    id ≠ mask_token_label toy_model ∧
    (∀ t' it', (1 ≤ t')%nat → its !! t' = Some it' →
       tget (it_cur_ids it') 0 i = Some id ∧
       tget (it_sampled_ids it') 0 i = Some id) ∧
    (∀ ids, decoded_ids its = Some ids → tget ids 0 i = Some id).
Proof.
  destruct toy_ramp_resolves as (its & it & i & id & H & Ht & Hid & Hne).
  exists its, it, i, id. split; [exact H|]. split; [exact Ht|].
  split; [exact Hid|]. split; [exact Hne|].
  exact (resolved_ids_persist toy_model toy_sampler_ramp () 1 3 (9 / 2) its 1
           it i id H Ht Hid Hne).
Defined.

Lemma masked_positions_after_pass_witness :
  ∃ its it row trow conf,
    gen_image_iterations toy_model toy_sampler_ramp () 1 3 (9 / 2) = Some its ∧
    its !! 0%nat = Some it ∧
    (Z.of_nat codebook_size ≤ mask_token_label toy_model)%Z ∧
    it_cur_ids it !! 0%nat = Some row ∧
    it_token_indices it !! 0%nat = Some trow ∧
    perturbed (it_selected_probs it) (it_temperature it)
      (gumbel toy_sampler_ramp 0) !! 0%nat = Some conf ∧
    NoDup conf ∧
    let before := count_true (is_mask toy_model <$> row) in
    let after := count_true (is_mask toy_model <$> trow) in
    (it_mask_len it ≤ after)%Z ∧
    (NoDup conf → after = it_mask_len it) ∧
    (0%nat = 0%nat → (after ≤ before)%Z).
Proof.
  destruct (gen_image_iterations_is_Some toy_model toy_sampler_ramp () 1 3
              (9 / 2) toy_decoder_shaped ltac:(lia)) as (its & H & Hlen).
  destruct (lookup_lt_is_Some_2 its 0) as [it Ht]; [lia|].
  destruct (gen_image_iterations_lookup _ _ _ _ _ _ _ _ _ H Ht)
    as (_ & E & Hd & _).
  pose proof (gen_step_dims _ _ _ _ _ _ _ _ E) as (_&_&_& Dp & _ & Dt).
  destruct (dims_replicate_head _ _ _ Hd ltac:(lia)) as [row Hrow].
  destruct (gen_step_row_lookup (it_token_indices it) _ 0 row Dt Hrow)
    as (trow & Htrow & _).
  destruct (gen_step_row_lookup (it_selected_probs it) _ 0 row Dp Hrow)
    as (srow & Hsrow & _).
  assert (Hconf : perturbed (it_selected_probs it) (it_temperature it)
                    (gumbel toy_sampler_ramp 0) !! 0%nat
                  = Some (imap (λ i p, xadd (xlog p)
                            (it_temperature it
                             * gumbel toy_sampler_ramp 0 0 i)) srow)).
  { by rewrite perturbed_lookup, Hsrow. }
  assert (Hmask : (Z.of_nat codebook_size ≤ mask_token_label toy_model)%Z).
  { unfold codebook_size. simpl. lia. }
  eexists its, it, row, trow, _.
  split; [exact H|]. split; [exact Ht|]. split; [exact Hmask|].
  split; [exact Hrow|]. split; [exact Htrow|]. split; [exact Hconf|].
  split; [exact (toy_ramp_first_pass_nodup its it _ H Ht Hconf)|].
  exact (masked_positions_after_pass toy_model toy_sampler_ramp () 1 3
           (9 / 2) its 0 it 0 row trow _ H Ht Hmask Hrow Htrow Hconf).
Defined.

(** * Bounds of the remasking policy *)

Lemma py_slice_one_length {A} (l : list A) k :
  length (py_slice l (k - 1) k)
  = if decide ((1 ≤ k ≤ Z.of_nat (length l))%Z
               ∨ (1 - Z.of_nat (length l) ≤ k ≤ -1)%Z)
    then 1%nat else 0%nat.
Proof.
  unfold py_slice, slice_bound. rewrite length_take, length_drop.
  destruct (Z.ltb_spec (k - 1) 0), (Z.ltb_spec k 0), (decide _); lia.
Qed.

Lemma py_slice_negative {A} (l : list A) k :
  (1 - Z.of_nat (length l) ≤ k ≤ -1)%Z →
  py_slice l (k - 1) k
  = py_slice l (k + Z.of_nat (length l) - 1) (k + Z.of_nat (length l)).
Proof.
  intros Hk. unfold py_slice, slice_bound.
  destruct (Z.ltb_spec (k - 1) 0), (Z.ltb_spec k 0),
    (Z.ltb_spec (k + Z.of_nat (length l) - 1) 0),
    (Z.ltb_spec (k + Z.of_nat (length l)) 0); try lia.
  f_equal; [f_equal; lia|]. f_equal. f_equal. lia.
Qed.

Lemma le_broadcast_is_Some row cut :
  (2 ≤ length row)%nat → (length cut ≤ 1)%nat →
  is_Some (le_broadcast row cut) ↔ length cut = 1%nat.
Proof.
  intros Hr Hc. unfold le_broadcast. split.
  - intros [m Hm]. repeat case_decide; simplify_eq; lia.
  - intros E. rewrite decide_True by done. by eexists.
Qed.

(** X10.  For a batch of at least one row, all rows of the same length
    L >= 2, [mask_by_random_topk] returns exactly when [mask_len] lies in
    1..L or in 1-L..-1; for 0 and beyond L (or -L) the cut-off slice is empty
    and the comparison raises.  A negative [mask_len] counts from the end of
    the sorted row: it gives what [mask_len + L] gives. *)
Theorem remasking_policy_bounds k probs temp g (L : nat) :
  probs ≠ [] →
  Forall (λ row : list xreal, length row = L) probs →
  (2 ≤ L)%nat →
  (is_Some (mask_by_random_topk k probs temp g)
   ↔ (1 ≤ k ≤ Z.of_nat L)%Z ∨ (1 - Z.of_nat L ≤ k ≤ -1)%Z) ∧
  ((1 - Z.of_nat L ≤ k ≤ -1)%Z →
   mask_by_random_topk k probs temp g
   = mask_by_random_topk (k + Z.of_nat L) probs temp g).
Proof.
  intros Hne Hlen HL.
  assert (Hconf : Forall (λ conf : list xreal, length conf = L)
                    (perturbed probs temp g)).
  { apply Forall_lookup. intros b conf Hb. rewrite perturbed_lookup in Hb.
    apply fmap_Some in Hb as (row & Hrow & ->). rewrite length_imap.
    by apply (proj1 (Forall_lookup _ _) Hlen b). }
  assert (Hrow : ∀ conf, length conf = L →
            is_Some (le_broadcast conf (cut_off_row k (sort_row conf)))
            ↔ (1 ≤ k ≤ Z.of_nat L)%Z ∨ (1 - Z.of_nat L ≤ k ≤ -1)%Z).
  { intros conf Hc.
    pose proof (py_slice_one_length (sort_row conf) k) as Hs.
    rewrite sort_row_length, Hc in Hs.
    rewrite le_broadcast_is_Some; unfold cut_off_row; rewrite ?Hs;
      case_decide; try lia; tauto. }
  split.
  - split.
    + intros [m Hm]. apply mask_by_random_topk_rows in Hm.
      destruct (perturbed probs temp g) as [|conf confs] eqn:E.
      { destruct Hne. apply (f_equal length) in E.
        rewrite <- dims_length, perturbed_dims, dims_length in E.
        by destruct probs. }
      inversion Hm as [|? mrow ? ? H1 _]; subst.
      apply (Hrow conf); [by inversion Hconf|]. by eexists.
    + intros Hk. unfold mask_by_random_topk. apply mapM_is_Some.
      apply Forall_lookup. intros b [conf cut] Hb.
      apply lookup_zip_with_Some in Hb as (c & d & [= <- <-] & Hc & Hd).
      rewrite !list_lookup_fmap, Hc in Hd. simpl in Hd.
      injection Hd as <-. apply (Hrow conf); [|done].
      by apply (proj1 (Forall_lookup _ _) Hconf b).
  - intros Hk. unfold mask_by_random_topk. do 2 f_equal.
    rewrite <- !list_fmap_compose. apply Forall_fmap_ext.
    eapply Forall_impl; [exact Hconf|]. intros conf Hc. simpl.
    unfold cut_off_row.
    rewrite <- Hc, <- (sort_row_length conf). apply py_slice_negative.
    rewrite sort_row_length, Hc. lia.
Qed.

Lemma remasking_policy_bounds_witness :
  [[XFin 1; XFin 1]] ≠ [] ∧
  Forall (λ row : list xreal, length row = 2%nat) [[XFin 1; XFin 1]] ∧
  (2 ≤ 2)%nat ∧
  (1 - Z.of_nat 2 ≤ -1 ≤ -1)%Z ∧
  is_Some (mask_by_random_topk (-1) [[XFin 1; XFin 1]] 0 (λ _ _, 0)) ∧
  mask_by_random_topk (-1) [[XFin 1; XFin 1]] 0 (λ _ _, 0)
  = mask_by_random_topk (-1 + Z.of_nat 2) [[XFin 1; XFin 1]] 0 (λ _ _, 0).
Proof.
  assert (H1 : [[XFin 1; XFin 1]] ≠ []) by done.
  assert (H2 : Forall (λ row : list xreal, length row = 2%nat)
                 [[XFin 1; XFin 1]]).
  { by apply Forall_singleton. }
  assert (H3 : (2 ≤ 2)%nat) by lia.
  assert (H4 : (1 - Z.of_nat 2 ≤ -1 ≤ -1)%Z) by lia.
  split; [exact H1|]. split; [exact H2|]. split; [exact H3|].
  split; [exact H4|].
  destruct (remasking_policy_bounds (-1) [[XFin 1; XFin 1]] 0 (λ _ _, 0) 2
              H1 H2 H3) as [Hiff Heq].
  split; [exact (proj2 Hiff (or_intror H4))|exact (Heq H4)].
Defined.

(** * The attention weights of one query *)

Lemma Rsum_exp_shift l m :
  Rsum (exp <$> ((λ a, a - m) <$> l)) = Rsum (exp <$> l) / exp m.
Proof.
  rewrite <- Rsum_div, <- !list_fmap_compose. f_equal.
  apply list_fmap_ext. intros _ a _. simpl.
  unfold Rminus. rewrite exp_plus, exp_Ropp. reflexivity.
Qed.

Lemma softmax_shift l m : softmax ((λ a, a - m) <$> l) = softmax l.
Proof.
  destruct (decide (l = [])) as [->|Hne]; [done|].
  unfold softmax. cbv zeta. rewrite Rsum_exp_shift, <- list_fmap_compose.
  apply list_fmap_ext. intros _ a _. simpl.
  pose proof (Rsum_exp_pos l Hne). pose proof (exp_pos m).
  unfold Rminus. rewrite exp_plus, exp_Ropp. field. split; lra.
Qed.

Lemma softmax_sum l : l ≠ [] → Rsum (softmax l) = 1.
Proof.
  intros Hne. unfold softmax. cbv zeta.
  pose proof (Rsum_exp_pos l Hne).
  transitivity (Rsum ((λ a, a / Rsum (exp <$> l)) <$> (exp <$> l))).
  - f_equal. by rewrite <- list_fmap_compose.
  - apply normalised_row_sum. lra.
Qed.

(** X11.  The weights [Attention.forward] gives one query over its keys
    are a probability distribution: each lies in (0, 1] and they sum to 1.
    Subtracting the row maximum before the softmax does not change them. *)
Theorem attention_weights_distribution scores :
  scores ≠ [] →
  attention_weights scores = softmax scores ∧
  Forall (λ a, 0 < a <= 1) (attention_weights scores) ∧
  Rsum (attention_weights scores) = 1.
Proof.
  intros Hne. unfold attention_weights. rewrite softmax_shift.
  split; [done|]. split; [|by apply softmax_sum].
  apply Forall_lookup. intros n p Hp.
  by apply softmax_lookup in Hp as (x & _ & Hp & _).
Qed.

Lemma attention_weights_distribution_witness :
  [0; 1] ≠ [] ∧
  attention_weights [0; 1] = softmax [0; 1] ∧
  Forall (λ a, 0 < a <= 1) (attention_weights [0; 1]) ∧
  Rsum (attention_weights [0; 1]) = 1.
Proof.
  assert (H : [0; 1] ≠ []) by done.
  split; [exact H|]. exact (attention_weights_distribution [0; 1] H).
Defined.

(** * The random masking of the training path *)

Lemma rand_tensor_lookup bsz seq_len rand b row :
  MageDecoder.rand_tensor bsz seq_len rand !! b = Some row ↔
  (b < bsz)%nat ∧ row = (λ i, XFin (rand b i)) <$> seq 0 seq_len.
Proof.
  unfold MageDecoder.rand_tensor. rewrite list_lookup_fmap. split.
  - intros H. apply fmap_Some in H as (b' & Hb & ->).
    apply lookup_seq in Hb as [-> Hb]. done.
  - intros [Hb ->]. by rewrite lookup_seq_lt.
Qed.

Lemma rand_tensor_length bsz seq_len rand :
  length (MageDecoder.rand_tensor bsz seq_len rand) = bsz.
Proof. unfold MageDecoder.rand_tensor. by rewrite length_fmap, length_seq. Qed.

Lemma rand_tensor_rows bsz seq_len rand :
  Forall (λ row : list xreal, length row = seq_len ∧ Forall (λ x, x ≠ XNaN) row)
    (MageDecoder.rand_tensor bsz seq_len rand).
Proof.
  apply Forall_lookup. intros b row Hb.
  apply rand_tensor_lookup in Hb as [_ ->]. split.
  - by rewrite length_fmap, length_seq.
  - by apply Forall_fmap, Forall_true.
Qed.

Lemma noise_mask_rows k noise m :
  MageDecoder.noise_mask k noise = Some m ↔
  Forall2 (λ conf mrow,
             le_broadcast conf (cut_off_row k (sort_row conf)) = Some mrow)
    noise m.
Proof.
  unfold MageDecoder.noise_mask. cbv zeta. rewrite mapM_Some.
  rewrite <- list_fmap_compose.
  revert m. induction noise as [|conf confs IH]; intros m; simpl.
  - split; inversion 1; constructor.
  - split; inversion 1; simplify_eq/=; constructor; try done; by apply IH.
Qed.

(** One row of a round: at least [k] positions are at or below the cutoff,
    exactly [k] when the noise of the row has no ties. *)
Lemma noise_row_count k (conf : list xreal) mrow :
  (1 ≤ k ≤ Z.of_nat (length conf))%Z →
  Forall (λ x, x ≠ XNaN) conf →
  le_broadcast conf (cut_off_row k (sort_row conf)) = Some mrow →
  length mrow = length conf ∧
  (k ≤ count_true mrow)%Z ∧
  (NoDup conf → count_true mrow = k).
Proof.
  intros Hk Hnan H.
  destruct (cut_off_row_in k (sort_row conf)) as (c & Hc & Hcut).
  { by rewrite sort_row_length. }
  rewrite Hcut, le_broadcast_cut in H. injection H as <-.
  split; [by rewrite length_fmap|].
  apply topk_row_count; [done|lia|].
  apply sort_row_elem in Hc. by apply (proj1 (Forall_forall _ _) Hnan).
Qed.

Lemma noise_row_is_Some k (conf : list xreal) :
  (1 ≤ k ≤ Z.of_nat (length conf))%Z →
  is_Some (le_broadcast conf (cut_off_row k (sort_row conf))).
Proof.
  intros Hk.
  destruct (cut_off_row_in k (sort_row conf)) as (c & Hc & Hcut).
  { by rewrite sort_row_length. }
  rewrite Hcut, le_broadcast_cut. by eexists.
Qed.

Lemma mask_sum_cons row m :
  MageDecoder.mask_sum (row :: m)
  = (count_true row + MageDecoder.mask_sum m)%Z.
Proof. reflexivity. Qed.

Lemma mask_sum_ge k m :
  Forall (λ row, (k ≤ count_true row)%Z) m →
  (Z.of_nat (length m) * k ≤ MageDecoder.mask_sum m)%Z.
Proof.
  induction 1 as [|row m Hrow _ IH]; [done|].
  rewrite mask_sum_cons. simpl length. lia.
Qed.

Lemma mask_sum_exact k m :
  Forall (λ row, (k ≤ count_true row)%Z) m →
  MageDecoder.mask_sum m = (Z.of_nat (length m) * k)%Z ↔
  Forall (λ row, count_true row = k) m.
Proof.
  induction 1 as [|row m Hrow Hm IH]; [by split|].
  rewrite mask_sum_cons. pose proof (mask_sum_ge k m Hm). split.
  - intros E. simpl length in E.
    constructor; [lia|]. apply IH. lia.
  - intros Hall. inversion Hall as [|? ? E Hall']; subst.
    apply IH in Hall'. simpl length. lia.
Qed.

(** One round on noise of shape (bsz, seq_len), with 1 <= k <= seq_len. *)
Lemma noise_round k bsz seq_len rand :
  (1 ≤ k ≤ Z.of_nat seq_len)%Z →
  ∃ m, MageDecoder.noise_mask k (MageDecoder.rand_tensor bsz seq_len rand)
       = Some m ∧
       length m = bsz ∧
       Forall (λ row, length row = seq_len ∧ (k ≤ count_true row)%Z) m ∧
       ((∀ b i j, (b < bsz)%nat → (i < seq_len)%nat → (j < seq_len)%nat →
                  rand b i = rand b j → i = j) →
        Forall (λ row, count_true row = k) m).
Proof.
  intros Hk.
  pose proof (rand_tensor_rows bsz seq_len rand) as Hrows.
  destruct (mapM_is_Some_2
              (λ conf, le_broadcast conf (cut_off_row k (sort_row conf)))
              (MageDecoder.rand_tensor bsz seq_len rand)) as [m Hm].
  { eapply Forall_impl; [exact Hrows|]. intros conf [Hl _]. simpl.
    apply noise_row_is_Some. lia. }
  apply mapM_Some in Hm.
  exists m. split; [by apply noise_mask_rows|].
  split; [by rewrite <- (Forall2_length _ _ _ Hm), rand_tensor_length|].
  split.
  - apply Forall_lookup. intros b mrow Hb.
    destruct (Forall2_lookup_r _ _ _ _ _ Hm Hb) as (conf & Hconf & Hle).
    destruct (proj1 (Forall_lookup _ _) Hrows b conf Hconf) as [Hl Hnan].
    destruct (noise_row_count k conf mrow) as (? & ? & _); try done; [lia|].
    split; [congruence|done].
  - intros Hinj. apply Forall_lookup. intros b mrow Hb.
    destruct (Forall2_lookup_r _ _ _ _ _ Hm Hb) as (conf & Hconf & Hle).
    destruct (proj1 (Forall_lookup _ _) Hrows b conf Hconf) as [Hl Hnan].
    destruct (noise_row_count k conf mrow) as (_ & _ & Heq); try done; [lia|].
    apply Heq. apply rand_tensor_lookup in Hconf as [Hlt ->].
    apply NoDup_alt. intros i j x Hi Hj.
    rewrite list_lookup_fmap in Hi, Hj.
    apply fmap_Some in Hi as (i' & Hi & ->).
    apply fmap_Some in Hj as (j' & Hj & [= E]).
    apply lookup_seq in Hi as [-> Hi]. apply lookup_seq in Hj as [-> Hj].
    simpl in *. by apply (Hinj b).
Qed.

(** What the loop returns has [k] masked positions in every row. *)
Lemma masking_loop_returned fuel bsz seq_len k rand round m :
  (1 ≤ k ≤ Z.of_nat seq_len)%Z →
  MageDecoder.masking_loop fuel bsz seq_len k rand round
  = MageDecoder.Returned m →
  length m = bsz ∧
  Forall (λ row, length row = seq_len ∧ count_true row = k) m.
Proof.
  intros Hk. revert round.
  induction fuel as [|fuel IH]; intros round H; [done|].
  simpl in H.
  destruct (noise_round k bsz seq_len (rand round) Hk)
    as (m' & Hm' & Hlen & Hrows & _).
  rewrite Hm' in H. case_decide as Hsum; [|by eapply IH].
  injection H as <-. split; [done|].
  rewrite <- Hlen in Hsum.
  apply (mask_sum_exact k) in Hsum.
  - apply Forall_lookup. intros b row Hb. split.
    + by apply (proj1 (Forall_lookup _ _) Hrows b row Hb).
    + by apply (proj1 (Forall_lookup _ _) Hsum b row Hb).
  - eapply Forall_impl; [exact Hrows|]. by intros row [_ ?].
Qed.


(** A round whose noise has no ties within a row ends the loop. *)
Lemma masking_loop_returns n fuel bsz seq_len k rand round :
  (1 ≤ k ≤ Z.of_nat seq_len)%Z →
  (∀ b i j, (b < bsz)%nat → (i < seq_len)%nat → (j < seq_len)%nat →
            rand (round + n)%nat b i = rand (round + n)%nat b j → i = j) →
  (n < fuel)%nat →
  ∃ m, MageDecoder.masking_loop fuel bsz seq_len k rand round
       = MageDecoder.Returned m.
Proof.
  intros Hk. revert fuel round.
  induction n as [|n IH]; intros fuel round Hinj Hfuel;
    (destruct fuel as [|fuel]; [lia|]); simpl;
    destruct (noise_round k bsz seq_len (rand round) Hk)
      as (m' & -> & Hlen & Hrows & Heq).
  - rewrite Nat.add_0_r in Hinj. specialize (Heq Hinj).
    rewrite decide_True; [by eexists|].
    rewrite <- Hlen. apply mask_sum_exact; [|done].
    eapply Forall_impl; [exact Hrows|]. by intros row [_ ?].
  - case_decide; [by eexists|]. apply IH; [|lia].
    intros b i j. rewrite Nat.add_succ_l, <- Nat.add_succ_r. apply Hinj.
Qed.

Lemma masked_token_count (seq_len : nat) mask_rate :
  0 < mask_rate <= 1 → (0 < seq_len)%nat →
  (1 ≤ Zceil (IZR (Z.of_nat seq_len) * mask_rate) ≤ Z.of_nat seq_len)%Z.
Proof.
  intros Hr HL.
  assert (HL' : 1 <= IZR (Z.of_nat seq_len)) by (apply IZR_le; lia).
  pose proof (Zceil_bound (IZR (Z.of_nat seq_len) * mask_rate)) as [Hlo Hhi].
  split.
  - assert (0 < IZR (Zceil (IZR (Z.of_nat seq_len) * mask_rate))) as H0 by nra.
    apply lt_IZR in H0. lia.
  - apply Z.lt_succ_r. apply lt_IZR. rewrite succ_IZR. nra.
Qed.

(** X12.  What [forward_encoder] returns (mask rate in (0, 1], at least
    one token per image): the mask has the shape (bsz, seq_len + 1), the
    class position in front is never masked, and every row has exactly
    ceil(seq_len * mask_rate) masked positions, a number between 1 and
    seq_len; nothing is dropped, the ground truth is the codec's token grid
    and the latent is computed from the unmasked grid with the class label
    in front. *)
Theorem random_masking_exact
    {Image Latent Slots Picture} (model : Model Image Latent Slots Picture)
    (vqgan_tokens : Image → list (list Z)) fuel mask_rate rand image r :
  MageDecoder.forward_encoder model vqgan_tokens fuel mask_rate rand image
  = MageDecoder.Returned r →
  0 < mask_rate <= 1 →
  (0 < length (default [] (head (vqgan_tokens image))))%nat →
  let bsz := length (vqgan_tokens image) in
  let seq_len := length (default [] (head (vqgan_tokens image))) in
  let k := Zceil (IZR (Z.of_nat seq_len) * mask_rate) in
  (1 ≤ k ≤ Z.of_nat seq_len)%Z ∧
  dims (MageDecoder.enc_token_all_mask r) = replicate bsz (S seq_len) ∧
  Forall (λ row, head row = Some false ∧ count_true row = k)
    (MageDecoder.enc_token_all_mask r) ∧
  MageDecoder.enc_token_drop_mask r
  = replicate bsz (replicate (S seq_len) 0%Z) ∧
  MageDecoder.enc_gt_indices r = vqgan_tokens image ∧
  MageDecoder.enc_x r
  = encode model ((λ row, fake_class_label model :: row)
                    <$> vqgan_tokens image).
Proof.
  intros H Hrate HL bsz seq_len k.
  pose proof (masked_token_count seq_len mask_rate Hrate HL) as Hk.
  fold k in Hk. split; [exact Hk|].
  unfold MageDecoder.forward_encoder in H. cbv zeta in H.
  fold bsz seq_len k in H.
  destruct (MageDecoder.masking_loop fuel bsz seq_len k rand 0)
    as [m| |] eqn:E; try done.
  injection H as <-. simpl.
  destruct (masking_loop_returned _ _ _ _ _ _ _ Hk E) as [Hlen Hrows].
  split; [|split; [|split; [|done]]].
  - unfold dims. rewrite <- list_fmap_compose.
    apply list_eq_same_length with bsz;
      [by rewrite length_replicate|by rewrite length_fmap|].
    intros b x y Hb Hx Hy. rewrite list_lookup_fmap in Hx.
    apply fmap_Some in Hx as (row & Hrow & ->).
    apply lookup_replicate in Hy as [-> _]. simpl.
    by destruct (proj1 (Forall_lookup _ _) Hrows b row Hrow) as [-> _].
  - apply Forall_fmap. eapply Forall_impl; [exact Hrows|].
    intros row [_ Hc]. simpl. split; [done|].
    unfold count_true in *. by rewrite filter_cons_False.
  - by rewrite fmap_replicate.
Qed.


(** X14.  A mask rate of 0 makes [forward_encoder] raise in the first
    round of the loop, for a batch of at least one image of at least two
    tokens: the cutoff slice [-1:0] is empty and the comparison of the noise
    with it fails. *)
Theorem random_masking_zero_rate_raises
    {Image Latent Slots Picture} (model : Model Image Latent Slots Picture)
    (vqgan_tokens : Image → list (list Z)) fuel rand image :
  (0 < length (vqgan_tokens image))%nat →
  (2 ≤ length (default [] (head (vqgan_tokens image))))%nat →
  (0 < fuel)%nat →
  MageDecoder.forward_encoder model vqgan_tokens fuel 0 rand image
  = MageDecoder.Raised.
Proof.
  intros HB HL Hfuel. unfold MageDecoder.forward_encoder. cbv zeta.
  rewrite Rmult_0_r.
  replace (Zceil 0) with 0%Z by (symmetry; apply Zceil_eq; simpl; lra).
  destruct fuel as [|fuel]; [lia|]. simpl.
  destruct (MageDecoder.noise_mask _ _) as [m|] eqn:E; [|done].
  exfalso. apply noise_mask_rows in E.
  destruct (lookup_lt_is_Some_2
              (MageDecoder.rand_tensor (length (vqgan_tokens image))
                 (length (default [] (head (vqgan_tokens image))))
                 (rand 0%nat)) 0) as [conf Hconf].
  { by rewrite rand_tensor_length. }
  destruct (Forall2_lookup_l _ _ _ _ _ E Hconf) as (mrow & _ & Hle).
  destruct (proj1 (Forall_lookup _ _) (rand_tensor_rows _ _ _) _ _ Hconf)
    as [Hlen _].
  pose proof (py_slice_one_length (sort_row conf) 0) as Hs.
  rewrite sort_row_length, Hlen in Hs.
  rewrite decide_False in Hs by lia.
  assert (is_Some (le_broadcast conf (cut_off_row 0 (sort_row conf)))) as Hsome
    by (by eexists).
  apply le_broadcast_is_Some in Hsome; unfold cut_off_row in *; lia.
Qed.

(** A run of [forward_encoder] on one image of two tokens, half of them to
    be masked, with noise that grows along the row. *)
Lemma toy_encoder_returns :
  ∃ r, MageDecoder.forward_encoder toy_model (λ _ : unit, [[5; 6]]%Z) 1
         (1 / 2) (λ _ _ i, INR i) ()
       = MageDecoder.Returned r.
Proof.
  assert (Hrate : 0 < 1 / 2 <= 1) by lra.
  pose proof (masked_token_count 2 (1 / 2) Hrate ltac:(lia)) as Hk.
  unfold MageDecoder.forward_encoder. cbv zeta.
  destruct (masking_loop_returns 0 1 1 2 _ (λ _ _ i, INR i) 0 Hk) as [m Hm];
    [|lia|].
  { intros b i j _ _ _ E. by apply INR_eq. }
  change (length [[5; 6]]%Z) with 1%nat.
  change (length (default [] (head [[5; 6]]%Z))) with 2%nat.
  rewrite Hm. by eexists.
Qed.

Lemma random_masking_exact_witness :
  ∃ r,
    MageDecoder.forward_encoder toy_model (λ _ : unit, [[5; 6]]%Z) 1 (1 / 2)
      (λ _ _ i, INR i) ()
    = MageDecoder.Returned r ∧
    0 < 1 / 2 <= 1 ∧
    (0 < length (default [] (head [[5; 6]]%Z)))%nat ∧
    (1 ≤ Zceil (IZR (Z.of_nat (length (default [] (head [[5; 6]]%Z))))
                * (1 / 2))
       ≤ Z.of_nat (length (default [] (head [[5; 6]]%Z))))%Z ∧
    dims (MageDecoder.enc_token_all_mask r)
    = replicate (length [[5; 6]]%Z)
        (S (length (default [] (head [[5; 6]]%Z)))) ∧
    Forall (λ row, head row = Some false ∧
                   count_true row
                   = Zceil (IZR (Z.of_nat
                                   (length (default [] (head [[5; 6]]%Z))))
                            * (1 / 2)))
      (MageDecoder.enc_token_all_mask r) ∧
    MageDecoder.enc_token_drop_mask r
    = replicate (length [[5; 6]]%Z)
        (replicate (S (length (default [] (head [[5; 6]]%Z)))) 0%Z) ∧
    MageDecoder.enc_gt_indices r = [[5; 6]]%Z ∧
    MageDecoder.enc_x r
    = encode toy_model ((λ row, fake_class_label toy_model :: row)
                          <$> [[5; 6]]%Z).
Proof.
  destruct toy_encoder_returns as [r Hr].
  assert (Hrate : 0 < 1 / 2 <= 1) by lra.
  assert (HL : (0 < length (default [] (head [[5; 6]]%Z)))%nat)
    by (simpl; lia).
  exists r. split; [exact Hr|]. split; [exact Hrate|]. split; [exact HL|].
  exact (random_masking_exact toy_model (λ _ : unit, [[5; 6]]%Z) 1 (1 / 2)
           (λ _ _ i, INR i) () r Hr Hrate HL).
Defined.


Lemma random_masking_zero_rate_raises_witness :
  (0 < length [[5; 6]]%Z)%nat ∧
  (2 ≤ length (default [] (head [[5; 6]]%Z)))%nat ∧
  (0 < 1)%nat ∧
  MageDecoder.forward_encoder toy_model (λ _ : unit, [[5; 6]]%Z) 1 0
    (λ _ _ i, INR i) ()
  = MageDecoder.Raised.
Proof.
  assert (HB : (0 < length [[5; 6]]%Z)%nat) by (simpl; lia).
  assert (HL : (2 ≤ length (default [] (head [[5; 6]]%Z)))%nat)
    by (simpl; lia).
  assert (Hf : (0 < 1)%nat) by lia.
  split; [exact HB|]. split; [exact HL|]. split; [exact Hf|].
  exact (random_masking_zero_rate_raises toy_model (λ _ : unit, [[5; 6]]%Z) 1
           (λ _ _ i, INR i) () HB HL Hf).
Defined.

(** * The label-smoothing loss *)

Lemma log_softmax_length l : length (MageDecoder.log_softmax l) = length l.
Proof. unfold MageDecoder.log_softmax. by rewrite length_fmap. Qed.

Lemma log_softmax_nonpos l : Forall (λ a, a <= 0) (MageDecoder.log_softmax l).
Proof.
  unfold MageDecoder.log_softmax. cbv zeta.
  apply Forall_fmap, Forall_forall. intros a Ha. simpl.
  assert (Hle : exp a <= Rsum (exp <$> l)).
  { apply Rsum_elem_le.
    - apply Forall_fmap, Forall_true. intros y. simpl. left. apply exp_pos.
    - by apply list_elem_of_fmap_2. }
  pose proof (exp_pos a) as Hpos.
  assert (ln (exp a) <= ln (Rsum (exp <$> l))) as Hln.
  { destruct Hle as [Hlt|<-]; [left; by apply ln_increasing|right; done]. }
  rewrite ln_exp in Hln. lra.
Qed.

Lemma Rsum_nonpos l : Forall (λ a, a <= 0) l → Rsum l <= 0.
Proof.
  induction 1 as [|a l Ha _ IH]; unfold Rsum in *; simpl; lra.
Qed.

Lemma mean_nonpos l : Forall (λ a, a <= 0) l → MageDecoder.mean l <= 0.
Proof.
  intros H. unfold MageDecoder.mean.
  pose proof (Rsum_nonpos l H) as Hs.
  destruct l as [|a l].
  - unfold Rsum. simpl. lra.
  - assert (0 < INR (length (a :: l))) as Hn by (apply lt_0_INR; simpl; lia).
    apply Rinv_0_lt_compat in Hn. unfold Rdiv. nra.
Qed.

Lemma nll_entry_nonneg l target v :
  MageDecoder.nll_entry (MageDecoder.log_softmax l) target = Some v → 0 <= v.
Proof.
  unfold MageDecoder.nll_entry. case_decide as Hr; [|done]. intros [= <-].
  destruct (nth_lookup_or_length (MageDecoder.log_softmax l)
              (Z.to_nat target) 0) as [Hn|Hn]; [|lia].
  apply list_elem_of_lookup_2 in Hn.
  pose proof (proj1 (Forall_forall _ _) (log_softmax_nonpos l) _ Hn). lra.
Qed.

Lemma nll_entry_is_Some l target :
  is_Some (MageDecoder.nll_entry (MageDecoder.log_softmax l) target)
  ↔ (0 ≤ target < Z.of_nat (length l))%Z.
Proof.
  unfold MageDecoder.nll_entry. rewrite log_softmax_length.
  case_decide; split; try done; try (by eexists); by intros [? ?].
Qed.

Lemma nll_all_is_Some (x : list (list R)) (target : list Z) :
  length target = length x →
  Forall (is_Some ∘ (λ p : list R * Z, MageDecoder.nll_entry p.1 p.2))
    (zip (MageDecoder.log_softmax <$> x) target)
  ↔ Forall2 (λ (l : list R) (t : Z), (0 ≤ t < Z.of_nat (length l))%Z)
      x target.
Proof.
  revert target. induction x as [|l x IH]; intros [|t target] Hlen;
    simplify_eq/=.
  - split; constructor.
  - rewrite Forall_cons, Forall2_cons, IH by done. simpl.
    by rewrite nll_entry_is_Some.
Qed.

Lemma broadcast2_nonneg f a b r :
  (∀ n s, 0 <= n → 0 <= s → 0 <= f n s) →
  Forall (λ v, 0 <= v) a → Forall (λ v, 0 <= v) b →
  MageDecoder.broadcast2 f a b = Some r →
  Forall (λ v, 0 <= v) r.
Proof.
  intros Hf Ha Hb. unfold MageDecoder.broadcast2.
  repeat case_decide; intros [= <-].
  - apply Forall_lookup. intros i v Hv.
    apply lookup_zip_with_Some in Hv as (n & s & -> & Hn & Hs).
    apply Hf.
    + by apply (proj1 (Forall_lookup _ _) Ha i).
    + by apply (proj1 (Forall_lookup _ _) Hb i).
  - apply Forall_fmap. eapply Forall_impl; [exact Hb|]. intros s Hs. simpl.
    apply Hf; [|done]. destruct Ha; simpl; [lra|done].
  - apply Forall_fmap. eapply Forall_impl; [exact Ha|]. intros n Hn. simpl.
    apply Hf; [done|]. destruct Hb; simpl; [lra|done].
Qed.

Lemma lsce_is_Some smoothing (x : list (list R)) (target : list Z) :
  length target = length x →
  is_Some (MageDecoder.label_smoothing_cross_entropy smoothing x target)
  ↔ Forall2 (λ (l : list R) (t : Z), (0 ≤ t < Z.of_nat (length l))%Z)
      x target.
Proof.
  intros Hlen. unfold MageDecoder.label_smoothing_cross_entropy.
  cbv zeta. rewrite decide_True by lia.
  rewrite <- (nll_all_is_Some x target Hlen), <- mapM_is_Some. split.
  - intros [loss H]. apply bind_Some in H as (nll & Hnll & _).
    by eexists.
  - intros [nll Hnll]. rewrite Hnll. simpl.
    unfold MageDecoder.broadcast2. rewrite decide_True; [by eexists|].
    apply length_mapM in Hnll.
    rewrite <- Hnll, length_zip, !length_fmap. lia.
Qed.

Lemma lsce_length smoothing (x : list (list R)) (target : list Z) loss :
  length target = length x →
  MageDecoder.label_smoothing_cross_entropy smoothing x target = Some loss →
  length loss = length x.
Proof.
  intros Hlen. unfold MageDecoder.label_smoothing_cross_entropy.
  cbv zeta. rewrite decide_True by lia. intros H.
  apply bind_Some in H as (nll & Hnll & Hb).
  apply length_mapM in Hnll.
  rewrite length_zip, !length_fmap in Hnll.
  unfold MageDecoder.broadcast2 in Hb.
  rewrite decide_True in Hb by (rewrite !length_fmap; lia).
  injection Hb as <-. rewrite length_zip_with, !length_fmap. lia.
Qed.

Lemma lsce_nonneg smoothing (x : list (list R)) (target : list Z) loss :
  0 <= smoothing <= 1 →
  MageDecoder.label_smoothing_cross_entropy smoothing x target = Some loss →
  Forall (λ v, 0 <= v) loss.
Proof.
  intros Hs. unfold MageDecoder.label_smoothing_cross_entropy. cbv zeta.
  case_decide as Hle; [|done]. intros Hl.
  apply bind_Some in Hl as (nll & Hnll & Hb).
  eapply broadcast2_nonneg; [| | |exact Hb].
  - intros n s Hn Hs'. simpl. nra.
  - apply mapM_Some in Hnll. apply Forall_lookup. intros i v Hv.
    destruct (Forall2_lookup_r _ _ _ _ _ Hnll Hv) as ([lp t] & Hp & Hf).
    apply lookup_zip_with_Some in Hp as (lp' & t' & [= <- <-] & Hlp & _).
    rewrite list_lookup_fmap in Hlp.
    apply fmap_Some in Hlp as (l & _ & ->). simpl in Hf.
    by eapply nll_entry_nonneg.
  - rewrite <- list_fmap_compose. apply Forall_fmap, Forall_true.
    intros l. simpl.
    pose proof (mean_nonpos _ (log_softmax_nonpos l)). lra.
Qed.

(** X15.  [LabelSmoothingCrossEntropy.forward] on N rows of logits and N
    targets, with a smoothing in [0, 1]: it returns exactly when every
    target is an index of its row ([gather] raises otherwise), and then it
    returns N losses, none of them negative. *)
Theorem smoothed_loss_nonneg smoothing (x : list (list R)) (target : list Z) :
  0 <= smoothing <= 1 →
  length target = length x →
  (is_Some (MageDecoder.label_smoothing_cross_entropy smoothing x target)
   ↔ Forall2 (λ (l : list R) (t : Z), (0 ≤ t < Z.of_nat (length l))%Z)
       x target) ∧
  ∀ loss,
    MageDecoder.label_smoothing_cross_entropy smoothing x target = Some loss →
    length loss = length x ∧ Forall (λ v, 0 <= v) loss.
Proof.
  intros Hs Hlen. split; [by apply lsce_is_Some|].
  intros loss H. split; [by eapply lsce_length|by eapply lsce_nonneg].
Qed.

Lemma smoothed_loss_nonneg_witness :
  0 <= 1 / 10 <= 1 ∧
  length [1%Z] = length [[0; 1]] ∧
  Forall2 (λ (l : list R) (t : Z), (0 ≤ t < Z.of_nat (length l))%Z)
    [[0; 1]] [1%Z] ∧
  ∃ loss,
    MageDecoder.label_smoothing_cross_entropy (1 / 10) [[0; 1]] [1%Z]
    = Some loss ∧
    length loss = length [[0; 1]] ∧ Forall (λ v, 0 <= v) loss.
Proof.
  assert (Hs : 0 <= 1 / 10 <= 1) by lra.
  assert (Hlen : length [1%Z] = length [[0; 1]]) by done.
  assert (Hr : Forall2 (λ (l : list R) (t : Z),
                          (0 ≤ t < Z.of_nat (length l))%Z) [[0; 1]] [1%Z]).
  { apply Forall2_cons. split; [simpl; lia|constructor]. }
  split; [exact Hs|]. split; [exact Hlen|]. split; [exact Hr|].
  destruct (smoothed_loss_nonneg (1 / 10) [[0; 1]] [1%Z] Hs Hlen)
    as [Hiff Hall].
  destruct (proj2 Hiff Hr) as [loss Hloss].
  exists loss. split; [exact Hloss|exact (Hall loss Hloss)].
Defined.

Lemma Rsum_exp_add l c :
  Rsum (exp <$> ((λ a, a + c) <$> l)) = exp c * Rsum (exp <$> l).
Proof.
  induction l as [|a l IH]; [unfold Rsum; simpl; lra|].
  rewrite !fmap_cons. unfold Rsum in *. cbn [foldr].
  rewrite IH, exp_plus. ring.
Qed.

Lemma log_softmax_shift l c :
  MageDecoder.log_softmax ((λ a, a + c) <$> l) = MageDecoder.log_softmax l.
Proof.
  destruct (decide (l = [])) as [->|Hne]; [done|].
  unfold MageDecoder.log_softmax. cbv zeta.
  rewrite Rsum_exp_add, ln_mult by (apply exp_pos || by apply Rsum_exp_pos).
  rewrite ln_exp, <- list_fmap_compose.
  apply list_fmap_ext. intros _ a _. simpl. lra.
Qed.

(** X16.  The loss does not change when the same number is added to every
    logit: it depends on the logits through their differences only. *)
Theorem smoothed_loss_shift_invariant smoothing (x : list (list R))
    (target : list Z) (c : R) :
  MageDecoder.label_smoothing_cross_entropy smoothing
    (tmap (λ a, a + c) x) target
  = MageDecoder.label_smoothing_cross_entropy smoothing x target.
Proof.
  assert (E : MageDecoder.log_softmax <$> tmap (λ a, a + c) x
              = MageDecoder.log_softmax <$> x).
  { unfold tmap. rewrite <- list_fmap_compose. apply list_fmap_ext.
    intros _ l _. simpl. apply log_softmax_shift. }
  assert (El : length (tmap (λ a, a + c) x) = length x).
  { unfold tmap. apply length_fmap. }
  unfold MageDecoder.label_smoothing_cross_entropy. cbv zeta.
  by rewrite E, El.
Qed.

(** * The training loss *)

Ltac refold_fmap :=
  repeat match goal with
         | |- context [list_fmap ?A ?B ?f ?l] =>
             change (list_fmap A B f l) with (f <$> l)
         end.

Lemma reshape_join_same {A} c (rows : list (list A)) :
  Forall (λ r : list A, length r = c) rows →
  reshape (replicate (length rows) c) (mjoin rows) = rows.
Proof.
  induction 1 as [|r rows Hr _ IH]; [done|].
  simpl. rewrite take_app_length', drop_app_length' by done. by rewrite IH.
Qed.

Lemma length_join_same {A} c (rows : list (list A)) :
  Forall (λ r : list A, length r = c) rows →
  length (mjoin rows) = (length rows * c)%nat.
Proof. intros H. rewrite length_join. by apply sum_list_fmap_same. Qed.

Lemma reshape_lengths {A} n m (l : list A) :
  length l = (n * m)%nat →
  Forall (λ r : list A, length r = m) (reshape (replicate n m) l).
Proof.
  revert l. induction n as [|n IH]; intros l Hl; simpl; [constructor|].
  constructor.
  - rewrite length_take. lia.
  - apply IH. rewrite length_drop. lia.
Qed.

Lemma reshape_rows_join {A} c (rows : list (list A)) :
  rows ≠ [] →
  Forall (λ r : list A, length r = c) rows →
  MageDecoder.reshape_rows (length rows) (mjoin rows) = Some rows.
Proof.
  intros Hne Hall. unfold MageDecoder.reshape_rows.
  assert (length rows ≠ 0%nat) as Hn by (by destruct rows).
  rewrite decide_False by done.
  rewrite (length_join_same c), (Nat.mul_comm (length rows) c) by done.
  rewrite decide_True by apply Nat.Div0.mod_mul.
  rewrite Nat.div_mul by done.
  by rewrite reshape_join_same.
Qed.

Lemma mapM_app {A B} (f : A → option B) (l1 l2 : list A) :
  mapM f (l1 ++ l2)
  = r1 ← mapM f l1; r2 ← mapM f l2; Some (r1 ++ r2).
Proof.
  induction l1 as [|a l1 IH]; simpl.
  - by destruct (mapM f l2).
  - destruct (f a); simpl; [|done]. rewrite IH.
    destruct (mapM f l1); simpl; [|done]. by destruct (mapM f l2).
Qed.

Lemma zip_join {A B} (xs : list (list A)) (ts : list (list B)) :
  Forall2 (λ (a : list A) (b : list B), length a = length b) xs ts →
  zip (mjoin xs) (mjoin ts) = mjoin (zip_with zip xs ts).
Proof.
  induction 1 as [|a b xs ts Hab _ IH]; [done|].
  change (zip (a ++ mjoin xs) (b ++ mjoin ts)
          = zip a b ++ mjoin (zip_with zip xs ts)).
  rewrite <- IH. unfold zip. by apply zip_with_app.
Qed.

(** With as many targets as rows the loss is computed row by row. *)
Lemma lsce_rows s (x : list (list R)) (t : list Z) :
  length t = length x →
  MageDecoder.label_smoothing_cross_entropy s x t
  = mapM (λ p : list R * Z,
            n ← MageDecoder.nll_entry (MageDecoder.log_softmax p.1) p.2;
            Some ((1 - s) * n + s * - MageDecoder.mean (MageDecoder.log_softmax p.1)))
      (zip x t).
Proof.
  intros Hlen. unfold MageDecoder.label_smoothing_cross_entropy. cbv zeta.
  rewrite decide_True by lia.
  transitivity
    (nll ← mapM (λ p : list R * Z, MageDecoder.nll_entry p.1 p.2)
             (zip (MageDecoder.log_softmax <$> x) t);
     Some (zip_with (λ n sm, (1 - s) * n + s * sm) nll
             ((λ l, - MageDecoder.mean l) <$> (MageDecoder.log_softmax <$> x)))).
  - destruct (mapM _ _) as [nll|] eqn:E; [|done]. simpl.
    apply length_mapM in E. rewrite length_zip, !length_fmap in E.
    unfold MageDecoder.broadcast2.
    by rewrite decide_True by (rewrite !length_fmap; lia).
  - clear Hlen. revert t. induction x as [|l x IH]; intros [|t0 t]; try done.
    simpl. destruct (MageDecoder.nll_entry _ _) as [n|]; simpl; [|done].
    rewrite <- IH.
    refold_fmap.
    by destruct (mapM _ (zip (MageDecoder.log_softmax <$> x) t)).
Qed.

Lemma lsce_app s (a x : list (list R)) (b t : list Z) :
  length b = length a → length t = length x →
  MageDecoder.label_smoothing_cross_entropy s (a ++ x) (b ++ t)
  = r1 ← MageDecoder.label_smoothing_cross_entropy s a b;
    r2 ← MageDecoder.label_smoothing_cross_entropy s x t;
    Some (r1 ++ r2).
Proof.
  intros Ha Hx.
  rewrite !lsce_rows by (rewrite ?length_app; lia).
  rewrite (zip_with_app pair a x b t) by done. apply mapM_app.
Qed.

Lemma lsce_join s (xs : list (list (list R))) (ts : list (list Z)) :
  Forall2 (λ (a : list (list R)) (b : list Z), length a = length b) xs ts →
  MageDecoder.label_smoothing_cross_entropy s (mjoin xs) (mjoin ts)
  = mjoin <$> mapM (λ p : list (list R) * list Z,
                      MageDecoder.label_smoothing_cross_entropy s p.1 p.2)
                (zip xs ts).
Proof.
  induction 1 as [|a b xs ts Hab Hall IH].
  - rewrite lsce_rows by done. done.
  - simpl mjoin. rewrite lsce_app; [|done|].
    + rewrite IH. simpl.
      destruct (MageDecoder.label_smoothing_cross_entropy s a b); [|done].
      simpl. by destruct (mapM _ (zip xs ts)).
    + rewrite !length_join. f_equal.
      clear IH. induction Hall as [|???? E _ IH]; simpl; by f_equal.
Qed.

Lemma mul_mask_same_shape (loss : list (list R)) (mask : list (list bool)) :
  Forall2 (λ (a : list R) (b : list bool), length a = length b) loss mask →
  MageDecoder.mul_mask loss mask
  = Some (zip_with (zip_with (λ l (m : bool), l * (if m then 1 else 0)))
            loss mask).
Proof.
  intros H. unfold MageDecoder.mul_mask.
  unfold MageDecoder.broadcast_with at 1.
  rewrite decide_True by (by eapply Forall2_length).
  apply mapM_Some. induction H as [|a b loss mask Hab _ IH]; [constructor|].
  simpl. constructor; [|exact IH]. simpl.
  unfold MageDecoder.broadcast_with. rewrite decide_True by done.
  apply mapM_Some. clear. revert b.
  induction a as [|x a IH]; intros [|m b]; simpl; constructor; auto.
Qed.

(** The rows the loss is computed on and their targets. *)
Lemma sliced_rows n_embed (logits : list (list (list R))) (L : nat) :
  Forall (λ item : list (list R),
            length item = (8 + L)%nat ∧
            Forall (λ l : list R, (n_embed ≤ length l)%nat) item) logits →
  Forall (λ item : list (list R),
            length item = L ∧
            Forall (λ l : list R, length l = n_embed) item)
    ((λ item : list (list R), take n_embed <$> drop 8 item) <$> logits).
Proof.
  intros H. apply Forall_fmap. eapply Forall_impl; [exact H|].
  intros item [Hlen Hw]. unfold compose. simpl. split.
  - rewrite length_fmap, length_drop. lia.
  - apply Forall_fmap, Forall_drop. eapply Forall_impl; [exact Hw|].
    intros l Hl. unfold compose. simpl in *. rewrite length_take. lia.
Qed.

Section forward_loss_shapes.
Variables (n_embed B L : nat).
Variable gt_indices : list (list Z).
Variable logits : list (list (list R)).
Variable mask : list (list bool).
Hypothesis HB : (0 < B)%nat.
Hypothesis HL : (0 < L)%nat.
Hypothesis Hgt : length gt_indices = B.
Hypothesis Hgt_rows : Forall (λ row : list Z, length row = L) gt_indices.
Hypothesis Hlogits : length logits = B.
Hypothesis Hlogits_rows :
  Forall (λ item : list (list R),
            length item = (8 + L)%nat ∧
            Forall (λ l : list R, (n_embed ≤ length l)%nat) item) logits.
Hypothesis Hmask : length mask = B.
Hypothesis Hmask_rows : Forall (λ row : list bool, length row = S L) mask.

Local Abbreviation sliced :=
  ((λ item : list (list R), take n_embed <$> drop 8 item) <$> logits).
Local Abbreviation mask1 := ((λ row : list bool, drop 1 row) <$> mask).

Lemma sliced_gt_lengths :
  Forall2 (λ (a : list (list R)) (b : list Z), length a = length b)
    sliced gt_indices.
Proof.
  apply Forall2_same_length_lookup. split.
  - rewrite length_fmap. lia.
  - intros i a b Ha Hb.
    pose proof (proj1 (Forall_lookup _ _)
                  (sliced_rows n_embed logits L Hlogits_rows) i a Ha) as [-> _].
    by rewrite (proj1 (Forall_lookup _ _) Hgt_rows i b Hb).
Qed.

Lemma sliced_join_rows :
  mjoin sliced ≠ [] ∧
  length (mjoin sliced) = (B * L)%nat ∧
  Forall (λ l : list R, length l = n_embed) (mjoin sliced).
Proof.
  pose proof (sliced_rows n_embed logits L Hlogits_rows) as Hs.
  assert (Hlen : length (mjoin sliced) = (B * L)%nat).
  { rewrite (length_join_same L), length_fmap, Hlogits; [done|].
    eapply Forall_impl; [exact Hs|]. by intros item [? _]. }
  split; [|split; [done|]].
  - intros E. rewrite E in Hlen. simpl in Hlen. nia.
  - apply Forall_forall. intros l Hl.
    apply list_elem_of_join in Hl as (item & Hl & Hitem).
    destruct (proj1 (Forall_forall _ _) Hs item Hitem) as [_ Hw].
    by apply (proj1 (Forall_forall _ _) Hw).
Qed.

Lemma gt_head_length : length (default [] (head gt_indices)) = L.
Proof.
  destruct gt_indices as [|row rest]; simpl in *; [lia|].
  by inversion Hgt_rows.
Qed.

Lemma mask1_rows : Forall (λ row : list bool, length row = L) mask1.
Proof.
  apply Forall_fmap. eapply Forall_impl; [exact Hmask_rows|].
  intros row Hr. unfold compose. simpl in *. rewrite length_drop. lia.
Qed.

(** The two reshapes of [forward_loss] undone: the losses come from the
    flattened rows and are cut into rows of [L] again. *)
Lemma forward_loss_flat :
  MageDecoder.forward_loss n_embed gt_indices logits mask
  = loss ← MageDecoder.label_smoothing_cross_entropy (1 / 10)
             (mjoin sliced) (mjoin gt_indices);
    Some (MageDecoder.xdiv
            (Rsum (mjoin (zip_with
                            (zip_with (λ l (m : bool),
                                         l * (if m then 1 else 0)))
                            (reshape (replicate B L) loss) mask1)))
            (IZR (MageDecoder.mask_sum mask1))).
Proof.
  unfold MageDecoder.forward_loss. cbv zeta.
  destruct sliced_join_rows as (Hne & Hlen & Hrows).
  rewrite Hgt, gt_head_length, <- Hlen.
  rewrite (reshape_rows_join n_embed) by done. simpl.
  destruct (MageDecoder.label_smoothing_cross_entropy _ _ _) as [loss|] eqn:E;
    [|done]. simpl.
  assert (Hlt : length (mjoin gt_indices) = length (mjoin sliced)).
  { by rewrite Hlen, (length_join_same L), Hgt by done. }
  assert (Hll : length loss = (B * L)%nat).
  { by rewrite (lsce_length _ _ _ _ Hlt E), Hlen. }
  unfold MageDecoder.reshape_to. rewrite decide_True by done. simpl.
  rewrite mul_mask_same_shape; [done|].
  apply Forall2_same_length_lookup. split.
  - rewrite length_reshape, length_replicate, length_fmap. lia.
  - intros i a b Ha Hb.
    rewrite (proj1 (Forall_lookup _ _) (reshape_lengths B L loss Hll) i a Ha).
    by rewrite (proj1 (Forall_lookup _ _) mask1_rows i b Hb).
Qed.

Lemma masked_sum_nonneg (loss : list (list R)) (m : list (list bool)) :
  Forall (Forall (λ v, 0 <= v)) loss →
  0 <= Rsum (mjoin (zip_with
                      (zip_with (λ l (b : bool), l * (if b then 1 else 0)))
                      loss m)).
Proof.
  intros H. apply Rsum_nonneg. apply Forall_forall. intros v Hv.
  apply list_elem_of_join in Hv as (row & Hv & Hrow).
  apply list_elem_of_lookup in Hrow as [i Hi].
  apply lookup_zip_with_Some in Hi as (lrow & mrow & -> & Hl & _).
  apply list_elem_of_lookup in Hv as [j Hj].
  apply lookup_zip_with_Some in Hj as (l & b & -> & Hlj & _).
  pose proof (proj1 (Forall_lookup _ _)
                (proj1 (Forall_lookup _ _) H i lrow Hl) j l Hlj).
  destruct b; simpl in *; lra.
Qed.

Lemma masked_sum_zero (loss : list (list R)) (m : list (list bool)) :
  MageDecoder.mask_sum m = 0%Z →
  Rsum (mjoin (zip_with
                 (zip_with (λ l (b : bool), l * (if b then 1 else 0)))
                 loss m)) = 0.
Proof.
  revert loss. induction m as [|mrow m IH]; intros [|lrow loss] Hm; try done.
  rewrite mask_sum_cons in Hm.
  pose proof (count_true_bounds mrow) as Hc.
  assert (0 ≤ MageDecoder.mask_sum m)%Z as Hs.
  { pose proof (mask_sum_ge 0 m) as Hge. rewrite Z.mul_0_r in Hge.
    apply Hge. apply Forall_forall. intros row _.
    apply count_true_bounds. }
  simpl. unfold Rsum in *. rewrite foldr_app.
  fold (Rsum (mjoin (zip_with
                       (zip_with (λ l (b : bool), l * (if b then 1 else 0)))
                       loss m))).
  unfold Rsum. rewrite IH by lia.
  assert (Hrow : count_true mrow = 0%Z) by lia.
  clear -Hrow. revert lrow.
  induction mrow as [|b mrow IH]; intros [|l lrow]; simpl; try done.
  unfold count_true in *. destruct b.
  - rewrite filter_cons_True in Hrow by done. simpl in Hrow. lia.
  - rewrite filter_cons_False in Hrow by done. rewrite IH by done. lra.
Qed.

Hypothesis Hvalid :
  Forall (Forall (λ t : Z, (0 ≤ t < Z.of_nat n_embed)%Z)) gt_indices.

(** With targets inside the codebook the loss is a quotient: a sum of
    losses, none negative, over the number of masked positions. *)
Lemma forward_loss_value :
  ∃ num,
    0 <= num ∧
    (MageDecoder.mask_sum mask1 = 0%Z → num = 0) ∧
    MageDecoder.forward_loss n_embed gt_indices logits mask
    = Some (MageDecoder.xdiv num (IZR (MageDecoder.mask_sum mask1))).
Proof.
  rewrite forward_loss_flat.
  destruct sliced_join_rows as (Hne & Hlen & Hrows).
  assert (Hlt : length (mjoin gt_indices) = length (mjoin sliced)).
  { by rewrite Hlen, (length_join_same L), Hgt by done. }
  destruct (proj2 (lsce_is_Some (1 / 10) (mjoin sliced) (mjoin gt_indices)
                     Hlt)) as [loss Hloss].
  { apply Forall2_same_length_lookup. split; [done|].
    intros i l t Hl Ht.
    rewrite (proj1 (Forall_lookup _ _) Hrows i l Hl).
    apply list_elem_of_lookup_2, list_elem_of_join in Ht as (row & Ht & Hrow).
    pose proof (proj1 (Forall_forall _ _) Hvalid row Hrow) as Hr.
    by apply (proj1 (Forall_forall _ _) Hr). }
  rewrite Hloss. simpl.
  assert (Hnn : Forall (λ v, 0 <= v) loss).
  { eapply lsce_nonneg; [|exact Hloss]. lra. }
  eexists. split; [|split; [|reflexivity]].
  - apply masked_sum_nonneg. by apply Forall_reshape.
  - apply masked_sum_zero.
Qed.

End forward_loss_shapes.

(** X17.  [forward_loss] on ground truth of shape (B, L), logits of shape
    (B, 8 + L, V) with V at least [n_embed] and a mask of shape (B, L + 1):
    the flattening of logits and targets and the reshaping of the losses
    cancel.  The loss of position j of an item is computed from the logits
    at sequence index 8 + j, cut to the codebook, and the result is the sum
    of the losses at the masked positions (mask column j + 1) divided by the
    number of masked positions. *)
Theorem forward_loss_by_item (n_embed B L : nat) gt_indices logits mask :
  (0 < B)%nat → (0 < L)%nat →
  length gt_indices = B →
  Forall (λ row : list Z, length row = L) gt_indices →
  length logits = B →
  Forall (λ item : list (list R),
            length item = (8 + L)%nat ∧
            Forall (λ l : list R, (n_embed ≤ length l)%nat) item) logits →
  length mask = B →
  Forall (λ row : list bool, length row = S L) mask →
  MageDecoder.forward_loss n_embed gt_indices logits mask
  = losses ← mapM (λ p : list (list R) * list Z,
                     MageDecoder.label_smoothing_cross_entropy (1 / 10)
                       (take n_embed <$> drop 8 p.1) p.2)
               (zip logits gt_indices);
    Some (MageDecoder.xdiv
            (Rsum (mjoin (zip_with
                            (zip_with (λ l (m : bool),
                                         l * (if m then 1 else 0)))
                            losses
                            ((λ row : list bool, drop 1 row) <$> mask))))
            (IZR (MageDecoder.mask_sum
                    ((λ row : list bool, drop 1 row) <$> mask)))).
Proof.
  intros HB HL Hgt Hgt_rows Hlogits Hlogits_rows Hmask Hmask_rows.
  rewrite (forward_loss_flat n_embed B L gt_indices logits mask) by done.
  rewrite lsce_join by (by eapply (sliced_gt_lengths n_embed B L)).
  assert (Hzip : zip ((λ item : list (list R), take n_embed <$> drop 8 item)
                        <$> logits) gt_indices
                 = (λ p : list (list R) * list Z,
                      (take n_embed <$> drop 8 p.1, p.2))
                   <$> zip logits gt_indices).
  { clear. revert gt_indices.
    induction logits as [|item logits IH]; intros [|row gt]; try done.
    simpl. by rewrite IH. }
  assert (Hmap : mapM (λ p : list (list R) * list Z,
                         MageDecoder.label_smoothing_cross_entropy (1 / 10)
                           p.1 p.2)
                   (zip ((λ item : list (list R),
                            take n_embed <$> drop 8 item) <$> logits)
                      gt_indices)
                 = mapM (λ p : list (list R) * list Z,
                     MageDecoder.label_smoothing_cross_entropy (1 / 10)
                       (take n_embed <$> drop 8 p.1) p.2)
                     (zip logits gt_indices)).
  { rewrite Hzip. generalize (zip logits gt_indices). intros ps.
    induction ps as [|p ps IH]; [done|]. simpl. refold_fmap.
    by rewrite IH. }
  rewrite Hmap.
  destruct (mapM _ (zip logits gt_indices)) as [losses|] eqn:E; [|done].
  simpl.
  assert (HBl : length losses = B).
  { apply length_mapM in E. rewrite length_zip in E. lia. }
  rewrite <- HBl, (reshape_join_same L); [done|].
  apply Forall_lookup. intros i loss Hi.
  apply mapM_Some in E.
  destruct (Forall2_lookup_r _ _ _ _ _ E Hi) as ([item row] & Hp & Hl).
  apply lookup_zip_with_Some in Hp as (? & ? & [= <- <-] & Hitem & Hrow).
  simpl in Hl.
  destruct (proj1 (Forall_lookup _ _) Hlogits_rows i item Hitem) as [Hi8 _].
  pose proof (proj1 (Forall_lookup _ _) Hgt_rows i row Hrow) as Hr.
  cbv beta in Hr.
  assert (Hlt : length row = length (take n_embed <$> drop 8 item)).
  { rewrite length_fmap, length_drop. lia. }
  rewrite (lsce_length _ _ _ _ Hlt Hl), length_fmap, length_drop. lia.
Qed.

Lemma forward_loss_by_item_witness :
  (0 < 1)%nat ∧ (0 < 1)%nat ∧
  length [[0%Z]] = 1%nat ∧
  Forall (λ row : list Z, length row = 1%nat) [[0%Z]] ∧
  length [replicate 9 [0]] = 1%nat ∧
  Forall (λ item : list (list R),
            length item = (8 + 1)%nat ∧
            Forall (λ l : list R, (1 ≤ length l)%nat) item)
    [replicate 9 [0]] ∧
  length [[false; true]] = 1%nat ∧
  Forall (λ row : list bool, length row = 2%nat) [[false; true]] ∧
  MageDecoder.forward_loss 1 [[0%Z]] [replicate 9 [0]] [[false; true]]
  = losses ← mapM (λ p : list (list R) * list Z,
                     MageDecoder.label_smoothing_cross_entropy (1 / 10)
                       (take 1 <$> drop 8 p.1) p.2)
               (zip [replicate 9 [0]] [[0%Z]]);
    Some (MageDecoder.xdiv
            (Rsum (mjoin (zip_with
                            (zip_with (λ l (m : bool),
                                         l * (if m then 1 else 0)))
                            losses
                            ((λ row : list bool, drop 1 row)
                               <$> [[false; true]]))))
            (IZR (MageDecoder.mask_sum
                    ((λ row : list bool, drop 1 row) <$> [[false; true]])))).
Proof.
  assert (H1 : (0 < 1)%nat) by lia.
  assert (H2 : length [[0%Z]] = 1%nat) by reflexivity.
  assert (H3 : Forall (λ row : list Z, length row = 1%nat) [[0%Z]]).
  { by apply Forall_singleton. }
  assert (H4 : length [replicate 9 [0]] = 1%nat) by reflexivity.
  assert (H5 : Forall (λ item : list (list R),
                         length item = (8 + 1)%nat ∧
                         Forall (λ l : list R, (1 ≤ length l)%nat) item)
                 [replicate 9 [0]]).
  { apply Forall_singleton. split; [reflexivity|].
    apply Forall_replicate. simpl. lia. }
  assert (H6 : length [[false; true]] = 1%nat) by reflexivity.
  assert (H7 : Forall (λ row : list bool, length row = 2%nat)
                 [[false; true]]).
  { by apply Forall_singleton. }
  split; [exact H1|]. split; [exact H1|]. split; [exact H2|].
  split; [exact H3|]. split; [exact H4|]. split; [exact H5|].
  split; [exact H6|]. split; [exact H7|].
  exact (forward_loss_by_item 1 1 1 [[0%Z]] [replicate 9 [0]] [[false; true]]
           H1 H1 H2 H3 H4 H5 H6 H7).
Defined.

(** X18.  [forward_loss] on tensors of the shapes [forward] passes, with
    targets inside the codebook: when no position is masked the loss is NaN
    (0 / 0); otherwise it is a finite number, not negative. *)
Theorem forward_loss_finite (n_embed B L : nat) gt_indices logits mask :
  (0 < B)%nat → (0 < L)%nat →
  length gt_indices = B →
  Forall (λ row : list Z, length row = L) gt_indices →
  length logits = B →
  Forall (λ item : list (list R),
            length item = (8 + L)%nat ∧
            Forall (λ l : list R, (n_embed ≤ length l)%nat) item) logits →
  length mask = B →
  Forall (λ row : list bool, length row = S L) mask →
  Forall (Forall (λ t : Z, (0 ≤ t < Z.of_nat n_embed)%Z)) gt_indices →
  (MageDecoder.mask_sum ((λ row : list bool, drop 1 row) <$> mask) = 0%Z →
   MageDecoder.forward_loss n_embed gt_indices logits mask = Some XNaN) ∧
  (MageDecoder.mask_sum ((λ row : list bool, drop 1 row) <$> mask) ≠ 0%Z →
   ∃ v, MageDecoder.forward_loss n_embed gt_indices logits mask
        = Some (XFin v) ∧ 0 <= v).
Proof.
  intros HB HL Hgt Hgt_rows Hlogits Hlogits_rows Hmask Hmask_rows Hvalid.
  destruct (forward_loss_value n_embed B L gt_indices logits mask)
    as (num & Hnum & Hzero & ->); try done.
  unfold MageDecoder.xdiv. split.
  - intros E. rewrite E, (Hzero E).
    rewrite decide_True by done. by rewrite decide_True.
  - intros Hne.
    assert (0 < IZR (MageDecoder.mask_sum
                       ((λ row : list bool, drop 1 row) <$> mask))) as Hpos.
    { apply IZR_lt.
      pose proof (mask_sum_ge 0 ((λ row : list bool, drop 1 row) <$> mask))
        as Hge.
      rewrite Z.mul_0_r in Hge.
      assert (0 ≤ MageDecoder.mask_sum
                    ((λ row : list bool, drop 1 row) <$> mask))%Z; [|lia].
      apply Hge, Forall_forall. intros row _. apply count_true_bounds. }
    rewrite decide_False by lra. eexists. split; [reflexivity|].
    apply Rinv_0_lt_compat in Hpos. unfold Rdiv. nra.
Qed.

Lemma forward_loss_finite_witness :
  (0 < 1)%nat ∧ (0 < 1)%nat ∧
  length [[0%Z]] = 1%nat ∧
  Forall (λ row : list Z, length row = 1%nat) [[0%Z]] ∧
  length [replicate 9 [0]] = 1%nat ∧
  Forall (λ item : list (list R),
            length item = (8 + 1)%nat ∧
            Forall (λ l : list R, (1 ≤ length l)%nat) item)
    [replicate 9 [0]] ∧
  length [[false; true]] = 1%nat ∧
  Forall (λ row : list bool, length row = 2%nat) [[false; true]] ∧
  Forall (Forall (λ t : Z, (0 ≤ t < Z.of_nat 1)%Z)) [[0%Z]] ∧
  MageDecoder.mask_sum ((λ row : list bool, drop 1 row) <$> [[false; true]])
  ≠ 0%Z ∧
  ∃ v, MageDecoder.forward_loss 1 [[0%Z]] [replicate 9 [0]] [[false; true]]
       = Some (XFin v) ∧ 0 <= v.
Proof.
  assert (H1 : (0 < 1)%nat) by lia.
  assert (H2 : length [[0%Z]] = 1%nat) by reflexivity.
  assert (H3 : Forall (λ row : list Z, length row = 1%nat) [[0%Z]]).
  { by apply Forall_singleton. }
  assert (H4 : length [replicate 9 [0]] = 1%nat) by reflexivity.
  assert (H5 : Forall (λ item : list (list R),
                         length item = (8 + 1)%nat ∧
                         Forall (λ l : list R, (1 ≤ length l)%nat) item)
                 [replicate 9 [0]]).
  { apply Forall_singleton. split; [reflexivity|].
    apply Forall_replicate. simpl. lia. }
  assert (H6 : length [[false; true]] = 1%nat) by reflexivity.
  assert (H7 : Forall (λ row : list bool, length row = 2%nat)
                 [[false; true]]).
  { by apply Forall_singleton. }
  assert (H8 : Forall (Forall (λ t : Z, (0 ≤ t < Z.of_nat 1)%Z)) [[0%Z]]).
  { apply Forall_singleton, Forall_singleton. lia. }
  assert (H9 : MageDecoder.mask_sum
                 ((λ row : list bool, drop 1 row) <$> [[false; true]])
               ≠ 0%Z) by (by vm_compute).
  split; [exact H1|]. split; [exact H1|]. split; [exact H2|].
  split; [exact H3|]. split; [exact H4|]. split; [exact H5|].
  split; [exact H6|]. split; [exact H7|]. split; [exact H8|].
  split; [exact H9|].
  exact (proj2 (forward_loss_finite 1 1 1 [[0%Z]] [replicate 9 [0]]
                  [[false; true]] H1 H1 H2 H3 H4 H5 H6 H7 H8) H9).
Defined.

(** * One training step *)







(** * The token embedder *)

Section bert_embeddings.
Context {V : Type}.
Variables (word pos : list V) (add : V → V → V) (LayerNorm : V → V).
Variable dropout : nat → nat → V → V.

Lemma embedding_is_Some (weight : list V) (id : Z) :
  is_Some (MageDecoder.BertEmbeddings.embedding weight id)
  ↔ (0 ≤ id < Z.of_nat (length weight))%Z.
Proof.
  unfold MageDecoder.BertEmbeddings.embedding. case_decide as H.
  - rewrite lookup_lt_is_Some. lia.
  - split; [by intros [? ?]|lia].
Qed.

Lemma position_embeddings_lookup (n : nat) :
  mapM (λ i : nat, MageDecoder.BertEmbeddings.embedding pos (Z.of_nat i))
    (take n (seq 0 (length pos)))
  = Some (take n pos).
Proof.
  apply mapM_Some, Forall2_same_length_lookup. split.
  - by rewrite !length_take, length_seq.
  - intros i j y Hj Hy.
    apply lookup_take_Some in Hj as [Hj _].
    apply lookup_take_Some in Hy as [Hy _].
    apply lookup_seq in Hj as [-> _].
    unfold MageDecoder.BertEmbeddings.embedding.
    rewrite decide_True by lia. by rewrite Nat2Z.id.
Qed.

Lemma add_broadcast_is_Some (row p : list V) :
  (length p ≤ length row)%nat → (2 ≤ length p ∨ length p = length row)%nat →
  is_Some (MageDecoder.BertEmbeddings.add_broadcast add row p)
  ↔ length row = length p.
Proof.
  intros Hle Hp. unfold MageDecoder.BertEmbeddings.add_broadcast.
  case_decide as E; [split; [done|by eexists]|].
  split; [|done]. intros [r Hr].
  destruct row as [|x [|x' row]], p as [|y [|y' p]]; simpl in *;
    simplify_eq; lia.
Qed.

Lemma forward_is_Some (input_ids : list (list Z)) (n : nat) :
  Forall (λ row : list Z, length row = n) input_ids →
  Forall (Forall (λ id : Z, (0 ≤ id < Z.of_nat (length word))%Z)) input_ids →
  (n ≤ length pos)%nat →
  is_Some (MageDecoder.BertEmbeddings.forward word pos add LayerNorm dropout
             input_ids).
Proof.
  intros Hrows Hids Hn. unfold MageDecoder.BertEmbeddings.forward. cbv zeta.
  destruct (mapM_is_Some_2
              (mapM (MageDecoder.BertEmbeddings.embedding word)) input_ids)
    as [emb Hemb].
  { eapply Forall_impl; [exact Hids|]. intros row Hrow. simpl.
    apply mapM_is_Some_2. eapply Forall_impl; [exact Hrow|].
    intros id Hid. simpl. by apply embedding_is_Some. }
  rewrite Hemb, position_embeddings_lookup. simpl.
  assert (Hhead : (length (default [] (head input_ids)) ≤ n)%nat).
  { destruct input_ids as [|row rest]; simpl; [lia|].
    inversion Hrows; subst. lia. }
  destruct (mapM_is_Some_2
              (λ row : list V,
                 MageDecoder.BertEmbeddings.add_broadcast add row
                   (take (length (default [] (head input_ids))) pos)) emb)
    as [sums Hsums]; [|rewrite Hsums; by eexists].
  apply mapM_Some in Hemb. apply Forall_lookup. intros b erow Hb.
  destruct (Forall2_lookup_r _ _ _ _ _ Hemb Hb) as (row & Hrow & Hmap).
  apply length_mapM in Hmap.
  pose proof (proj1 (Forall_lookup _ _) Hrows b row Hrow) as Hl.
  simpl in *.
  assert (length (default [] (head input_ids)) = n) as Hh.
  { destruct input_ids as [|row0 rest]; [done|]. simpl.
    by inversion Hrows. }
  unfold MageDecoder.BertEmbeddings.add_broadcast.
  rewrite decide_True; [by eexists|]. rewrite length_take. lia.
Qed.

End bert_embeddings.

(** X20.  [BertEmbeddings.forward] on a batch of at least one row of n ids,
    with a position table of at least two rows: it returns exactly when
    every id is an index of the word table and n does not exceed the number
    of positions; an id outside the vocabulary and a sequence longer than
    the position table both raise. *)
Theorem embedder_bounds {V} (word pos : list V) (add : V → V → V)
    (LayerNorm : V → V) (dropout : nat → nat → V → V)
    (input_ids : list (list Z)) (n : nat) :
  input_ids ≠ [] →
  Forall (λ row : list Z, length row = n) input_ids →
  (2 ≤ length pos)%nat →
  is_Some (MageDecoder.BertEmbeddings.forward word pos add LayerNorm dropout
             input_ids)
  ↔ Forall (Forall (λ id : Z, (0 ≤ id < Z.of_nat (length word))%Z)) input_ids
    ∧ (n ≤ length pos)%nat.
Proof.
  intros Hne Hrows Hpos. split; [|intros [? ?]; by eapply forward_is_Some].
  intros [out H]. unfold MageDecoder.BertEmbeddings.forward in H.
  cbv zeta in H. apply bind_Some in H as (emb & Hemb & H).
  rewrite position_embeddings_lookup in H. simpl in H.
  apply bind_Some in H as (sums & Hsums & _).
  apply mapM_Some in Hemb. split.
  - apply Forall_lookup. intros b row Hrow.
    destruct (Forall2_lookup_l _ _ _ _ _ Hemb Hrow) as (erow & _ & Hmap).
    assert (Hall : Forall (is_Some ∘ MageDecoder.BertEmbeddings.embedding word)
                     row).
    { apply mapM_is_Some_1. by eexists. }
    eapply Forall_impl; [exact Hall|]. intros id Hid.
    by apply embedding_is_Some.
  - destruct input_ids as [|row0 rest]; [done|].
    inversion Hemb as [|? erow0 ? emb' Hmap _]; subst.
    apply length_mapM in Hmap.
    assert (Hn : length row0 = n) by (by inversion Hrows).
    simpl in Hsums. apply bind_Some in Hsums as (r & Hr & _).
    assert (is_Some (MageDecoder.BertEmbeddings.add_broadcast add erow0
                       (take (length row0) pos))) as Hs by (by eexists).
    apply add_broadcast_is_Some in Hs; rewrite length_take in *; lia.
Qed.

Lemma embedder_bounds_witness :
  [[0; 1]]%Z ≠ [] ∧
  Forall (λ row : list Z, length row = 2%nat) [[0; 1]]%Z ∧
  (2 ≤ length [(); ()])%nat ∧
  Forall (Forall (λ id : Z, (0 ≤ id < Z.of_nat (length [(); ()]))%Z))
    [[0; 1]]%Z ∧
  (2 ≤ length [(); ()])%nat ∧
  is_Some (MageDecoder.BertEmbeddings.forward [(); ()] [(); ()] (λ _ _, ())
             (λ v, v) (λ _ _ v, v) [[0; 1]]%Z).
Proof.
  assert (H1 : [[0; 1]]%Z ≠ []) by done.
  assert (H2 : Forall (λ row : list Z, length row = 2%nat) [[0; 1]]%Z).
  { by apply Forall_singleton. }
  assert (H3 : (2 ≤ length [(); ()])%nat) by (simpl; lia).
  assert (H4 : Forall (Forall (λ id : Z,
                                 (0 ≤ id < Z.of_nat (length [(); ()]))%Z))
                 [[0; 1]]%Z).
  { apply Forall_singleton, Forall_cons. split; [simpl; lia|].
    apply Forall_singleton. simpl. lia. }
  split; [exact H1|]. split; [exact H2|]. split; [exact H3|].
  split; [exact H4|]. split; [exact H3|].
  exact (proj2 (embedder_bounds [(); ()] [(); ()] (λ _ _, ()) (λ v, v)
                  (λ _ _ v, v) [[0; 1]]%Z 2 H1 H2 H3) (conj H4 H3)).
Defined.

(** X21.  In every pass of a run of [gen_image], with the labels
    [__init__] derives from a codebook of 1024 entries, the sequence handed
    to the token embedder is within its tables: every id is below the
    vocabulary size 2025 and the 257 positions are those the position table
    has, so the embedder returns. *)
Theorem generation_embeds_within_tables
    {Image Latent Slots Picture V} (model : Model Image Latent Slots Picture)
    (rnd : Sampler) image bsz num_iter ct its t it
    (word pos : list V) (add : V → V → V) (LayerNorm : V → V)
    (dropout : nat → nat → V → V) :
  mask_token_label model
  = MageDecoder.mask_token_label (Z.of_nat codebook_size) →
  fake_class_label model
  = MageDecoder.fake_class_label (Z.of_nat codebook_size) →
  Z.of_nat (length word) = MageDecoder.vocab_size (Z.of_nat codebook_size) →
  length pos = MageDecoder.max_position_embeddings →
  gen_image_iterations model rnd image bsz num_iter ct = Some its →
  its !! t = Some it →
  is_Some (MageDecoder.BertEmbeddings.forward word pos add LayerNorm dropout
             ((λ row, fake_class_label model :: row) <$> it_cur_ids it)).
Proof.
  intros Hmask Hclass Hword Hpos H Ht.
  destruct (gen_image_iterations_lookup _ _ _ _ _ _ _ _ _ H Ht)
    as (_ & _ & Hd & Hv).
  unfold MageDecoder.mask_token_label, MageDecoder.vocab_size in Hmask.
  unfold MageDecoder.fake_class_label in Hclass.
  unfold MageDecoder.vocab_size in Hword.
  apply (forward_is_Some word pos add LayerNorm dropout _ 257).
  - apply Forall_fmap, Forall_lookup. intros b row Hrow. simpl.
    by rewrite (dims_replicate_lookup _ _ _ _ _ Hd Hrow).
  - apply Forall_fmap. eapply Forall_impl; [exact Hv|].
    intros row Hrow. simpl. apply Forall_cons. split.
    + rewrite Hclass, Hword. unfold codebook_size. lia.
    + eapply Forall_impl; [exact Hrow|]. intros id [->|Hid].
      * rewrite Hmask, Hword. unfold codebook_size. lia.
      * rewrite Hword. unfold codebook_size in *. lia.
  - rewrite Hpos. unfold MageDecoder.max_position_embeddings. lia.
Qed.

Lemma generation_embeds_within_tables_witness :
  ∃ its it,
    mask_token_label toy_model
    = MageDecoder.mask_token_label (Z.of_nat codebook_size) ∧
    fake_class_label toy_model
    = MageDecoder.fake_class_label (Z.of_nat codebook_size) ∧
    Z.of_nat (length (replicate 2025 ()))
    = MageDecoder.vocab_size (Z.of_nat codebook_size) ∧
    length (replicate 257 ()) = MageDecoder.max_position_embeddings ∧
    gen_image_iterations toy_model toy_sampler () 1 1 (9 / 2) = Some its ∧
    its !! 0%nat = Some it ∧
    is_Some (MageDecoder.BertEmbeddings.forward (replicate 2025 ())
               (replicate 257 ()) (λ _ _, ()) (λ v, v) (λ _ _ v, v)
               ((λ row, fake_class_label toy_model :: row)
                  <$> it_cur_ids it)).
Proof.
  destruct (gen_image_iterations_is_Some toy_model toy_sampler () 1 1
              (9 / 2) toy_decoder_shaped ltac:(lia)) as (its & H & Hlen).
  destruct (lookup_lt_is_Some_2 its 0) as [it Ht]; [lia|].
  assert (H1 : mask_token_label toy_model
               = MageDecoder.mask_token_label (Z.of_nat codebook_size))
    by reflexivity.
  assert (H2 : fake_class_label toy_model
               = MageDecoder.fake_class_label (Z.of_nat codebook_size))
    by reflexivity.
  assert (H3 : Z.of_nat (length (replicate 2025 ()))
               = MageDecoder.vocab_size (Z.of_nat codebook_size)).
  { rewrite length_replicate. reflexivity. }
  assert (H4 : length (replicate 257 ())
               = MageDecoder.max_position_embeddings).
  { by rewrite length_replicate. }
  exists its, it. split; [exact H1|]. split; [exact H2|]. split; [exact H3|].
  split; [exact H4|]. split; [exact H|]. split; [exact Ht|].
  exact (generation_embeds_within_tables toy_model toy_sampler () 1 1 (9 / 2)
           its 0 it (replicate 2025 ()) (replicate 257 ()) (λ _ _, ())
           (λ v, v) (λ _ _ v, v) H1 H2 H3 H4 H Ht).
Defined.

(** * The input of the decoder blocks *)

Section decoder_input_props.
Context {V : Type}.
Variables (add : V → V → V) (mask_token : V) (pad_with_cls_token : bool).
Variable decoder_pos_embed_learned : list V.

Local Abbreviation put_pair :=
  (λ (t : list (list V)) (pv : (nat * nat) * V),
     MageDecoder.put t pv.1 pv.2).

(** The positions of a tensor of the shape of [t], in row-major order. *)
Lemma nonzero_row (b k : nat) (row : list Z) :
  Forall (λ d : Z, d = 0%Z) row →
  (λ p : nat * Z, (b, p.1))
    <$> filter (λ p : nat * Z, p.2 ≠ 0%Z)
          (imap (λ (j : nat) (d : Z), ((k + j)%nat, d))
             ((λ d : Z, (1 - d)%Z) <$> row))
  = (λ j : nat, (b, j)) <$> seq k (length row).
Proof.
  intros H. revert k. induction H as [|d row -> _ IH]; intros k; [done|].
  rewrite fmap_cons, imap_cons. simpl length. simpl seq.
  rewrite filter_cons_True by (simpl; lia).
  rewrite !fmap_cons. simpl. rewrite Nat.add_0_r. f_equal.
  rewrite <- (IH (S k)). do 2 f_equal.
  apply imap_ext. intros j d _. simpl. f_equal. lia.
Qed.

Lemma nonzero_zeros (t : list (list Z)) :
  Forall (Forall (λ d : Z, d = 0%Z)) t →
  MageDecoder.nonzero (tmap (λ d : Z, (1 - d)%Z) t)
  = mjoin (imap (λ (b : nat) (n : nat), (λ j : nat, (b, j)) <$> seq 0 n)
             (dims t)).
Proof.
  intros H. unfold MageDecoder.nonzero, tmap, dims. f_equal.
  rewrite !imap_fmap. apply imap_ext. intros b row Hrow. simpl.
  apply (nonzero_row b 0).
  by apply (proj1 (Forall_lookup _ _) H b).
Qed.

Lemma put_row (b : nat) (xs : list V) (k : nat) (t : list (list V))
    (row : list V) :
  t !! b = Some row → (k + length xs ≤ length row)%nat →
  foldl put_pair t (zip ((λ j : nat, (b, j)) <$> seq k (length xs)) xs)
  = <[b := take k row ++ xs ++ drop (k + length xs) row]> t.
Proof.
  revert k t row. induction xs as [|v xs IH]; intros k t row Ht Hk.
  - simpl. rewrite Nat.add_0_r, take_drop. by rewrite list_insert_id.
  - simpl length in *. simpl seq. rewrite fmap_cons. simpl zip. simpl foldl.
    unfold MageDecoder.put at 2. simpl. rewrite Ht.
    assert (Hb : (b < length t)%nat) by (by eapply lookup_lt_Some).
    rewrite (IH (S k) _ (<[k := v]> row)).
    + rewrite list_insert_insert_eq. f_equal.
      rewrite (take_S_r _ _ v) by (apply list_lookup_insert_eq; lia).
      rewrite take_insert_ge by lia. rewrite drop_insert_lt by lia.
      rewrite <- !app_assoc. simpl. do 3 f_equal. f_equal. lia.
    + by apply list_lookup_insert_eq.
    + rewrite length_insert. lia.
Qed.

Lemma put_rows (xs : list (list V)) (r : nat) (done rest : list (list V)) :
  length done = r →
  Forall2 (λ a b : list V, length a = length b) rest xs →
  foldl put_pair (done ++ rest)
    (mjoin (zip_with zip
              (imap (λ (b : nat) (n : nat),
                       (λ j : nat, ((r + b)%nat, j)) <$> seq 0 n)
                 (length <$> xs))
              xs))
  = done ++ xs.
Proof.
  revert r done rest. induction xs as [|x xs IH]; intros r done rest Hr H.
  - inversion H; subst. done.
  - inversion H as [|row ? rest' ? Hlen Hrest]; subst.
    rewrite fmap_cons, imap_cons. simpl zip_with.
    change (mjoin (?l :: ?ls)) with (l ++ mjoin ls).
    rewrite foldl_app, Nat.add_0_r.
    rewrite (put_row (length done) x 0 _ row).
    + simpl take. rewrite Nat.add_0_l, drop_ge, app_nil_r by lia.
      rewrite insert_app_r_alt, Nat.sub_diag by lia. simpl.
      rewrite (cons_middle x done rest'), app_assoc.
      rewrite (cons_middle x done xs), app_assoc.
      replace (imap ((λ (b n : nat),
                        (λ j : nat, ((length done + b)%nat, j)) <$> seq 0 n)
                     ∘ S) (length <$> xs))
        with (imap (λ (b n : nat),
                      (λ j : nat, ((S (length done) + b)%nat, j))
                        <$> seq 0 n) (length <$> xs)).
      * apply IH; [|done]. rewrite length_app. simpl. lia.
      * apply imap_ext. intros b n _. simpl.
        apply list_fmap_ext. intros _ j _. f_equal. lia.
    + by rewrite lookup_app_r, Nat.sub_diag by lia.
    + lia.
Qed.

Lemma join_positions_length (shape : list nat) (r : nat) :
  length (mjoin (imap (λ (b : nat) (n : nat),
                         (λ j : nat, ((r + b)%nat, j)) <$> seq 0 n) shape))
  = sum_list shape.
Proof.
  revert r. induction shape as [|n shape IH]; intros r; [done|].
  rewrite imap_cons. change (mjoin (?l :: ?ls)) with (l ++ mjoin ls).
  rewrite length_app, length_fmap, length_seq. simpl. f_equal.
  rewrite <- (IH (S r)). do 2 f_equal.
  apply imap_ext. intros b m _. simpl.
  apply list_fmap_ext. intros _ j _. f_equal. lia.
Qed.

(** With every position kept, the indexed assignment of the flattened [x]
    into a tensor of the shape of [x] gives [x] back. *)
Lemma index_put_all (base x : list (list V)) :
  dims base = dims x →
  MageDecoder.index_put base
    (mjoin (imap (λ (b : nat) (n : nat), (λ j : nat, (b, j)) <$> seq 0 n)
              (dims x)))
    (mjoin x)
  = Some x.
Proof.
  intros Hd. unfold MageDecoder.index_put.
  rewrite decide_True.
  - rewrite decide_True.
    + f_equal. rewrite zip_join.
      * pose proof (put_rows x 0 [] base eq_refl) as H. simpl in H.
        unfold dims. apply H.
        apply Forall2_same_length_lookup. split.
        { by rewrite <- !dims_length, Hd. }
        intros b row xr Hrow Hx.
        assert (dims base !! b = Some (length row)) as E
          by (unfold dims; by rewrite list_lookup_fmap, Hrow).
        rewrite Hd in E. unfold dims in E.
        rewrite list_lookup_fmap, Hx in E. by injection E.
      * apply Forall2_same_length_lookup. split.
        { by rewrite length_imap, dims_length. }
        intros b ps xr Hps Hx. rewrite list_lookup_imap in Hps.
        unfold dims in Hps. rewrite list_lookup_fmap, Hx in Hps.
        simpl in Hps. injection Hps as <-.
        by rewrite length_fmap, length_seq.
    + pose proof (join_positions_length (dims x) 0) as H. simpl in H.
      by rewrite H, length_join.
  - apply Forall_forall. intros [b j] Hp.
    apply list_elem_of_join in Hp as (ps & Hp & Hps).
    apply list_elem_of_lookup in Hps as [b' Hps].
    rewrite list_lookup_imap in Hps.
    destruct (dims x !! b') as [n|] eqn:En; [|done].
    simpl in Hps. injection Hps as <-.
    apply list_elem_of_fmap in Hp as (j' & [= -> ->] & Hj).
    apply elem_of_seq in Hj. simpl.
    rewrite <- Hd in En. unfold dims in En.
    rewrite list_lookup_fmap in En.
    destruct (base !! b') as [row|] eqn:Erow; [|done].
    simpl in En. injection En as <-.
    unfold tget. rewrite Erow. simpl. apply lookup_lt_is_Some. lia.
Qed.

Lemma join_replicate_singleton (M : nat) (c : V) :
  mjoin (replicate M [c]) = replicate M c.
Proof. induction M as [|M IH]; [done|]. simpl. by rewrite IH. Qed.

Section layout.
Variables (x slots : list (list V)) (token_drop_mask : list (list Z)).
Variable token_all_mask : list (list bool).
Variables (B M : nat).
Hypothesis Hx : dims x = replicate B M.
Hypothesis Hmask : dims token_all_mask = replicate B M.

Local Abbreviation mask_tokens :=
  (if pad_with_cls_token
   then (λ item : list V,
           mjoin (replicate (length (default [] (head token_all_mask)))
                    (take 1 item))) <$> x
   else replicate (length token_all_mask)
          (replicate (length (default [] (head token_all_mask)))
             mask_token)).

Lemma mask_head_length :
  B ≠ 0%nat → length (default [] (head token_all_mask)) = M.
Proof.
  intros HB. destruct token_all_mask as [|mrow rest]; simpl in *.
  - by destruct B.
  - destruct B; [done|]. simpl in Hmask. by injection Hmask.
Qed.

Lemma mask_tokens_row (b : nat) (row : list V) :
  x !! b = Some row →
  mask_tokens !! b
  = Some (replicate M (if pad_with_cls_token
                       then default mask_token (head row)
                       else mask_token)).
Proof.
  intros Hrow.
  pose proof (dims_replicate_lookup _ _ _ _ _ Hx Hrow) as Hl.
  assert (HB : (b < B)%nat).
  { apply lookup_lt_Some in Hrow.
    rewrite <- dims_length, Hx, length_replicate in Hrow. done. }
  rewrite mask_head_length by lia.
  destruct pad_with_cls_token.
  - rewrite list_lookup_fmap, Hrow. simpl. f_equal.
    destruct row as [|c row]; simpl in *.
    + by subst M.
    + rewrite take_0. apply join_replicate_singleton.
  - apply lookup_replicate_2.
    by rewrite <- dims_length, Hmask, length_replicate.
Qed.

Lemma mask_tokens_dims : dims mask_tokens = dims x.
Proof.
  unfold dims at 1.
  apply list_eq_same_length with B.
  - by rewrite dims_length, <- (dims_length x), Hx, length_replicate.
  - destruct pad_with_cls_token.
    + by rewrite !length_fmap, <- (dims_length x), Hx, length_replicate.
    + by rewrite length_fmap, length_replicate, <- dims_length, Hmask,
        length_replicate.
  - intros b n n' Hb Hn Hn'.
    rewrite Hx in Hn'. apply lookup_replicate in Hn' as [-> _].
    destruct (lookup_lt_is_Some_2 x b) as [row Hrow].
    { by rewrite <- dims_length, Hx, length_replicate. }
    rewrite list_lookup_fmap, (mask_tokens_row b row Hrow) in Hn.
    simpl in Hn. injection Hn as <-. by rewrite length_replicate.
Qed.

Hypothesis Hdrop : dims token_drop_mask = replicate B M.
Hypothesis Hzero : Forall (Forall (λ d : Z, d = 0%Z)) token_drop_mask.
Hypothesis Hpos : length decoder_pos_embed_learned = M.
Hypothesis Hslots : length slots = B.

(** X22.  The sequence [forward_decoder] runs the decoder blocks on, for
    a latent and masks of shape (B, M), a drop mask of zeros (nothing
    dropped, as [forward_encoder] and [gen_image] pass it), M position
    embeddings and B rows of slots: it is built without error, and row b is
    the slots of item b followed by the M token positions; a masked
    position holds the vector of the class position of its item (the mask
    token when [pad_with_cls_token] is off), any other position its own
    vector, each with its position embedding added.  So token position j
    sits at index (number of slots) + j. *)
Theorem decoder_input_layout :
  ∃ out,
    MageDecoder.forward_decoder_input add mask_token pad_with_cls_token
      decoder_pos_embed_learned x slots token_drop_mask token_all_mask
    = Some out ∧
    length out = B ∧
    ∀ b s row mrow,
      slots !! b = Some s → x !! b = Some row →
      token_all_mask !! b = Some mrow →
      out !! b
      = Some (s ++ zip_with add
                     (zip_with (λ v (m : bool),
                                  if m
                                  then if pad_with_cls_token
                                       then default v (head row)
                                       else mask_token
                                  else v) row mrow)
                     decoder_pos_embed_learned).
Proof.
  unfold MageDecoder.forward_decoder_input. cbv zeta.
  rewrite nonzero_zeros by done. rewrite Hdrop, <- Hx.
  rewrite (index_put_all mask_tokens x mask_tokens_dims). simpl.
  destruct (where_is_Some token_all_mask mask_tokens x) as [w Hw].
  { by rewrite mask_tokens_dims, Hx, Hmask. }
  { apply mask_tokens_dims. }
  rewrite Hw. simpl.
  destruct (where_Some _ _ _ _ Hw) as (_ & _ & Hwd & Hwg).
  assert (Hrows : ∀ b wrow, w !! b = Some wrow →
            ∃ row mrow, x !! b = Some row ∧ token_all_mask !! b = Some mrow ∧
              wrow = zip_with (λ v (m : bool),
                                 if m
                                 then if pad_with_cls_token
                                      then default v (head row)
                                      else mask_token
                                 else v) row mrow).
  { intros b wrow Hb.
    pose proof (lookup_lt_Some _ _ _ Hb) as Hlt.
    rewrite <- dims_length, Hwd, Hx, length_replicate in Hlt.
    destruct (lookup_lt_is_Some_2 x b) as [row Hrow].
    { by rewrite <- dims_length, Hx, length_replicate. }
    destruct (lookup_lt_is_Some_2 token_all_mask b) as [mrow Hmrow].
    { by rewrite <- dims_length, Hmask, length_replicate. }
    exists row, mrow. split; [done|]. split; [done|].
    pose proof (dims_replicate_lookup _ _ _ _ _ Hx Hrow) as Hl.
    pose proof (dims_replicate_lookup _ _ _ _ _ Hmask Hmrow) as Hlm.
    assert (Hlw : length wrow = M).
    { rewrite Hx in Hwd. by apply (dims_replicate_lookup _ _ _ _ _ Hwd Hb). }
    apply list_eq_same_length with M;
      [rewrite length_zip_with; lia|done|].
    intros j v v' Hj Hv Hv'.
    pose proof (Hwg b j) as Hg. unfold tget in Hg.
    rewrite Hb, Hmrow, (mask_tokens_row b row Hrow), Hrow in Hg.
    simpl in Hg. rewrite Hv in Hg.
    apply lookup_zip_with_Some in Hv' as (a & m & -> & Ha & Hm).
    rewrite Hm, lookup_replicate_2, Ha in Hg by done. simpl in Hg.
    injection Hg as ->.
    destruct m; [|done]. destruct pad_with_cls_token; [|done].
    destruct row as [|c row]; [done|]. done. }
  destruct (mapM_is_Some_2
              (λ row : list V,
                 MageDecoder.BertEmbeddings.add_broadcast add row
                   decoder_pos_embed_learned) w) as [sums Hsums].
  { apply Forall_lookup. intros b wrow Hb. simpl.
    unfold MageDecoder.BertEmbeddings.add_broadcast.
    rewrite decide_True; [by eexists|].
    rewrite Hx in Hwd.
    by rewrite (dims_replicate_lookup _ _ _ _ _ Hwd Hb). }
  rewrite Hsums. simpl.
  assert (Hls : length sums = B).
  { apply length_mapM in Hsums.
    by rewrite <- Hsums, <- dims_length, Hwd, Hx, length_replicate. }
  rewrite decide_True by lia.
  eexists. split; [reflexivity|]. split.
  { rewrite length_zip_with. lia. }
  intros b s row mrow Hs Hrow Hmrow.
  apply mapM_Some in Hsums.
  destruct (lookup_lt_is_Some_2 w b) as [wrow Hb].
  { apply lookup_lt_Some in Hrow.
    by rewrite <- dims_length, Hwd, dims_length. }
  destruct (Forall2_lookup_l _ _ _ _ _ Hsums Hb) as (srow & Hsrow & Hadd).
  rewrite lookup_zip_with, Hs, Hsrow. simpl. do 2 f_equal.
  destruct (Hrows b wrow Hb) as (row' & mrow' & Hr' & Hm' & ->).
  pose proof (dims_replicate_lookup _ _ _ _ _ Hx Hr') as Hl1.
  pose proof (dims_replicate_lookup _ _ _ _ _ Hmask Hm') as Hl2.
  rewrite Hrow in Hr'. rewrite Hmrow in Hm'.
  injection Hr' as <-. injection Hm' as <-.
  unfold MageDecoder.BertEmbeddings.add_broadcast in Hadd.
  rewrite decide_True in Hadd; [by injection Hadd|].
  rewrite length_zip_with. lia.
Qed.

End layout.
End decoder_input_props.

Lemma decoder_input_layout_witness :
  dims [[10; 20]]%nat = replicate 1%nat 2%nat ∧
  dims [[false; true]] = replicate 1%nat 2%nat ∧
  dims [[0; 0]]%Z = replicate 1%nat 2%nat ∧
  Forall (Forall (λ d : Z, d = 0%Z)) [[0; 0]]%Z ∧
  length [100; 200]%nat = 2%nat ∧
  length [[1]]%nat = 1%nat ∧
  ∃ out,
    MageDecoder.forward_decoder_input Nat.add 0%nat true [100; 200]%nat
      [[10; 20]]%nat [[1]]%nat [[0; 0]]%Z [[false; true]]
    = Some out ∧
    length out = 1%nat ∧
    out !! 0%nat = Some [1; 110; 210]%nat.
Proof.
  assert (H1 : dims [[10; 20]]%nat = replicate 1%nat 2%nat) by reflexivity.
  assert (H2 : dims [[false; true]] = replicate 1%nat 2%nat) by reflexivity.
  assert (H3 : dims [[0; 0]]%Z = replicate 1%nat 2%nat) by reflexivity.
  assert (H4 : Forall (Forall (λ d : Z, d = 0%Z)) [[0; 0]]%Z).
  { apply Forall_singleton, Forall_cons. split; [done|].
    by apply Forall_singleton. }
  assert (H5 : length [100; 200]%nat = 2%nat) by reflexivity.
  assert (H6 : length [[1]]%nat = 1%nat) by reflexivity.
  split; [exact H1|]. split; [exact H2|]. split; [exact H3|].
  split; [exact H4|]. split; [exact H5|]. split; [exact H6|].
  destruct (decoder_input_layout Nat.add 0%nat true [100; 200]%nat
              [[10; 20]]%nat [[1]]%nat [[0; 0]]%Z [[false; true]] 1%nat 2%nat
              H1 H2 H3 H4 H5 H6) as (out & Hout & Hlen & Hrows).
  exists out. split; [exact Hout|]. split; [exact Hlen|].
  exact (Hrows 0%nat [1]%nat [10; 20]%nat [false; true] eq_refl eq_refl
           eq_refl).
Defined.

(** * File names *)

Lemma string_length_append (s t : String.string) :
  String.length (String.append s t) = (String.length s + String.length t)%nat.
Proof. induction s as [|c s IH]; simpl; [done|]. by rewrite IH. Qed.

Lemma string_append_inj_r (s s' t : String.string) :
  String.append s t = String.append s' t → s = s'.
Proof.
  intros H.
  assert (Hlen : String.length s = String.length s').
  { apply (f_equal String.length) in H.
    rewrite !string_length_append in H. lia. }
  revert s' H Hlen. induction s as [|c s IH]; intros [|c' s'] H Hlen;
    simpl in *; try done.
  injection H as -> H. f_equal. apply IH; [done|lia].
Qed.

Lemma uint_of_zeros k (s : String.string) :
  DecimalString.NilEmpty.uint_of_string (String.append (FileNames.zeros k) s)
  = Nat.iter k Decimal.D0 <$> DecimalString.NilEmpty.uint_of_string s.
Proof.
  induction k as [|k IH]; simpl.
  - by destruct (DecimalString.NilEmpty.uint_of_string s).
  - rewrite IH. by destruct (DecimalString.NilEmpty.uint_of_string s).
Qed.

Lemma N_of_uint_zeros k d :
  N.of_uint (Nat.iter k Decimal.D0 d) = N.of_uint d.
Proof. induction k as [|k IH]; simpl; [done|]. exact IH. Qed.

(** Reading a zero-filled number back. *)
Lemma zfill_value width n :
  N.of_uint <$> DecimalString.NilEmpty.uint_of_string
                  (FileNames.zfill width (FileNames.py_str n))
  = Some n.
Proof.
  unfold FileNames.zfill, FileNames.py_str. rewrite uint_of_zeros.
  assert (DecimalString.NilZero.string_of_uint (N.to_uint n)
          = DecimalString.NilEmpty.string_of_uint (N.to_uint n)) as ->.
  { destruct n as [|p]; [done|]. simpl.
    pose proof (DecimalPos.Unsigned.to_uint_nonnil p).
    by destruct (Pos.to_uint p). }
  rewrite DecimalString.NilEmpty.usu. simpl.
  by rewrite N_of_uint_zeros, DecimalN.Unsigned.of_to.
Qed.

Lemma png_name_inj n m : FileNames.png_name n = FileNames.png_name m → n = m.
Proof.
  unfold FileNames.png_name. intros H. apply string_append_inj_r in H.
  pose proof (zfill_value 5 n) as Hn. rewrite H, zfill_value in Hn.
  congruence.
Qed.

Section file_names.
Import Stdlib.Strings.String.
Local Open Scope string_scope.

(** X23.  The names of the image files.  A number is written with at least
    five digits, zero-filled and never cut ([png_name 7] is 00007.png), and
    different numbers give different names.  The files the two blocks of
    [gen_image] write at step 0 carry the names the script gives the final
    images, which are written later into the same folder.  For batch items
    below 100, two files of the same block have the same name only for the
    same item and step, and a file of the mask block has the name of a file
    of the per-iteration block only for the same item and a step 10000
    times larger (step 0 included: with both blocks on, the per-iteration
    image of step 0 replaces the mask image).  From item 100 on the names of
    the mask block repeat: item 100 at step 0 is item 0 at step 1. *)
Theorem saved_file_names :
  FileNames.png_name 7 = "00007.png" ∧
  FileNames.png_name 1000031 = "1000031.png" ∧
  (∀ n m, FileNames.png_name n = FileNames.png_name m → n = m) ∧
  (∀ b, FileNames.mask_vis_name b 0 = FileNames.final_name b ∧
        FileNames.per_iter_name b 0 = FileNames.final_name b) ∧
  (∀ b b' step step', (b < 100)%N → (b' < 100)%N →
     (FileNames.mask_vis_name b step = FileNames.mask_vis_name b' step' →
      b = b' ∧ step = step') ∧
     (FileNames.per_iter_name b step = FileNames.per_iter_name b' step' →
      b = b' ∧ step = step') ∧
     (FileNames.mask_vis_name b step = FileNames.per_iter_name b' step' →
      b = b' ∧ step = (10000 * step')%N)) ∧
  FileNames.mask_vis_name 100 0 = FileNames.mask_vis_name 0 1.
Proof.
  split; [reflexivity|]. split; [reflexivity|].
  split; [exact png_name_inj|]. split.
  - intros b. unfold FileNames.mask_vis_name, FileNames.per_iter_name,
      FileNames.final_name.
    by rewrite !N.mul_0_r, N.add_0_r.
  - split; [|reflexivity].
    intros b b' step step' Hb Hb'.
    unfold FileNames.mask_vis_name, FileNames.per_iter_name.
    split; [|split]; intros H; apply png_name_inj in H; lia.
Qed.

End file_names.

Lemma saved_file_names_witness :
  (3 < 100)%N ∧ (3 < 100)%N ∧
  FileNames.mask_vis_name 3 0 = FileNames.per_iter_name 3 0 ∧
  3%N = 3%N ∧ 0%N = (10000 * 0)%N.
Proof.
  assert (H1 : (3 < 100)%N) by lia.
  destruct saved_file_names as (_ & _ & _ & _ & Hnames & _).
  destruct (Hnames 3%N 3%N 0%N 0%N H1 H1) as (_ & _ & Hcross).
  split; [exact H1|]. split; [exact H1|]. split; [reflexivity|].
  exact (Hcross eq_refl).
Defined.
